(** * Text-to-speech player: PCM decoder, RIFF/WAVE encoder, playback transport

    A shallow embedding of [src/utils/audioUtils.ts] (and of the sibling
    variant of that file that carries [audioBufferToWav]) and of the playback
    handlers of the player component.

    Numbers.  A JavaScript [number] is an IEEE binary64 value.  The samples
    this program handles are binary32 values (elements of a [Float32Array]);
    a finite one is a dyadic rational with a 24-bit significand, so the two
    products the encoders form with it ([s * 0x8000], [s * 0x7FFF]) and the
    quotient the decoder forms ([int16 / 32768.0]) are exact in binary64.
    Finite numbers are therefore modelled by exact rationals ([Q]), next to
    the three non-finite values.  The sign of zero is not modelled: no code
    path below tells [-0] from [+0].  In the playback transport the clock
    readings, offsets and rates are exact rationals as well.  [play],
    [pause] and the progress display compute with them exactly; the
    rounding of their binary64 sums and products, a few units in the last
    place of a stored value, is not modelled.  The [onended] handler is
    computed in binary64 arithmetic (Module [Binary64]): it compares with
    [duration - 0.01], and that binary64 difference is not the exact one
    (for a tenth of a second it is 0.09000000000000001), which decides the
    branch for an offset such as 0.09. *)

From Stdlib Require Import ZArith QArith Qabs Lia Bool String.
From Stdlib.Strings Require Import Byte.
From Stdlib Require SpecFloat.
From stdpp Require Import base list.

Open Scope Z_scope.

(** ** Errors *)

Inductive exn : Type :=
| RangeError          (* typed array view / DataView access out of range *)
| NotSupportedError   (* Web Audio: argument outside its nominal range *)
| IndexSizeError.     (* Web Audio: channel index out of range *)

Inductive result (A : Type) : Type :=
| Ok (a : A)
| Throw (e : exn).
Arguments Ok {A} a.
Arguments Throw {A} e.

Definition bind {A B} (r : result A) (k : A -> result B) : result B :=
  match r with
  | Ok a => k a
  | Throw e => Throw e
  end.

Notation "'let*' x ':=' r 'in' k" := (bind r (fun x => k))
  (at level 10, x name, r at level 100, k at level 200).

(** [for (let i = 0; i < n; i++) st = body(i, st)], stopping at the first
    exception. *)
Definition for_range {S} (n : nat) (body : nat -> S -> result S) (st : S)
  : result S :=
  fold_left (fun r i => let* s := r in body i s) (seq 0 n) (Ok st).

(** ** JavaScript numbers *)

Module JS.

Inductive number : Type :=
| Fin (q : Q)
| PInf
| NInf
| NaN.

Definition of_Z (z : Z) : number := Fin (inject_Z z).
Definition of_nat (n : nat) : number := of_Z (Z.of_nat n).

Definition Qltb (a b : Q) : bool :=
  match Qcompare a b with Lt => true | _ => false end.

(** [a < b] *)
Definition lt (a b : number) : bool :=
  match a, b with
  | NaN, _ | _, NaN => false
  | Fin x, Fin y => Qltb x y
  | NInf, NInf => false
  | NInf, _ => true
  | _, NInf => false
  | PInf, _ => false
  | Fin _, PInf => true
  end.

(** [a > b] *)
Definition gt (a b : number) : bool := lt b a.

(** [a >= b] *)
Definition ge (a b : number) : bool :=
  match a, b with
  | NaN, _ | _, NaN => false
  | _, _ => negb (lt a b)
  end.

Definition Math_min (a b : number) : number :=
  match a, b with
  | NaN, _ | _, NaN => NaN
  | _, _ => if lt b a then b else a
  end.

Definition Math_max (a b : number) : number :=
  match a, b with
  | NaN, _ | _, NaN => NaN
  | _, _ => if lt a b then b else a
  end.

Definition sign (q : Q) : comparison := Qcompare q 0.

(** [a * b] *)
Definition mul (a b : number) : number :=
  match a, b with
  | NaN, _ | _, NaN => NaN
  | Fin x, Fin y => Fin (x * y)
  | Fin x, PInf | PInf, Fin x =>
      match sign x with Gt => PInf | Lt => NInf | Eq => NaN end
  | Fin x, NInf | NInf, Fin x =>
      match sign x with Gt => NInf | Lt => PInf | Eq => NaN end
  | PInf, PInf | NInf, NInf => PInf
  | PInf, NInf | NInf, PInf => NInf
  end.

(** [a + b] *)
Definition add (a b : number) : number :=
  match a, b with
  | NaN, _ | _, NaN => NaN
  | Fin x, Fin y => Fin (x + y)
  | PInf, NInf | NInf, PInf => NaN
  | PInf, _ | _, PInf => PInf
  | NInf, _ | _, NInf => NInf
  end.

(** [a - b] *)
Definition sub (a b : number) : number :=
  match a, b with
  | NaN, _ | _, NaN => NaN
  | Fin x, Fin y => Fin (x - y)
  | PInf, PInf | NInf, NInf => NaN
  | PInf, _ | _, NInf => PInf
  | NInf, _ | _, PInf => NInf
  end.

Definition is_finite (a : number) : bool :=
  match a with Fin _ => true | _ => false end.

(** [Object.is] on numbers, up to the sign of zero. *)
Definition same (a b : number) : bool :=
  match a, b with
  | Fin x, Fin y => Qeq_bool x y
  | PInf, PInf | NInf, NInf | NaN, NaN => true
  | _, _ => false
  end.

(** [a / b] *)
Definition div (a b : number) : number :=
  match a, b with
  | NaN, _ | _, NaN => NaN
  | Fin x, Fin y =>
      match sign y with
      | Eq => match sign x with Gt => PInf | Lt => NInf | Eq => NaN end
      | _ => Fin (x / y)
      end
  | Fin _, _ => Fin 0
  | PInf, Fin y => match sign y with Lt => NInf | _ => PInf end
  | NInf, Fin y => match sign y with Lt => PInf | _ => NInf end
  | _, _ => NaN
  end.

(** Truncation toward zero (the integral part used by ToInt16 / ToUint32). *)
Definition truncate (q : Q) : Z := Z.quot (Qnum q) (Zpos (Qden q)).

(** Number of rounds of [for (i = 0; i < b; i++)]: the least natural number
    that is not below [b]. *)
Definition ceiling (q : Q) : Z := - ((- Qnum q) / Zpos (Qden q)).

Definition ToUint32 (x : number) : Z :=
  match x with
  | Fin q => truncate q mod 4294967296
  | _ => 0
  end.

Definition ToInt16 (x : number) : Z :=
  match x with
  | Fin q =>
      let m := truncate q mod 65536 in
      if 32768 <=? m then m - 65536 else m
  | _ => 0
  end.

End JS.

Import JS.

(** ** Binary64 arithmetic *)

(** The IEEE operations on [number]s, for the places where rounding decides
    what the program does.  They are the operations of the Standard
    Library's specification of floating-point arithmetic ([SpecFloat], at
    precision 53 and maximal exponent 1024, round to nearest, ties to
    even), between a conversion of the operands and a conversion of the
    result.  The value of a binary64 number is an exact rational, so the
    result converts without loss; an operand that is a binary64 value
    converts without loss as well, and any other rational is rounded to
    the nearest binary64 value, as a numeric literal is. *)
Module Binary64.

Definition prec : Z := 53.
Definition emax : Z := 1024.

Definition pow2 (e : Z) : Q :=
  match e with
  | Z0 => 1
  | Zpos p => inject_Z (Zpos (2 ^ p))
  | Zneg p => 1 # (2 ^ p)
  end.

(** The binary64 value nearest to a rational.  The quotient is taken with
    at least 56 bits, and one more bit records whether anything was left
    over: rounding that to 53 bits rounds the rational itself. *)
Definition round (q : Q) : SpecFloat.spec_float :=
  let n := Z.abs (Qnum q) in
  let d := Zpos (Qden q) in
  let k := Z.max 0 (Z.log2 d - Z.log2 n + 56) in
  let scaled := n * 2 ^ k in
  let m := 2 * (scaled / d) + (if scaled mod d =? 0 then 0 else 1) in
  SpecFloat.binary_normalize prec emax (if Qnum q <? 0 then - m else m)
    (- k - 1) false.

Definition to_float (x : number) : SpecFloat.spec_float :=
  match x with
  | Fin q => round q
  | PInf => SpecFloat.S754_infinity false
  | NInf => SpecFloat.S754_infinity true
  | NaN => SpecFloat.S754_nan
  end.

Definition of_float (f : SpecFloat.spec_float) : number :=
  match f with
  | SpecFloat.S754_zero _ => Fin 0
  | SpecFloat.S754_infinity false => PInf
  | SpecFloat.S754_infinity true => NInf
  | SpecFloat.S754_nan => NaN
  | SpecFloat.S754_finite s m e =>
      Fin (Qred ((if s then -1 else 1) * inject_Z (Zpos m) * pow2 e))
  end.

(** A numeric literal, such as [0.01]. *)
Definition literal (q : Q) : number := of_float (round q).

Definition add (a b : number) : number :=
  of_float (SpecFloat.SFadd prec emax (to_float a) (to_float b)).

Definition sub (a b : number) : number :=
  of_float (SpecFloat.SFsub prec emax (to_float a) (to_float b)).

Definition mul (a b : number) : number :=
  of_float (SpecFloat.SFmul prec emax (to_float a) (to_float b)).

Definition div (a b : number) : number :=
  of_float (SpecFloat.SFdiv prec emax (to_float a) (to_float b)).

End Binary64.

Arguments Binary64.literal : simpl never.
Arguments Binary64.add : simpl never.
Arguments Binary64.sub : simpl never.
Arguments Binary64.mul : simpl never.
Arguments Binary64.div : simpl never.

(** ** Bytes and typed arrays *)

Definition byte_to_Z (b : byte) : Z := Z.of_N (Byte.to_N b).

Definition byte_of_Z (z : Z) : byte :=
  match Byte.of_N (Z.to_N (z mod 256)) with
  | Some b => b
  | None => x00
  end.

(** A [Uint8Array] that owns its whole [ArrayBuffer], as [decode] builds it. *)
Abbreviation Uint8Array := (list byte).

(** One two's-complement 16-bit element of a typed array on a
    little-endian platform. *)
Definition int16_le (lo hi : byte) : Z :=
  let u := byte_to_Z lo + 256 * byte_to_Z hi in
  if 32768 <=? u then u - 65536 else u.

Fixpoint int16_elements (bs : list byte) : list Z :=
  match bs with
  | lo :: hi :: rest => int16_le lo hi :: int16_elements rest
  | _ => []
  end.

(** [new Int16Array(buffer)]: a view over the whole buffer; the constructor
    throws a RangeError when the byte length is not a multiple of the
    element size. *)
Definition Int16Array (buffer : list byte) : result (list Z) :=
  if Nat.even (length buffer) then Ok (int16_elements buffer)
  else Throw RangeError.

(** [a[i]] read as a number: an index past the end reads [undefined], which
    arithmetic turns into NaN. *)
Definition typed_get (a : list Z) (i : nat) : number :=
  match a !! i with
  | Some k => of_Z k
  | None => NaN
  end.

(** ** AudioBuffer *)

Record AudioBuffer : Type := mkAudioBuffer {
  sampleRate : Z;
  frames : nat;                       (* the [length] attribute *)
  channels : list (list number)       (* one Float32Array per channel *)
}.

Definition numberOfChannels (b : AudioBuffer) : nat := length (channels b).

(** The exact quotient [length / sampleRate], of which the [duration]
    attribute is the binary64 value. *)
Definition buffer_duration (b : AudioBuffer) : Q :=
  inject_Z (Z.of_nat (frames b)) / inject_Z (sampleRate b).

(** The [duration] attribute as the platform computes it: the binary64
    quotient of [length] by [sampleRate]. *)
Definition duration64 (b : AudioBuffer) : number :=
  Binary64.div (of_nat (frames b)) (of_Z (sampleRate b)).

Definition getChannelData (b : AudioBuffer) (i : nat) : result (list number) :=
  match channels b !! i with
  | Some c => Ok c
  | None => Throw IndexSizeError
  end.

(** The platform only hands out buffers of this shape. *)
Definition well_formed (b : AudioBuffer) : Prop :=
  (0 < length (channels b))%nat /\
  (0 < frames b)%nat /\
  0 < sampleRate b /\
  Forall (fun c => length c = frames b) (channels b).

(** ** BaseAudioContext *)

(** What an audio context supports is left to the implementation.  The
    Web Audio API asks for at least 32 channels and for the sample rates
    from 8000 to 96000 Hz, and has [createBuffer] throw NotSupportedError
    for a channel count or a rate outside the supported range. *)
Record AudioContext : Type := mkAudioContext {
  maxChannels : nat;
  minSampleRate : Z;
  maxSampleRate : Z
}.

Definition supports (ctx : AudioContext) (numChannels : nat) (rate : Z) : bool :=
  (numChannels <=? maxChannels ctx)%nat
  && (minSampleRate ctx <=? rate) && (rate <=? maxSampleRate ctx).


Definition baseline_context : AudioContext := mkAudioContext 32 8000 96000.

(** [ctx.createBuffer(numberOfChannels, length, sampleRate)].  The [length]
    argument is an IDL [unsigned long]: a number is converted by truncation
    modulo 2^32.  A zero channel count, a zero length, a non-positive rate,
    and a channel count or a rate that the context does not support are
    rejected with NotSupportedError.  The memory of the buffer is taken to
    be available.  The new buffer is silent. *)
Definition createBuffer (ctx : AudioContext) (numChannels : nat) (len : number)
    (rate : Z) : result AudioBuffer :=
  let n := Z.to_nat (ToUint32 len) in
  if (numChannels =? 0)%nat || (n =? 0)%nat || (rate <=? 0)
     || negb (supports ctx numChannels rate)
  then Throw NotSupportedError
  else
    Ok (mkAudioBuffer rate n (replicate numChannels (replicate n (Fin 0)))).

(** ** src/utils/audioUtils.ts: decodeAudioData *)

(** The inner loop: [channelData[i] = dataInt16[i * numChannels + channel] / 32768.0].
    A store past the end of a typed array is ignored; every value stored is
    an int16 over 2^15 and survives the binary32 store unchanged. *)
Definition fill_channel (dataInt16 : list Z) (numChannels channel : nat)
    (rounds : nat) (channelData : list number) : list number :=
  fold_left
    (fun cd i =>
       <[ i := div (typed_get dataInt16 (i * numChannels + channel)) (Fin 32768) ]> cd)
    (seq 0 rounds) channelData.

Definition rounds_below (bound : number) : nat :=
  match bound with
  | Fin q => Z.to_nat (ceiling q)
  | _ => 0%nat
  end.

Definition decodeAudioData (data : Uint8Array) (ctx : AudioContext)
    (rate : Z) (numChannels : nat) : result AudioBuffer :=
  let* dataInt16 := Int16Array data in
  let frameCount := div (of_nat (length dataInt16)) (of_nat numChannels) in
  let* buffer := createBuffer ctx numChannels frameCount rate in
  for_range numChannels
    (fun channel b =>
       let* channelData := getChannelData b channel in
       Ok (mkAudioBuffer (sampleRate b) (frames b)
             (<[ channel :=
                   fill_channel dataInt16 numChannels channel
                     (rounds_below frameCount) channelData ]> (channels b))))
    buffer.

(** ** DataView over a fresh ArrayBuffer *)

Abbreviation DataView := (list byte).

(** [new ArrayBuffer(n)] is zero-filled. *)
Definition ArrayBuffer (n : nat) : DataView := replicate n x00.

(** Every DataView setter checks the whole access against the view's bounds
    and throws a RangeError before writing anything. *)
Definition store (view : DataView) (offset : nat) (bs : list byte)
  : result DataView :=
  if (offset + length bs <=? length view)%nat
  then Ok (list_inserts offset bs view)
  else Throw RangeError.

Definition setUint8 (view : DataView) (offset : nat) (v : Z) : result DataView :=
  store view offset [byte_of_Z v].

(** The 16/32-bit setters below are the [littleEndian = true] calls. *)
Definition setUint16 (view : DataView) (offset : nat) (v : Z) : result DataView :=
  store view offset [byte_of_Z v; byte_of_Z (v / 256)].

Definition setUint32 (view : DataView) (offset : nat) (v : Z) : result DataView :=
  store view offset
    [byte_of_Z v; byte_of_Z (v / 256); byte_of_Z (v / 65536);
     byte_of_Z (v / 16777216)].

Definition setInt16 (view : DataView) (offset : nat) (x : number)
  : result DataView :=
  let v := ToInt16 x in
  store view offset [byte_of_Z v; byte_of_Z (v / 256)].

Record Blob : Type := mkBlob {
  blob_bytes : list byte;
  blob_type : string
}.

(** ** The container encoders *)

Module Encoder.

(** [for (i = 0; i < str.length; i++) view.setUint8(offset + i, str.charCodeAt(i))] *)
Fixpoint writeString_from (view : DataView) (offset i : nat) (str : string)
  : result DataView :=
  match str with
  | EmptyString => Ok view
  | String c rest =>
      let* view' := setUint8 view (offset + i) (Z.of_N (Ascii.N_of_ascii c)) in
      writeString_from view' offset (S i) rest
  end.

Definition writeString (view : DataView) (offset : nat) (str : string)
  : result DataView :=
  writeString_from view offset 0 str.

(** [Math.max(-1, Math.min(1, x))] *)
Definition clamp (x : number) : number :=
  Math_max (Fin (-1)) (Math_min (Fin 1) x).

(** [s < 0 ? s * 0x8000 : s * 0x7FFF] *)
Definition scale (s : number) : number :=
  if lt s (Fin 0) then mul s (Fin 32768) else mul s (Fin 32767).

(** [for (i = 0; i < input.length; i++, offset += 2)] *)
Fixpoint floatTo16BitPCM (output : DataView) (offset : nat)
    (input : list number) : result DataView :=
  match input with
  | [] => Ok output
  | x :: rest =>
      let s := clamp x in
      let* output' := setInt16 output offset (scale s) in
      floatTo16BitPCM output' (offset + 2) rest
  end.

(** [channels[j][i]]: [channels[j]] is always one of the pushed arrays; an
    index past the end of it reads [undefined], which [Math.min] turns into
    NaN. *)
Definition sample_at (chans : list (list number)) (j i : nat) : number :=
  match chans !! j with
  | Some c => match c !! i with Some x => x | None => NaN end
  | None => NaN
  end.

(** [for (i = 0; i < numOfChan; i++) channels.push(buffer.getChannelData(i))] *)
Definition collect_channels (buffer : AudioBuffer) (numOfChan : nat)
  : result (list (list number)) :=
  for_range numOfChan
    (fun i chans => let* c := getChannelData buffer i in Ok (chans ++ [c]))
    [].

(** The body of the inner interleaving loop at frame [i], channel [j]:
    it threads [view] and [offset]. *)
Definition put_sample (chans : list (list number)) (i j : nat)
    (st : DataView * nat) : result (DataView * nat) :=
  let '(view, offset) := st in
  let s := clamp (sample_at chans j i) in
  let* view' := setInt16 view offset (scale s) in
  Ok (view', (offset + 2)%nat).

(** [let offset = 44; for (i < buffer.length) for (j < numOfChan) ...] *)
Definition interleave (view : DataView) (chans : list (list number))
    (len numOfChan : nat) : result (DataView * nat) :=
  for_range len
    (fun i st => for_range numOfChan (put_sample chans i) st)
    (view, 44%nat).

(** The header writes shared, line for line, by both encoders. *)
Definition write_header (view : DataView) (numOfChan : nat) (rate : Z)
    (length : nat) : result DataView :=
  let format := 1 in
  let bitDepth := 16 in
  let* view := writeString view 0 "RIFF" in
  let* view := setUint32 view 4 (36 + Z.of_nat length) in
  let* view := writeString view 8 "WAVE" in
  let* view := writeString view 12 "fmt " in
  let* view := setUint32 view 16 16 in
  let* view := setUint16 view 20 format in
  let* view := setUint16 view 22 (Z.of_nat numOfChan) in
  let* view := setUint32 view 24 rate in
  let* view := setUint32 view 28 (rate * Z.of_nat numOfChan * (bitDepth / 8)) in
  let* view := setUint16 view 32 (Z.of_nat numOfChan * (bitDepth / 8)) in
  let* view := setUint16 view 34 bitDepth in
  let* view := writeString view 36 "data" in
  setUint32 view 40 (Z.of_nat length).

(** The sibling variant of audioUtils.ts: audioBufferToWav *)
Definition audioBufferToWav (buffer : AudioBuffer) : result Blob :=
  let numOfChan := numberOfChannels buffer in
  let sampleRate := sampleRate buffer in
  let length := (frames buffer * numOfChan * (16 / 8))%nat in
  let view := ArrayBuffer (44 + length) in
  let* view := write_header view numOfChan sampleRate length in
  let* view :=
    if (numOfChan =? 1)%nat then
      let* c := getChannelData buffer 0 in
      floatTo16BitPCM view 44 c
    else
      let* chans := collect_channels buffer numOfChan in
      let* st := interleave view chans (frames buffer) numOfChan in
      Ok (fst st)
  in
  Ok (mkBlob view "audio/wav").

(** src/utils/audioUtils.ts: audioBufferToMp3 *)
Definition audioBufferToMp3 (buffer : AudioBuffer) : result Blob :=
  let numOfChan := numberOfChannels buffer in
  let sampleRate := sampleRate buffer in
  let length := (frames buffer * numOfChan * (16 / 8))%nat in
  let view := ArrayBuffer (44 + length) in
  let* view := write_header view numOfChan sampleRate length in
  let* chans := collect_channels buffer numOfChan in
  let* st := interleave view chans (frames buffer) numOfChan in
  Ok (mkBlob (fst st) "audio/mpeg").

End Encoder.

Import Encoder.

(** ** The playback transport of the player component *)

Module Player.

(** The closure of the [source.onended] arrow function: the [audioBuffer]
    and [playbackRate] of the render whose [play] created the source. *)
Record EndedHandler : Type := mkEndedHandler {
  h_audioBuffer : AudioBuffer;
  h_playbackRate : number
}.

(** An AudioBufferSourceNode after [start(0, offset)].  The [playbackRate]
    AudioParam is its initial [value] and the [setValueAtTime(value, time)]
    calls made since, latest last. *)
Record SourceNode : Type := mkSourceNode {
  src_buffer : AudioBuffer;
  src_playbackRate : number;
  src_rate_schedule : list (number * number);   (* (value, time) *)
  src_offset : number;               (* second argument of [start] *)
  src_onended : option EndedHandler
}.

Record GainNode : Type := mkGainNode { gain : number }.

(** The closure of [updateProgress] handed to [requestAnimationFrame]: the
    [isPlaying] and [playbackRate] of the render that built it. *)
Record FrameCallback : Type := mkFrameCallback {
  fc_isPlaying : bool;
  fc_playbackRate : number
}.

Record State : Type := mkState {
  (* useState *)
  audioBuffer : option AudioBuffer;
  isPlaying : bool;
  currentTime : number;
  duration : number;
  volume : number;
  lastVolume : number;
  playbackRate : number;
  (* useRef *)
  audioContextRef : bool;                       (* a context exists *)
  audioSourceRef : option SourceNode;
  gainNodeRef : option GainNode;
  previewAudioSourceRef : option SourceNode;
  animationFrame : option FrameCallback;        (* the frame request pending *)
  playbackStartTimeRef : number;
  startOffsetRef : number
}.

Definition initial : State :=
  mkState None false (Fin 0) (Fin 0) (Fin 1) (Fin 1) (Fin 1)
          false None None None None (Fin 0) (Fin 0).

Definition set_audioBuffer (v : option AudioBuffer) (s : State) : State :=
  mkState v (isPlaying s) (currentTime s) (duration s) (volume s)
    (lastVolume s) (playbackRate s) (audioContextRef s) (audioSourceRef s)
    (gainNodeRef s) (previewAudioSourceRef s) (animationFrame s)
    (playbackStartTimeRef s) (startOffsetRef s).

Definition set_isPlaying (v : bool) (s : State) : State :=
  mkState (audioBuffer s) v (currentTime s) (duration s) (volume s)
    (lastVolume s) (playbackRate s) (audioContextRef s) (audioSourceRef s)
    (gainNodeRef s) (previewAudioSourceRef s) (animationFrame s)
    (playbackStartTimeRef s) (startOffsetRef s).

Definition set_currentTime (v : number) (s : State) : State :=
  mkState (audioBuffer s) (isPlaying s) v (duration s) (volume s)
    (lastVolume s) (playbackRate s) (audioContextRef s) (audioSourceRef s)
    (gainNodeRef s) (previewAudioSourceRef s) (animationFrame s)
    (playbackStartTimeRef s) (startOffsetRef s).

Definition set_duration (v : number) (s : State) : State :=
  mkState (audioBuffer s) (isPlaying s) (currentTime s) v (volume s)
    (lastVolume s) (playbackRate s) (audioContextRef s) (audioSourceRef s)
    (gainNodeRef s) (previewAudioSourceRef s) (animationFrame s)
    (playbackStartTimeRef s) (startOffsetRef s).

Definition set_volume (v : number) (s : State) : State :=
  mkState (audioBuffer s) (isPlaying s) (currentTime s) (duration s) v
    (lastVolume s) (playbackRate s) (audioContextRef s) (audioSourceRef s)
    (gainNodeRef s) (previewAudioSourceRef s) (animationFrame s)
    (playbackStartTimeRef s) (startOffsetRef s).

Definition set_lastVolume (v : number) (s : State) : State :=
  mkState (audioBuffer s) (isPlaying s) (currentTime s) (duration s) (volume s)
    v (playbackRate s) (audioContextRef s) (audioSourceRef s)
    (gainNodeRef s) (previewAudioSourceRef s) (animationFrame s)
    (playbackStartTimeRef s) (startOffsetRef s).

Definition set_playbackRate (v : number) (s : State) : State :=
  mkState (audioBuffer s) (isPlaying s) (currentTime s) (duration s) (volume s)
    (lastVolume s) v (audioContextRef s) (audioSourceRef s)
    (gainNodeRef s) (previewAudioSourceRef s) (animationFrame s)
    (playbackStartTimeRef s) (startOffsetRef s).

Definition set_audioContextRef (v : bool) (s : State) : State :=
  mkState (audioBuffer s) (isPlaying s) (currentTime s) (duration s) (volume s)
    (lastVolume s) (playbackRate s) v (audioSourceRef s)
    (gainNodeRef s) (previewAudioSourceRef s) (animationFrame s)
    (playbackStartTimeRef s) (startOffsetRef s).

Definition set_audioSourceRef (v : option SourceNode) (s : State) : State :=
  mkState (audioBuffer s) (isPlaying s) (currentTime s) (duration s) (volume s)
    (lastVolume s) (playbackRate s) (audioContextRef s) v
    (gainNodeRef s) (previewAudioSourceRef s) (animationFrame s)
    (playbackStartTimeRef s) (startOffsetRef s).

Definition set_gainNodeRef (v : option GainNode) (s : State) : State :=
  mkState (audioBuffer s) (isPlaying s) (currentTime s) (duration s) (volume s)
    (lastVolume s) (playbackRate s) (audioContextRef s) (audioSourceRef s)
    v (previewAudioSourceRef s) (animationFrame s)
    (playbackStartTimeRef s) (startOffsetRef s).

Definition set_previewAudioSourceRef (v : option SourceNode) (s : State) : State :=
  mkState (audioBuffer s) (isPlaying s) (currentTime s) (duration s) (volume s)
    (lastVolume s) (playbackRate s) (audioContextRef s) (audioSourceRef s)
    (gainNodeRef s) v (animationFrame s)
    (playbackStartTimeRef s) (startOffsetRef s).

Definition set_animationFrame (v : option FrameCallback) (s : State) : State :=
  mkState (audioBuffer s) (isPlaying s) (currentTime s) (duration s) (volume s)
    (lastVolume s) (playbackRate s) (audioContextRef s) (audioSourceRef s)
    (gainNodeRef s) (previewAudioSourceRef s) v
    (playbackStartTimeRef s) (startOffsetRef s).

Definition set_playbackStartTimeRef (v : number) (s : State) : State :=
  mkState (audioBuffer s) (isPlaying s) (currentTime s) (duration s) (volume s)
    (lastVolume s) (playbackRate s) (audioContextRef s) (audioSourceRef s)
    (gainNodeRef s) (previewAudioSourceRef s) (animationFrame s)
    v (startOffsetRef s).

Definition set_startOffsetRef (v : number) (s : State) : State :=
  mkState (audioBuffer s) (isPlaying s) (currentTime s) (duration s) (volume s)
    (lastVolume s) (playbackRate s) (audioContextRef s) (audioSourceRef s)
    (gainNodeRef s) (previewAudioSourceRef s) (animationFrame s)
    (playbackStartTimeRef s) v.

Inductive target : Type := Main | Preview | Both.

(** [stopPlayback(sourceNode?)]: [Both] is the call without argument.  A
    source taken out of its ref has had [onended] cleared (main) and has
    been stopped; it plays no further part.  [cancelAnimationFrame] drops
    the pending frame request. *)
Definition stopPlayback (sourceNode : target) (s : State) : State :=
  let s :=
    match sourceNode with
    | Main | Both => set_audioSourceRef None s
    | Preview => s
    end in
  let s :=
    match sourceNode with
    | Preview | Both => set_previewAudioSourceRef None s
    | Main => s
    end in
  set_animationFrame None (set_isPlaying false s).

(** [setupAudioContext]: the context and its gain stage (default gain 1)
    are created once. *)
Definition setupAudioContext (s : State) : State :=
  if audioContextRef s then s
  else set_gainNodeRef (Some (mkGainNode (Fin 1))) (set_audioContextRef true s).

(** One run of [updateProgress] as the pending animation frame fires at
    clock reading [now]. *)
Definition updateProgress (cb : FrameCallback) (now : number) (s : State)
  : State :=
  if fc_isPlaying cb && audioContextRef s then
    let elapsedTime := mul (sub now (playbackStartTimeRef s)) (fc_playbackRate cb) in
    let newTime := add (startOffsetRef s) elapsedTime in
    set_animationFrame (Some cb) (set_currentTime newTime s)
  else set_animationFrame None s.

(** [source.start(0, offset)] rejects a negative or non-finite offset, and
    an AudioParam rejects a non-finite value; the exception ends the
    handler where it stands. *)
Definition start_accepts (offset : number) : bool :=
  is_finite offset && negb (lt offset (Fin 0)).

(** [play], as the closure of one render: [buf], [rate] and [cb] are that
    render's [audioBuffer], [playbackRate] and [updateProgress]. *)
Definition play_closure (buf : option AudioBuffer) (rate : number)
    (cb : FrameCallback) (now : number) (s : State) : State :=
  match buf with
  | Some audioBuffer =>
      if audioContextRef s && bool_decide (is_Some (gainNodeRef s)) then
        let s := stopPlayback Main s in
        let offset :=
          if ge (startOffsetRef s) (Fin (buffer_duration audioBuffer))
          then Fin 0 else startOffsetRef s in
        if is_finite rate && start_accepts offset then
          let source :=
            mkSourceNode audioBuffer rate [] offset
              (Some (mkEndedHandler audioBuffer rate)) in
          let s := set_audioSourceRef (Some source) s in
          let s := set_playbackStartTimeRef now s in
          let s := set_isPlaying true s in
          set_animationFrame (Some cb) s
        else s
      else s
  | None => s
  end.

(** [play] as called from the handlers of the current render. *)
Definition play (now : number) (s : State) : State :=
  play_closure (audioBuffer s) (playbackRate s)
    (mkFrameCallback (isPlaying s) (playbackRate s)) now s.

(** The [onended] handler of a source, run at clock reading [now].  Its
    test [newOffset >= audioBuffer.duration - 0.01] sits where rounding
    decides (for a tenth of a second, [0.1 - 0.01] is 0.09000000000000001,
    which the offset 0.09 does not reach), so the handler is computed in
    binary64 arithmetic throughout. *)
Definition onended (h : EndedHandler) (now : number) (s : State) : State :=
  if audioContextRef s then
    let newOffset :=
      Binary64.add (startOffsetRef s)
        (Binary64.mul (Binary64.sub now (playbackStartTimeRef s))
           (h_playbackRate h)) in
    let threshold :=
      Binary64.sub (duration64 (h_audioBuffer h)) (Binary64.literal (1 # 100)) in
    let at_end := ge newOffset threshold in
    let s := set_startOffsetRef (if at_end then Fin 0 else newOffset) s in
    let s := set_isPlaying false s in
    let s := set_animationFrame None s in
    if at_end then set_currentTime (duration64 (h_audioBuffer h)) s
    else s
  else s.

Definition pause (now : number) (s : State) : State :=
  if audioContextRef s && bool_decide (is_Some (audioSourceRef s)) then
    let elapsedTime := mul (sub now (playbackStartTimeRef s)) (playbackRate s) in
    let s := set_startOffsetRef (add (startOffsetRef s) elapsedTime) s in
    stopPlayback Main s
  else s.

Definition handleTogglePlayPause (now : number) (s : State) : State :=
  if isPlaying s then pause now s else play now s.

(** The effect keyed on [volume]: it runs after a render in which [volume]
    changed and sets the live gain. *)
Definition volume_effect (before : number) (s : State) : State :=
  if same before (volume s) then s
  else
    match gainNodeRef s with
    | Some _ =>
        if audioContextRef s && is_finite (volume s)
        then set_gainNodeRef (Some (mkGainNode (volume s))) s
        else s
    | None => s
    end.

Definition handleToggleMute (s : State) : State :=
  let s' :=
    if gt (volume s) (Fin 0) then set_volume (Fin 0) (set_lastVolume (volume s) s)
    else set_volume (if gt (lastVolume s) (Fin 0) then lastVolume s else Fin 1) s in
  volume_effect (volume s) s'.

(** [newVolume] is [parseFloat(e.target.value)]. *)
Definition handleVolumeChange (newVolume : number) (s : State) : State :=
  let s' :=
    set_lastVolume (if gt newVolume (Fin 0) then newVolume else lastVolume s)
      (set_volume newVolume s) in
  volume_effect (volume s) s'.

Definition handleSpeedChange (newRate now : number) (s : State) : State :=
  let s := set_playbackRate newRate s in
  match audioSourceRef s with
  | Some src =>
      if audioContextRef s && is_finite newRate then
        set_audioSourceRef
          (Some (mkSourceNode (src_buffer src) (src_playbackRate src)
                   (src_rate_schedule src ++ [(newRate, now)])
                   (src_offset src) (src_onended src))) s
      else s
  | None => s
  end.

Definition handleSeek (newTime : number) (now : number) (s : State) : State :=
  let playing := isPlaying s in
  let buf := audioBuffer s in
  let rate := playbackRate s in
  let s := set_currentTime newTime s in
  let s := set_startOffsetRef newTime s in
  if playing then play_closure buf rate (mkFrameCallback playing rate) now s
  else s.

(** The effect keyed on [text] and [selectedVoice]. *)
Definition input_changed (s : State) : State :=
  set_duration (Fin 0)
    (set_currentTime (Fin 0) (set_audioBuffer None (stopPlayback Both s))).

(** [handleGenerateAudio] from the click to the end of a successful
    request, with no other event in between.  The [play] it calls last is
    the one of the render in which the button was clicked. *)
Definition handleGenerateAudio (newAudioBuffer : AudioBuffer) (now : number)
    (s : State) : State :=
  let buf := audioBuffer s in
  let rate := playbackRate s in
  let cb := mkFrameCallback (isPlaying s) (playbackRate s) in
  let s := set_audioBuffer None (stopPlayback Both s) in
  let s := setupAudioContext s in
  let s := set_audioBuffer (Some newAudioBuffer) s in
  let s := set_duration (Fin (buffer_duration newAudioBuffer)) s in
  let s := set_currentTime (Fin 0) s in
  let s := set_startOffsetRef (Fin 0) s in
  play_closure buf rate cb now s.

(** [handlePreviewVoice], likewise for a successful request. *)
Definition handlePreviewVoice (previewBuffer : AudioBuffer) (s : State) : State :=
  let s := setupAudioContext (stopPlayback Both s) in
  match gainNodeRef s with
  | Some _ =>
      if audioContextRef s then
        set_previewAudioSourceRef
          (Some (mkSourceNode previewBuffer (Fin 1) [] (Fin 0) None)) s
      else s
  | None => s
  end.

(** What can happen to the mounted component.  [Ended] is the [ended]
    event of the source held in [audioSourceRef], if its handler is still
    attached. *)
Inductive event : Type :=
| TogglePlayPause (now : number)
| ToggleMute
| VolumeChange (newVolume : number)
| SpeedChange (newRate now : number)
| Seek (newTime now : number)
| Ended (now : number)
| Frame (now : number)
| InputChanged
| Generated (newAudioBuffer : AudioBuffer) (now : number)
| Previewed (previewBuffer : AudioBuffer).

Definition step (s : State) (e : event) : State :=
  match e with
  | TogglePlayPause now => handleTogglePlayPause now s
  | ToggleMute => handleToggleMute s
  | VolumeChange v => handleVolumeChange v s
  | SpeedChange r now => handleSpeedChange r now s
  | Seek t now => handleSeek t now s
  | Ended now =>
      match audioSourceRef s with
      | Some src =>
          match src_onended src with
          | Some h => onended h now s
          | None => s
          end
      | None => s
      end
  | Frame now =>
      match animationFrame s with
      | Some cb => updateProgress cb now s
      | None => s
      end
  | InputChanged => input_changed s
  | Generated b now => handleGenerateAudio b now s
  | Previewed b => handlePreviewVoice b s
  end.

Definition run (s : State) (es : list event) : State := fold_left step es s.

Inductive reachable : State -> Prop :=
| reachable_initial : reachable initial
| reachable_step s e : reachable s -> reachable (step s e).

End Player.

Import Player.

(** * Definitions used by the statements *)

(** The two bytes of a value, low byte first (two's complement). *)
Definition le16 (v : Z) : list byte := [byte_of_Z v; byte_of_Z (v / 256)].

Definition le32 (v : Z) : list byte :=
  [byte_of_Z v; byte_of_Z (v / 256); byte_of_Z (v / 65536);
   byte_of_Z (v / 16777216)].

(** The sample of channel [c] at frame [i]: the int16 element at flat index
    [i * numChannels + c], over 32768. *)
Definition decoded_sample (ks : list Z) (numChannels c i : nat) : number :=
  Fin (nth (i * numChannels + c) ks 0 # 32768).

Definition decoded_channels (ks : list Z) (numChannels n : nat)
  : list (list number) :=
  map (fun c => map (decoded_sample ks numChannels c) (seq 0 n))
      (seq 0 numChannels).

(** The canonical 44-byte header. *)
Definition wav_header (channelCount rate dataLength : Z) : list byte :=
  ["R"; "I"; "F"; "F"]%byte ++ le32 (36 + dataLength) ++
  ["W"; "A"; "V"; "E"]%byte ++
  ["f"; "m"; "t"; " "]%byte ++ le32 16 ++
  le16 1 ++ le16 channelCount ++ le32 rate ++
  le32 (rate * channelCount * 2) ++ le16 (channelCount * 2) ++ le16 16 ++
  ["d"; "a"; "t"; "a"]%byte ++ le32 dataLength.

(** Unsigned little-endian fields read back from a byte sequence. *)
Definition read_u16 (bs : list byte) (offset : nat) : Z :=
  byte_to_Z (nth offset bs x00) + 256 * byte_to_Z (nth (offset + 1) bs x00).

Definition read_u32 (bs : list byte) (offset : nat) : Z :=
  byte_to_Z (nth offset bs x00) + 256 * byte_to_Z (nth (offset + 1) bs x00)
  + 65536 * byte_to_Z (nth (offset + 2) bs x00)
  + 16777216 * byte_to_Z (nth (offset + 3) bs x00).

(** The numeric fields of a 44-byte header, in file order: total size,
    "fmt " chunk size, format tag, channel count, sample rate, byte rate,
    block align, bits per sample, data length. *)
Definition header_fields (bs : list byte) : list Z :=
  [read_u32 bs 4; read_u32 bs 16; read_u16 bs 20; read_u16 bs 22;
   read_u32 bs 24; read_u32 bs 28; read_u16 bs 32; read_u16 bs 34;
   read_u32 bs 40].

(** The 16-bit code the encoders write for one sample. *)
Definition pcm16 (x : number) : Z := ToInt16 (scale (clamp x)).

(** One frame: the samples of all channels at frame [i], channel-minor. *)
Definition frame_bytes (chans : list (list number)) (numOfChan i : nat)
  : list byte :=
  flat_map (fun j => le16 (pcm16 (sample_at chans j i))) (seq 0 numOfChan).

Definition payload (chans : list (list number)) (len numOfChan : nat)
  : list byte :=
  flat_map (frame_bytes chans numOfChan) (seq 0 len).

(** What one trip through the encoder does to an int16 code: a positive
    code comes back one lower (it is scaled by 32767/32768 and truncated),
    the others come back unchanged. *)
Definition requantize (k : Z) : Z := if 0 <? k then k - 1 else k.

Definition sample (b : AudioBuffer) (c i : nat) : number :=
  sample_at (channels b) c i.

(** Two samples are within one least-significant bit of 16-bit
    quantisation when both are finite and differ by at most 1/32768. *)
Definition within_lsb (x y : number) : Prop :=
  match x, y with
  | Fin a, Fin b => (Qabs (a - b) <= 1 # 32768)%Q
  | _, _ => False
  end.

Definition two_stereo_frames : list byte :=
  [x00; x00; xff; x7f; x00; x80; x34; x12]%byte.

Definition three_samples : list byte := [x01; x00; x02; x00; x03; x00]%byte.

(** The positive peak as decoded, and after one and two trips through the
    encoder and the decoder. *)
Definition peak_decoded : AudioBuffer :=
  mkAudioBuffer 24000 1 [[Fin (32767 # 32768)]].

Definition peak_once : AudioBuffer :=
  mkAudioBuffer 24000 1 [[Fin (32766 # 32768)]].

Definition peak_twice : AudioBuffer :=
  mkAudioBuffer 24000 1 [[Fin (32765 # 32768)]].

(** The words of the format for one finite sample: clamp to [-1, 1], scale
    a negative value by 32768 and a non-negative one by 32767, keep the
    integral part. *)
Definition quantize (q : Q) : Z :=
  let c := if Qle_bool q (-1) then (-1)%Q else if Qle_bool 1 q then 1%Q else q in
  truncate (if Qltb c 0 then c * 32768 else c * 32767)%Q.

Definition stereo_pair : AudioBuffer :=
  mkAudioBuffer 24000 2 [[Fin (1 # 2); Fin (-3 # 4)]; [Fin (-2); Fin 0]].

Definition known_vector : list byte := [x00; x00; xff; x7f]%byte.

Definition mono_triple : AudioBuffer :=
  mkAudioBuffer 24000 3 [[Fin (1 # 2); Fin (-3 # 4); NaN]].

(** A tenth of a second of silence, and the player right after it has been
    generated. *)
Definition tenth_second : AudioBuffer :=
  mkAudioBuffer 24000 2400 [replicate 2400 (Fin 0)].

Definition loaded : State := step initial (Generated tenth_second (Fin 0)).

(** The loaded player with the speed slider moved to 1.5. *)
Definition loaded_fast : State :=
  step loaded (SpeedChange (Fin (3 # 2)) (Fin 0)).

Definition playing_from_start : State := step loaded (TogglePlayPause (Fin 0)).

(** The loaded player with the seek slider dragged to the very end, and
    to the middle. *)
Definition seeked_to_end : State := step loaded (Seek (Fin (1 # 10)) (Fin 0)).


(** What the [ended] handler computes for a segment begun at clock reading
    [t0] from [startOffsetSeconds] [o] at rate [r], and what it compares
    with; both in binary64 arithmetic, as the handler forms them. *)
Definition ended_offset (o t0 now r : number) : number :=
  Binary64.add o (Binary64.mul (Binary64.sub now t0) r).

Definition ended_threshold (b : AudioBuffer) : number :=
  Binary64.sub (duration64 b) (Binary64.literal (1 # 100)).

(** The offset C2 describes: the initial offset plus, for each sub-segment,
    its wall-clock duration times the rate in force during it. *)
Definition accumulated (o : Q) (subsegments : list (Q * Q)) : Q :=
  fold_left (fun acc '(wall, rate) => acc + wall * rate)%Q subsegments o.

Definition speed_change_trace : list event :=
  [Generated tenth_second (Fin 0); TogglePlayPause (Fin 0);
   SpeedChange (Fin 2) (Fin (1 # 100)); TogglePlayPause (Fin (3 # 100))].

Definition audible (x : number) : Prop := gt x (Fin 0) = true.

(** The slider dragged to 0.4, then to 0: the player is silent and the
    stored volume is still 0.4. *)
Definition dragged_to_zero : State :=
  step (step loaded (VolumeChange (Fin (2 # 5)))) (VolumeChange (Fin 0)).

(** * Further definitions *)

(** The number of 16-bit samples and of whole frames in a byte sequence. *)
Definition sample_count (data : list byte) : nat := Nat.div2 (length data).

Definition whole_frames (data : list byte) (numChannels : nat) : nat :=
  (sample_count data / numChannels)%nat.

(** A byte sequence below the 8 GiB the decoder's closed form covers. *)
Definition short_tone : list byte :=
  [x00; x40; x00; xc0; xff; x7f; x00; x80; x10; x00]%byte.

(** The order of the numbers other than NaN. *)
Definition num_le (x y : number) : Prop :=
  match x, y with
  | NaN, _ | _, NaN => False
  | NInf, _ => True
  | _, PInf => True
  | Fin a, Fin b => (a <= b)%Q
  | _, _ => False
  end.

(** What the decoder makes of a 16-bit code. *)
Definition dequantize (k : Z) : Q := k # 32768.

(** ** src/utils/audioUtils.ts: the Mp3Encoder class *)

(** What a handler can throw besides the platform errors above: a
    TypeError (a property read off [undefined]) and [Error(message)]. *)
Inductive thrown : Type :=
| Native (e : exn)
| TypeError
| Error (message : string).

Inductive outcome (A : Type) : Type :=
| Returns (a : A)
| Throws (t : thrown).
Arguments Returns {A} a.
Arguments Throws {A} t.

(** [for (let i = 0; i < n; i++)] over a state, up to the first throw. *)
Definition for_each {S} (n : nat) (body : nat -> S -> outcome S) (st : S)
  : outcome S :=
  fold_left
    (fun r i => match r with Returns s => body i s | Throws t => Throws t end)
    (seq 0 n) (Returns st).

Module Mp3Encoder.

Record t : Type := mk {
  channels : nat;
  sampleRate : Z;
  bitRate : Z;
  mp3Data : list (list byte)
}.

(** [constructor(channels, sampleRate, bitRate)] *)
Definition create (channels : nat) (sampleRate bitRate : Z) : t :=
  mk channels sampleRate bitRate [].

(** The body of the inner loop of [convert]: [buffer[ch][i]] is clamped and
    scaled, and [data[offset++] = s] stores it into the Int16Array, which
    converts the number to int16 and ignores an index past its end. *)
Definition convert_sample (buffer : list (list number)) (i ch : nat)
    (st : list Z * nat) : outcome (list Z * nat) :=
  let '(data, offset) := st in
  match buffer !! ch with
  | None => Throws TypeError
  | Some c =>
      let s := clamp (match c !! i with Some x => x | None => NaN end) in
      let s := scale s in
      Returns (<[ offset := ToInt16 s ]> data, S offset)
  end.

Definition convert (this : t) (buffer : list (list number))
  : outcome (list Z) :=
  match buffer !! 0%nat with
  | None => Throws TypeError
  | Some first =>
      let data := replicate (length first * channels this) 0 in
      match
        for_each (length first)
          (fun i st => for_each (channels this) (convert_sample buffer i) st)
          (data, 0%nat)
      with
      | Returns (data, _) => Returns data
      | Throws e => Throws e
      end
  end.

(** [encode] is an empty method. *)
Definition encode (this : t) (buffer : list (list number)) : t := this.

(** [finish]: a blob of the chunks collected in [mp3Data]. *)
Definition finish (this : t) : Blob := mkBlob (concat (mp3Data this)) "audio/mp3".

End Mp3Encoder.

(** The codes of a buffer in file order: frame by frame, channel by
    channel. *)
Definition interleaved_codes (chans : list (list number)) (len numOfChan : nat)
  : list Z :=
  flat_map (fun i => map (fun j => pcm16 (sample_at chans j i)) (seq 0 numOfChan))
    (seq 0 len).

(** Decoding a PCM payload and exporting it again, kept as a payload. *)
Definition reexport (ctx : AudioContext) (rate : Z) (numChannels : nat) (data : list byte)
  : result (list byte) :=
  let* buf := decodeAudioData data ctx rate numChannels in
  let* wav := audioBufferToWav buf in
  Ok (drop 44 (blob_bytes wav)).

Fixpoint reexport_times (m : nat) (ctx : AudioContext) (rate : Z) (numChannels : nat)
    (data : list byte) : result (list byte) :=
  match m with
  | O => Ok data
  | S m' =>
      let* data' := reexport ctx rate numChannels data in
      reexport_times m' ctx rate numChannels data'
  end.

(** A 16-bit code after [m] exports: a positive code has gone down by one
    per export until it reached 0. *)
Definition decayed (m : nat) (k : Z) : Z :=
  if 0 <? k then Z.max 0 (k - Z.of_nat m) else k.

(** ** Observations of the transport state *)

Definition has_handler (s : State) : bool :=
  match audioSourceRef s with
  | Some src => match src_onended src with Some _ => true | None => false end
  | None => false
  end.

Definition frame_pending (s : State) : bool :=
  match animationFrame s with Some _ => true | None => false end.

Definition gain_present (s : State) : bool :=
  match gainNodeRef s with Some _ => true | None => false end.

Definition source_bound (s : State) : bool :=
  match audioSourceRef s with Some _ => true | None => false end.

Definition preview_bound (s : State) : bool :=
  match previewAudioSourceRef s with Some _ => true | None => false end.

Definition transport_ok (s : State) : bool :=
  implb (isPlaying s) (has_handler s)
  && implb (frame_pending s) (isPlaying s)
  && Bool.eqb (gain_present s) (audioContextRef s)
  && implb (source_bound s || preview_bound s) (audioContextRef s).

Definition is_generated (e : event) : bool :=
  match e with Generated _ _ => true | _ => false end.

(** The player paused a little into the tenth-of-a-second buffer at rate
    1.5, and the same player playing again. *)
Definition paused_midway : State :=
  run loaded_fast [TogglePlayPause (Fin 0); TogglePlayPause (Fin (1 # 50))].

Definition playing_midway : State := step paused_midway (TogglePlayPause (Fin 1)).

(** Events a user can cause without a finished generation. *)
Definition idle_clicks : list event :=
  [TogglePlayPause (Fin 1); Seek (Fin (1 # 20)) (Fin 2);
   SpeedChange (Fin 2) (Fin 3); ToggleMute; Previewed tenth_second;
   Ended (Fin 4); Frame (Fin 5); TogglePlayPause (Fin 6)].

(** ** src/services/geminiService.ts *)

Module Gemini.

(** The part of the response [generateSpeech] reads.  Every step of
    [response.candidates?.[0]?.content?.parts?.[0]?.inlineData?.data] may
    be [undefined]. *)
Record InlineData : Type := mkInlineData { data : option string }.
Record Part : Type := mkPart { inlineData : option InlineData }.
Record Content : Type := mkContent { parts : option (list Part) }.
Record Candidate : Type := mkCandidate { content : option Content }.
Record Response : Type := mkResponse { candidates : option (list Candidate) }.

(** A thrown value is an [Error] with its message, or something else. *)
Inductive exception : Type :=
| ErrorObject (message : string)
| OtherValue.

Inductive completion (A : Type) : Type :=
| Normal (a : A)
| Abrupt (e : exception).
Arguments Normal {A} a.
Arguments Abrupt {A} e.

Definition base64Audio (response : Response) : option string :=
  match candidates response with
  | Some (c :: _) =>
      match content c with
      | Some ct =>
          match parts ct with
          | Some (p :: _) =>
              match inlineData p with
              | Some i => data i
              | None => None
              end
          | _ => None
          end
      | None => None
      end
  | _ => None
  end.

Definition no_audio : string := "No audio data was returned from the API.".
Definition unknown_error : string := "An unknown error occurred.".
Definition failed_prefix : string := "Failed to generate speech: ".

(** [generateSpeech].  [client] is how [new GoogleGenAI(...)] completes,
    outside the [try]; [call] is how the awaited [generateContent]
    completes. *)
Definition generateSpeech (client : completion unit)
    (call : completion Response) : completion string :=
  match client with
  | Abrupt e => Abrupt e
  | Normal _ =>
      let attempt :=
        match call with
        | Normal response =>
            match base64Audio response with
            | Some EmptyString | None => Abrupt (ErrorObject no_audio)
            | Some b => Normal b
            end
        | Abrupt e => Abrupt e
        end in
      match attempt with
      | Normal b => Normal b
      | Abrupt error =>
          let errorMessage :=
            match error with
            | ErrorObject message => message
            | OtherValue => unknown_error
            end in
          Abrupt (ErrorObject (String.append failed_prefix errorMessage))
      end
  end.

(** A response whose audio sits in the second part. *)
Definition text_then_audio : Response :=
  mkResponse
    (Some [mkCandidate
             (Some (mkContent
                      (Some [mkPart None;
                             mkPart (Some (mkInlineData (Some "AAA="%string)))])))]).

End Gemini.

(** ** The download name of [handleDownload] *)

Module Download.

(** Strings as sequences of UTF-16 code units, which is what [substring]
    and a regular expression without the [u] flag work on. *)
Definition in_range (lo hi c : Z) : bool := (lo <=? c) && (c <=? hi).

(** The class [[a-zA-Z0-9؀-ۿ]]. *)
Definition kept (c : Z) : bool :=
  in_range 97 122 c || in_range 65 90 c || in_range 48 57 c
  || in_range 1536 1791 c.

(** [.replace(/[^a-zA-Z0-9؀-ۿ]/g, '_')], one code unit. *)
Definition replace_unit (c : Z) : Z := if kept c then c else 95.

(** [.toLowerCase()] on a code unit that is in the class or is [_]: of
    these only A to Z have a lowercase mapping. *)
Definition lower_unit (c : Z) : Z := if in_range 65 90 c then c + 32 else c.

Definition audio : list Z := [97; 117; 100; 105; 111].

(** [text.substring(0, 25).replace(...).toLowerCase() || 'audio'] *)
Definition safeText (text : list Z) : list Z :=
  match map lower_unit (map replace_unit (take 25 text)) with
  | [] => audio
  | s => s
  end.

(** The code units a download name is made of. *)
Definition name_unit (c : Z) : bool :=
  in_range 97 122 c || in_range 48 57 c || (c =? 95) || in_range 1536 1791 c.

End Download.

(** ** What the rendered controls allow *)

Definition has_buffer (s : State) : bool :=
  match audioBuffer s with Some _ => true | None => false end.

(** The play button and the sliders are rendered only while a buffer is
    loaded ([!audioBuffer ? generate button : controls]); the volume slider
    is an [input type="range"], whose value parses to a finite number. *)
Definition offered (s : State) (e : event) : bool :=
  match e with
  | TogglePlayPause _ | ToggleMute | SpeedChange _ _ | Seek _ _ => has_buffer s
  | VolumeChange newVolume => has_buffer s && is_finite newVolume
  | _ => true
  end.

Fixpoint all_offered (s : State) (es : list event) : bool :=
  match es with
  | [] => true
  | e :: es' => offered s e && all_offered (step s e) es'
  end.

(** The gain stage carries the volume shown; before a context exists the
    volume is still the initial 1. *)
Definition volume_ok (s : State) : bool :=
  is_finite (volume s) && is_finite (lastVolume s)
  && implb (has_buffer s) (audioContextRef s)
  && (if audioContextRef s
      then match gainNodeRef s with
           | Some g => same (gain g) (volume s)
           | None => false
           end
      else same (volume s) (Fin 1) && negb (gain_present s)).

(** A session at the controls: generate, turn the volume down, mute,
    play, unmute, preview a voice, generate again. *)
Definition volume_session : list event :=
  [Generated tenth_second (Fin 0); VolumeChange (Fin (3 # 10)); ToggleMute;
   TogglePlayPause (Fin 1); ToggleMute; Previewed tenth_second;
   InputChanged; Generated tenth_second (Fin 2)].

(** The events that stop a voice preview. *)
Definition stops_preview (e : event) : bool :=
  match e with
  | InputChanged | Generated _ _ | Previewed _ => true
  | _ => false
  end.

Definition previewing : State := step loaded (Previewed tenth_second).

Definition transport_clicks : list event :=
  [TogglePlayPause (Fin 1); Seek (Fin (1 # 20)) (Fin 2);
   SpeedChange (Fin 2) (Fin 3); ToggleMute; VolumeChange (Fin (1 # 2));
   Frame (Fin 4); TogglePlayPause (Fin 5); Ended (Fin 6)].

(** * Properties *)

Example decode_vector :
  decodeAudioData [x00; x00; xff; x7f] baseline_context 24000 1
  = Ok (mkAudioBuffer 24000 2 [[Fin (0 # 32768); Fin (32767 # 32768)]]).
Proof. vm_compute. reflexivity. Qed.

Example wav_small :
  audioBufferToWav (mkAudioBuffer 24000 2 [[Fin (0 # 32768); Fin (32767 # 32768)]])
  = Ok (mkBlob
          ["R"; "I"; "F"; "F"; "("; x00; x00; x00; "W"; "A"; "V"; "E";
           "f"; "m"; "t"; " "; x10; x00; x00; x00; x01; x00; x01; x00;
           xc0; "]"; x00; x00; x80; xbb; x00; x00; x02; x00; x10; x00;
           "d"; "a"; "t"; "a"; x04; x00; x00; x00;
           x00; x00; xfe; x7f]%byte
          "audio/wav").
Proof. vm_compute. reflexivity. Qed.

(** ** Bytes *)

Lemma byte_to_Z_range (b : byte) : 0 <= byte_to_Z b < 256.
Proof.
  unfold byte_to_Z. pose proof (Byte.to_N_bounded b) as H. lia.
Qed.

Lemma byte_to_of_Z (z : Z) : byte_to_Z (byte_of_Z z) = z mod 256.
Proof.
  unfold byte_to_Z, byte_of_Z.
  pose proof (Z.mod_pos_bound z 256 ltac:(lia)) as Hm.
  destruct (Byte.of_N (Z.to_N (z mod 256))) as [b|] eqn:E.
  - apply Byte.to_of_N in E. rewrite E. lia.
  - apply Byte.of_N_None_iff in E. lia.
Qed.

Lemma int16_le_range (lo hi : byte) : -32768 <= int16_le lo hi < 32768.
Proof.
  unfold int16_le.
  pose proof (byte_to_Z_range lo). pose proof (byte_to_Z_range hi).
  destruct (Z.leb_spec 32768 (byte_to_Z lo + 256 * byte_to_Z hi)); lia.
Qed.

Lemma int16_le_of_Z (v : Z) :
  -32768 <= v < 32768 ->
  int16_le (byte_of_Z v) (byte_of_Z (v / 256)) = v.
Proof.
  intros Hv. unfold int16_le. rewrite !byte_to_of_Z.
  assert (Hu : v mod 256 + 256 * ((v / 256) mod 256) = v mod 65536).
  { pose proof (Z.div_mod v 256 ltac:(lia)).
    pose proof (Z.div_mod (v / 256) 256 ltac:(lia)).
    pose proof (Z.mod_pos_bound v 256 ltac:(lia)).
    pose proof (Z.mod_pos_bound (v / 256) 256 ltac:(lia)).
    apply (Z.mod_unique_pos _ _ (v / 256 / 256)); lia. }
  rewrite Hu.
  destruct (Z.leb_spec 32768 (v mod 65536)) as [Hge|Hlt].
  - assert (v < 0).
    { destruct (Z.lt_ge_cases v 0); [easy|].
      rewrite Z.mod_small in Hge by lia. lia. }
    assert (v mod 65536 = v + 65536); [|lia].
    symmetry. apply (Z.mod_unique_pos _ _ (-1)); lia.
  - destruct (Z.lt_ge_cases v 0) as [Hn|Hp].
    + assert (v mod 65536 = v + 65536); [|lia].
      symmetry. apply (Z.mod_unique_pos _ _ (-1)); lia.
    + apply Z.mod_small. lia.
Qed.

Lemma list_pair_ind {A} (P : list A -> Prop) :
  P [] -> (forall x, P [x]) -> (forall x y l, P l -> P (x :: y :: l)) ->
  forall l, P l.
Proof.
  intros H0 H1 H2.
  fix IH 1. intros [|x [|y l]]; [exact H0 | apply H1 | apply H2, IH].
Qed.

Lemma int16_elements_length (bs : list byte) :
  length (int16_elements bs) = Nat.div2 (length bs).
Proof.
  induction bs as [|x|lo hi rest IH] using list_pair_ind; [reflexivity..|].
  cbn [int16_elements length Nat.div2]. f_equal. exact IH.
Qed.

Lemma int16_elements_le16 (vs : list Z) :
  Forall (fun v => -32768 <= v < 32768) vs ->
  int16_elements (flat_map le16 vs) = vs.
Proof.
  induction 1 as [|v vs Hv _ IH]; [reflexivity|].
  cbn [flat_map le16 app int16_elements]. rewrite int16_le_of_Z by exact Hv.
  f_equal. exact IH.
Qed.

Lemma int16_elements_range (bs : list byte) :
  Forall (fun v => -32768 <= v < 32768) (int16_elements bs).
Proof.
  induction bs as [|x|lo hi rest IH] using list_pair_ind;
    [constructor..|].
  cbn [int16_elements]. constructor; [apply int16_le_range|exact IH].
Qed.

(** ** Loops *)

Lemma for_range_0 {S} (body : nat -> S -> result S) (st : S) :
  for_range 0 body st = Ok st.
Proof. reflexivity. Qed.

Lemma for_range_S {S} (n : nat) (body : nat -> S -> result S) (st : S) :
  for_range (Datatypes.S n) body st = (let* s := for_range n body st in body n s).
Proof.
  unfold for_range. rewrite seq_S, fold_left_app. reflexivity.
Qed.

(** ** Number conversions *)

Lemma quotient_parts (a b : Z) :
  0 < b ->
  Qnum (inject_Z a / inject_Z b) = a /\
  Zpos (Qden (inject_Z a / inject_Z b)) = b.
Proof.
  intros Hb. destruct b as [|p|p]; try lia.
  unfold Qdiv, Qinv, Qmult, inject_Z. cbn. split; [lia|reflexivity].
Qed.

Lemma truncate_exact (n b : Z) :
  0 < b -> truncate (inject_Z (n * b) / inject_Z b) = n.
Proof.
  intros Hb. unfold truncate.
  destruct (quotient_parts (n * b) b Hb) as [-> ->].
  apply Z.quot_mul. lia.
Qed.

Lemma ceiling_exact (n b : Z) :
  0 < b -> ceiling (inject_Z (n * b) / inject_Z b) = n.
Proof.
  intros Hb. unfold ceiling.
  destruct (quotient_parts (n * b) b Hb) as [-> ->].
  rewrite <- Z.mul_opp_l, Z.div_mul by lia. lia.
Qed.

Lemma div_32768 (k : Z) : div (of_Z k) (Fin 32768) = Fin (k # 32768).
Proof.
  unfold div, of_Z, sign.
  change (Qcompare 32768 0) with Gt. cbv beta iota.
  unfold Qdiv, Qinv, Qmult, inject_Z. cbn [Qnum Qden].
  rewrite Z.mul_1_r. reflexivity.
Qed.

(** ** The decoder in closed form *)

Lemma fill_channel_S ks ch c r cd :
  fill_channel ks ch c (S r) cd
  = <[ r := div (typed_get ks (r * ch + c)) (Fin 32768) ]> (fill_channel ks ch c r cd).
Proof.
  unfold fill_channel. rewrite seq_S, fold_left_app. reflexivity.
Qed.

Lemma fill_channel_length ks ch c r (cd : list number) :
  length (fill_channel ks ch c r cd) = length cd.
Proof.
  induction r as [|r IH]; [reflexivity|].
  rewrite fill_channel_S, length_insert. exact IH.
Qed.

Lemma fill_channel_lookup ks ch c r (cd : list number) (i : nat) :
  (i < length cd)%nat ->
  fill_channel ks ch c r cd !! i
  = if (i <? r)%nat then Some (div (typed_get ks (i * ch + c)) (Fin 32768))
    else cd !! i.
Proof.
  intros Hi. induction r as [|r IH]; [reflexivity|].
  rewrite fill_channel_S.
  destruct (decide (i = r)) as [->|Hne].
  - rewrite list_lookup_insert_eq by (rewrite fill_channel_length; lia).
    destruct (Nat.ltb_spec r (S r)); [reflexivity|lia].
  - rewrite list_lookup_insert_ne by congruence. rewrite IH.
    destruct (Nat.ltb_spec i r), (Nat.ltb_spec i (S r)); try reflexivity; lia.
Qed.

Lemma typed_get_nth (ks : list Z) (j : nat) :
  (j < length ks)%nat -> typed_get ks j = of_Z (nth j ks 0).
Proof.
  intros Hj. unfold typed_get.
  destruct (ks !! j) as [k|] eqn:E.
  - f_equal. symmetry. apply nth_lookup_Some with (d := 0) in E. exact E.
  - apply lookup_ge_None in E. lia.
Qed.

Lemma fill_channel_silent ks ch c n r :
  (n <= r)%nat -> (c < ch)%nat -> length ks = (n * ch)%nat ->
  fill_channel ks ch c r (replicate n (Fin 0))
  = map (decoded_sample ks ch c) (seq 0 n).
Proof.
  intros Hr Hc Hks. apply list_eq. intros i.
  destruct (decide (i < n)%nat) as [Hi|Hi].
  - rewrite fill_channel_lookup by (rewrite length_replicate; lia).
    destruct (Nat.ltb_spec i r); [|lia].
    rewrite list_lookup_fmap, lookup_seq_lt by lia. cbn.
    rewrite typed_get_nth by nia.
    rewrite div_32768. reflexivity.
  - rewrite !lookup_ge_None_2; [reflexivity| |].
    + rewrite length_map, length_seq. lia.
    + rewrite fill_channel_length, length_replicate. lia.
Qed.

Lemma sign_positive (b : Z) : 0 < b -> sign (inject_Z b) = Gt.
Proof.
  intros Hb. unfold sign. apply Qgt_alt.
  change 0%Q with (inject_Z 0). rewrite <- Zlt_Qlt. exact Hb.
Qed.

Lemma frameCount_exact (n ch : nat) :
  (0 < ch)%nat ->
  div (of_nat (n * ch)) (of_nat ch)
  = Fin (inject_Z (Z.of_nat n * Z.of_nat ch) / inject_Z (Z.of_nat ch)).
Proof.
  intros Hch. unfold div, of_nat, of_Z.
  rewrite sign_positive by lia. rewrite Nat2Z.inj_mul. reflexivity.
Qed.

Lemma decode_loop ks rate ch n r (c : nat) :
  (c <= ch)%nat -> (n <= r)%nat -> length ks = (n * ch)%nat ->
  for_range c
    (fun channel b =>
       let* channelData := getChannelData b channel in
       Ok (mkAudioBuffer (sampleRate b) (frames b)
             (<[ channel := fill_channel ks ch channel r channelData ]>
                (channels b))))
    (mkAudioBuffer rate n (replicate ch (replicate n (Fin 0))))
  = Ok (mkAudioBuffer rate n
          (map (fun c => map (decoded_sample ks ch c) (seq 0 n)) (seq 0 c)
           ++ replicate (ch - c) (replicate n (Fin 0)))).
Proof.
  intros Hc Hr Hks. induction c as [|c IH].
  - rewrite for_range_0, Nat.sub_0_r. reflexivity.
  - rewrite for_range_S, IH by lia. cbn [bind].
    destruct (ch - c)%nat as [|m] eqn:Em; [lia|].
    assert (ch - S c = m)%nat as -> by lia.
    set (done := map _ (seq 0 c)).
    assert (Hlen : length done = c) by (subst done; rewrite length_map, length_seq; reflexivity).
    unfold getChannelData. cbn [channels sampleRate frames replicate].
    rewrite lookup_app_r by lia. rewrite Hlen, Nat.sub_diag. cbn [lookup list_lookup bind].
    rewrite insert_app_r_alt by lia. rewrite Hlen, Nat.sub_diag. cbn [insert list_insert].
    rewrite fill_channel_silent by (assumption || lia).
    subst done. rewrite seq_S, map_app. cbn [map Nat.add].
    rewrite <- app_assoc. reflexivity.
Qed.

Lemma even_length_double (n : nat) : Nat.even (2 * n) = true.
Proof. rewrite Nat.even_mul. reflexivity. Qed.

(** The decoder on an input of [n >= 1] whole frames. *)
Lemma decodeAudioData_ok (data : list byte) (ctx : AudioContext) (rate : Z)
    (ch n : nat) :
  (0 < ch)%nat -> 0 < rate -> supports ctx ch rate = true ->
  (0 < n)%nat -> Z.of_nat n < 4294967296 ->
  length data = (2 * (n * ch))%nat ->
  decodeAudioData data ctx rate ch
  = Ok (mkAudioBuffer rate n (decoded_channels (int16_elements data) ch n)).
Proof.
  intros Hch Hrate Hsup Hn Hbig Hlen.
  assert (Hks : length (int16_elements data) = (n * ch)%nat).
  { rewrite int16_elements_length, Hlen. apply Nat.div2_double. }
  unfold decodeAudioData, Int16Array.
  rewrite Hlen, even_length_double. cbn [bind].
  rewrite Hks, frameCount_exact by exact Hch.
  unfold createBuffer, ToUint32, rounds_below.
  rewrite truncate_exact, ceiling_exact by lia.
  rewrite Z.mod_small by lia. rewrite Nat2Z.id.
  destruct (Nat.eqb_spec ch 0); [lia|].
  destruct (Nat.eqb_spec n 0); [lia|].
  destruct (Z.leb_spec rate 0); [lia|]. rewrite Hsup. cbn [orb negb bind].
  rewrite decode_loop by (lia || assumption).
  rewrite Nat.sub_diag. cbn [replicate]. rewrite app_nil_r. reflexivity.
Qed.

(** ** The container, as the format describes it *)

Lemma wav_header_length ch rate len : length (wav_header ch rate len) = 44%nat.
Proof. reflexivity. Qed.

Lemma le16_value (v : Z) :
  byte_to_Z (byte_of_Z v) + 256 * byte_to_Z (byte_of_Z (v / 256)) = v mod 65536.
Proof.
  rewrite !byte_to_of_Z. change 65536 with (256 * 256).
  rewrite (Z.rem_mul_r v 256 256) by lia. reflexivity.
Qed.

Lemma le32_value (v : Z) :
  byte_to_Z (byte_of_Z v) + 256 * byte_to_Z (byte_of_Z (v / 256))
  + 65536 * byte_to_Z (byte_of_Z (v / 65536))
  + 16777216 * byte_to_Z (byte_of_Z (v / 16777216))
  = v mod 4294967296.
Proof.
  rewrite !byte_to_of_Z.
  change 4294967296 with (256 * (256 * (256 * 256))).
  rewrite (Z.rem_mul_r v 256 (256 * (256 * 256))) by lia.
  rewrite (Z.rem_mul_r (v / 256) 256 (256 * 256)) by lia.
  rewrite (Z.rem_mul_r (v / 256 / 256) 256 256) by lia.
  rewrite !Z.div_div by lia.
  change (256 * 256) with 65536. change (65536 * 256) with 16777216. lia.
Qed.

(** Every numeric field of the header holds its number modulo the width of
    the field. *)
Lemma wav_header_fields (ch rate len : Z) (rest : list byte) :
  header_fields (wav_header ch rate len ++ rest)
  = [(36 + len) mod 4294967296; 16; 1; ch mod 65536; rate mod 4294967296;
     (rate * ch * 2) mod 4294967296; (ch * 2) mod 65536; 16;
     len mod 4294967296].
Proof.
  unfold header_fields, read_u32, read_u16, wav_header, le32, le16.
  cbn [app nth Nat.add].
  rewrite !le32_value, !le16_value. reflexivity.
Qed.

Lemma flat_map_length_const {A B} (f : A -> list B) (k : nat) (l : list A) :
  (forall x, length (f x) = k) -> length (flat_map f l) = (length l * k)%nat.
Proof.
  intros Hf. induction l as [|x l IH]; [reflexivity|].
  cbn [flat_map length]. rewrite length_app, Hf, IH. lia.
Qed.

Lemma frame_bytes_length chans ch i : length (frame_bytes chans ch i) = (ch * 2)%nat.
Proof.
  unfold frame_bytes. rewrite (flat_map_length_const _ 2) by reflexivity.
  rewrite length_seq. reflexivity.
Qed.

Lemma payload_length chans len ch : length (payload chans len ch) = (len * (ch * 2))%nat.
Proof.
  unfold payload.
  rewrite (flat_map_length_const _ (ch * 2)) by (intros; apply frame_bytes_length).
  rewrite length_seq. reflexivity.
Qed.

(** ** The encoders in closed form *)

Lemma store_over (pre old post bs : list byte) :
  length old = length bs ->
  store (pre ++ old ++ post) (length pre) bs = Ok (pre ++ bs ++ post).
Proof.
  intros Hlen. unfold store.
  destruct (Nat.leb_spec (length pre + length bs) (length (pre ++ old ++ post))) as [_|Hgt].
  - f_equal. rewrite <- (Nat.add_0_r (length pre)).
    rewrite list_inserts_app_r. f_equal. apply list_inserts_0_r. congruence.
  - rewrite !length_app in Hgt. lia.
Qed.

Lemma write_header_zeros (ch : nat) (rate : Z) (len : nat) (rest : list byte) :
  write_header (replicate 44 x00 ++ rest) ch rate len
  = Ok (wav_header (Z.of_nat ch) rate (Z.of_nat len) ++ rest).
Proof.
  unfold write_header, writeString, setUint32, setUint16, setUint8, store,
    wav_header, le32, le16.
  cbn -[byte_of_Z Z.add Z.mul Z.div Z.of_nat].
  change (16 / 8) with 2.
  repeat (f_equal; try (vm_compute; reflexivity)).
Qed.

Lemma setInt16_over (pre post : list byte) (a b : byte) (x : number) :
  setInt16 (pre ++ a :: b :: post) (length pre) x
  = Ok (pre ++ le16 (ToInt16 x) ++ post).
Proof.
  unfold setInt16. apply (store_over pre [a; b] post). reflexivity.
Qed.

Lemma replicate_double_S {A} (n : nat) (x : A) (l : list A) :
  replicate (S n * 2) x ++ l = replicate (n * 2) x ++ x :: x :: l.
Proof.
  replace (S n * 2)%nat with (n * 2 + 2)%nat by lia.
  rewrite replicate_add, <- app_assoc. reflexivity.
Qed.

Lemma floatTo16BitPCM_zeros (input : list number) (pre post : list byte) :
  floatTo16BitPCM (pre ++ replicate (length input * 2) x00 ++ post)
    (length pre) input
  = Ok (pre ++ flat_map (fun x => le16 (pcm16 x)) input ++ post).
Proof.
  revert pre. induction input as [|x input IH]; intros pre; [reflexivity|].
  cbn [floatTo16BitPCM length flat_map]. cbn [replicate Nat.mul Nat.add app].
  rewrite setInt16_over. cbn [bind].
  replace (length pre + 2)%nat with (length (pre ++ le16 (ToInt16 (scale (clamp x)))))
    by (rewrite length_app; reflexivity).
  rewrite (app_assoc pre), IH, <- !app_assoc. reflexivity.
Qed.

Lemma interleave_frame chans i (n : nat) (pre post : list byte) :
  for_range n (put_sample chans i)
    (pre ++ replicate (n * 2) x00 ++ post, length pre)
  = Ok (pre ++ frame_bytes chans n i ++ post, (length pre + n * 2)%nat).
Proof.
  revert post. induction n as [|n IH]; intros post.
  - rewrite for_range_0. cbn. rewrite Nat.add_0_r. reflexivity.
  - rewrite for_range_S, replicate_double_S, IH. cbn [bind put_sample].
    replace (length pre + n * 2)%nat with (length (pre ++ frame_bytes chans n i))
      by (rewrite length_app, frame_bytes_length; reflexivity).
    rewrite (app_assoc pre), setInt16_over. cbn [bind].
    unfold frame_bytes. rewrite seq_S, flat_map_app. cbn [flat_map Nat.add].
    rewrite app_nil_r, <- !app_assoc, !length_app.
    rewrite (flat_map_length_const _ 2) by reflexivity. rewrite length_seq.
    do 2 f_equal. cbn [length le16]. lia.
Qed.

Lemma interleave_frames chans ch (n : nat) (pre post : list byte) :
  for_range n (fun i st => for_range ch (put_sample chans i) st)
    (pre ++ replicate (n * (ch * 2)) x00 ++ post, length pre)
  = Ok (pre ++ payload chans n ch ++ post, (length pre + n * (ch * 2))%nat).
Proof.
  revert post. induction n as [|n IH]; intros post.
  - rewrite for_range_0. cbn. rewrite Nat.add_0_r. reflexivity.
  - replace (S n * (ch * 2))%nat with (n * (ch * 2) + ch * 2)%nat by lia.
    rewrite for_range_S, replicate_add, <- app_assoc, IH. cbn [bind].
    replace (length pre + n * (ch * 2))%nat with (length (pre ++ payload chans n ch))
      by (rewrite length_app, payload_length; reflexivity).
    rewrite (app_assoc pre), interleave_frame.
    unfold payload. rewrite seq_S, flat_map_app. cbn [flat_map Nat.add].
    rewrite app_nil_r, <- !app_assoc, !length_app.
    rewrite (flat_map_length_const _ (ch * 2)) by (intros; apply frame_bytes_length).
    rewrite length_seq. do 2 f_equal. lia.
Qed.

Lemma interleave_zeros chans len ch (hdr : list byte) :
  length hdr = 44%nat ->
  interleave (hdr ++ replicate (len * ch * 2) x00) chans len ch
  = Ok (hdr ++ payload chans len ch, (44 + len * (ch * 2))%nat).
Proof.
  intros Hh. unfold interleave.
  replace (len * ch * 2)%nat with (len * (ch * 2))%nat by lia.
  rewrite <- (app_nil_r (replicate _ _)), <- Hh at 1.
  rewrite interleave_frames, app_nil_r, Hh. reflexivity.
Qed.

Lemma collect_channels_prefix (b : AudioBuffer) (c : nat) :
  (c <= length (channels b))%nat ->
  for_range c
    (fun i chans => let* c := getChannelData b i in Ok (chans ++ [c])) []
  = Ok (take c (channels b)).
Proof.
  induction c as [|c IH]; intros Hc; [reflexivity|].
  rewrite for_range_S, IH by lia. cbn [bind]. unfold getChannelData.
  destruct (channels b !! c) as [x|] eqn:E.
  - cbn [bind]. f_equal. symmetry. apply take_S_r. exact E.
  - apply lookup_ge_None in E. lia.
Qed.

Lemma collect_channels_all (b : AudioBuffer) :
  collect_channels b (numberOfChannels b) = Ok (channels b).
Proof.
  unfold collect_channels, numberOfChannels.
  rewrite collect_channels_prefix by lia. rewrite firstn_all. reflexivity.
Qed.

Lemma flat_map_ext_seq {B} (f g : nat -> list B) (n : nat) :
  (forall i, (i < n)%nat -> f i = g i) ->
  flat_map f (seq 0 n) = flat_map g (seq 0 n).
Proof.
  induction n as [|n IH]; intros H; [reflexivity|].
  rewrite seq_S, !flat_map_app. cbn [flat_map Nat.add].
  rewrite IH by (intros; apply H; lia). rewrite H by lia. reflexivity.
Qed.

Lemma payload_mono (c : list number) :
  payload [c] (length c) 1 = flat_map (fun x => le16 (pcm16 x)) c.
Proof.
  induction c as [|x c IH] using rev_ind; [reflexivity|].
  rewrite length_app, flat_map_app. cbn [length flat_map]. rewrite app_nil_r.
  unfold payload in *. rewrite Nat.add_1_r, seq_S, flat_map_app.
  cbn [flat_map Nat.add]. rewrite app_nil_r. f_equal.
  - rewrite <- IH. apply flat_map_ext_seq. intros i Hi.
    unfold frame_bytes, sample_at. cbn.
    rewrite lookup_app_l by exact Hi. reflexivity.
  - unfold frame_bytes, sample_at. cbn.
    rewrite list_lookup_middle by reflexivity. reflexivity.
Qed.

(** [audioBufferToMp3] writes the header and the interleaved payload on
    every buffer. *)
Lemma audioBufferToMp3_bytes (b : AudioBuffer) :
  audioBufferToMp3 b
  = Ok (mkBlob
          (wav_header (Z.of_nat (numberOfChannels b)) (sampleRate b)
             (Z.of_nat (frames b * numberOfChannels b * 2))
           ++ payload (channels b) (frames b) (numberOfChannels b))
          "audio/mpeg").
Proof.
  unfold audioBufferToMp3, ArrayBuffer.
  change (16 / 8)%nat with 2%nat.
  rewrite replicate_add, write_header_zeros. cbn [bind].
  rewrite collect_channels_all. cbn [bind].
  rewrite interleave_zeros by apply wav_header_length. reflexivity.
Qed.

(** [audioBufferToWav] does the same on every buffer whose channels hold
    [frames] samples each. *)
Lemma audioBufferToWav_bytes (b : AudioBuffer) :
  Forall (fun c => length c = frames b) (channels b) ->
  audioBufferToWav b
  = Ok (mkBlob
          (wav_header (Z.of_nat (numberOfChannels b)) (sampleRate b)
             (Z.of_nat (frames b * numberOfChannels b * 2))
           ++ payload (channels b) (frames b) (numberOfChannels b))
          "audio/wav").
Proof.
  intros Hshape. unfold audioBufferToWav, ArrayBuffer.
  change (16 / 8)%nat with 2%nat.
  rewrite replicate_add, write_header_zeros. cbn [bind].
  destruct (Nat.eqb_spec (numberOfChannels b) 1) as [Hone|Hmany].
  - unfold numberOfChannels in *. unfold getChannelData.
    destruct (channels b) as [|c [|c' cs]] eqn:E; try discriminate.
    cbn [lookup list_lookup bind length].
    apply Forall_inv in Hshape. rewrite <- Hshape.
    rewrite Nat.mul_1_r.
    rewrite <- (app_nil_r (replicate _ _)).
    change 44%nat
      with (length (wav_header (Z.of_nat 1) (sampleRate b) (Z.of_nat (length c * 2)))).
    rewrite floatTo16BitPCM_zeros, app_nil_r. cbn [bind].
    rewrite payload_mono. reflexivity.
  - rewrite collect_channels_all. cbn [bind].
    rewrite interleave_zeros by apply wav_header_length. reflexivity.
Qed.

(** ** Quantisation of one sample *)

Lemma lt_Fin_true (a b : Q) : lt (Fin a) (Fin b) = true <-> (a < b)%Q.
Proof.
  unfold lt, Qltb. rewrite Qlt_alt.
  destruct (Qcompare a b); split; congruence.
Qed.

Lemma lt_Fin_false (a b : Q) : lt (Fin a) (Fin b) = false <-> (b <= a)%Q.
Proof.
  rewrite <- not_true_iff_false, lt_Fin_true. split.
  - apply Qnot_lt_le.
  - apply Qle_not_lt.
Qed.

Lemma truncate_bounds (q : Q) (lo hi : Z) :
  lo <= 0 <= hi -> (inject_Z lo <= q)%Q -> (q <= inject_Z hi)%Q ->
  lo <= truncate q <= hi.
Proof.
  intros Hz Hlo Hhi. unfold truncate.
  destruct q as [a d]. unfold Qle, inject_Z in *. cbn [Qnum Qden] in *.
  rewrite Z.mul_1_r in *.
  pose proof (Pos2Z.is_pos d) as Hd.
  destruct (Z.lt_ge_cases a 0) as [Ha|Ha].
  - pose proof (Z.mul_quot_ge a (Zpos d) ltac:(lia) ltac:(lia)) as Hq. nia.
  - pose proof (Z.mul_quot_le a (Zpos d) Ha ltac:(lia)) as Hq. nia.
Qed.

Lemma ToInt16_small (q : Q) :
  -32768 <= truncate q < 32768 -> ToInt16 (Fin q) = truncate q.
Proof.
  intros Ht. unfold ToInt16. cbv zeta.
  destruct (Z.lt_ge_cases (truncate q) 0) as [Hn|Hp].
  - assert (truncate q mod 65536 = truncate q + 65536) as ->.
    { symmetry. apply (Z.mod_unique_pos _ _ (-1)); lia. }
    destruct (Z.leb_spec 32768 (truncate q + 65536)); lia.
  - rewrite Z.mod_small by lia.
    destruct (Z.leb_spec 32768 (truncate q)); lia.
Qed.

Lemma clamp_low (q : Q) : (q <= -1)%Q -> clamp (Fin q) = Fin (-1).
Proof.
  intros Hq. unfold clamp, Math_min, Math_max.
  assert (lt (Fin q) (Fin 1) = true) as ->.
  { apply lt_Fin_true. eapply Qle_lt_trans; [exact Hq|reflexivity]. }
  assert (lt (Fin (-1)) (Fin q) = false) as -> by (apply lt_Fin_false; exact Hq).
  reflexivity.
Qed.

Lemma clamp_high (q : Q) : (1 <= q)%Q -> clamp (Fin q) = Fin 1.
Proof.
  intros Hq. unfold clamp, Math_min.
  assert (lt (Fin q) (Fin 1) = false) as -> by (apply lt_Fin_false; exact Hq).
  reflexivity.
Qed.

Lemma clamp_inside (q : Q) : (-1 < q)%Q -> (q < 1)%Q -> clamp (Fin q) = Fin q.
Proof.
  intros Hlo Hhi. unfold clamp, Math_min, Math_max.
  assert (lt (Fin q) (Fin 1) = true) as -> by (apply lt_Fin_true; exact Hhi).
  assert (lt (Fin (-1)) (Fin q) = true) as -> by (apply lt_Fin_true; exact Hlo).
  reflexivity.
Qed.

(** What the encoders write for a finite sample: the clamped value times
    32768 (negative) or 32767 (non-negative), truncated. *)
Lemma pcm16_finite (q : Q) :
  ((q <= -1)%Q -> pcm16 (Fin q) = -32768) /\
  ((-1 < q)%Q -> (q < 0)%Q -> pcm16 (Fin q) = truncate (q * 32768)) /\
  ((0 <= q)%Q -> (q < 1)%Q -> pcm16 (Fin q) = truncate (q * 32767)) /\
  ((1 <= q)%Q -> pcm16 (Fin q) = 32767).
Proof.
  unfold pcm16. repeat split.
  - intros H. rewrite clamp_low by exact H. reflexivity.
  - intros Hlo Hneg. rewrite clamp_inside.
    + unfold scale.
      assert (lt (Fin q) (Fin 0) = true) as -> by (apply lt_Fin_true; exact Hneg).
      cbn [mul]. apply ToInt16_small.
      assert (-32768 <= truncate (q * 32768) <= 0); [|lia].
      apply truncate_bounds; [lia| |].
      * change (inject_Z (-32768)) with ((-1) * 32768)%Q.
        apply Qmult_le_compat_r; [apply Qlt_le_weak; exact Hlo|discriminate].
      * change (inject_Z 0) with (0 * 32768)%Q.
        apply Qmult_le_compat_r; [apply Qlt_le_weak; exact Hneg|discriminate].
    + exact Hlo.
    + eapply Qlt_trans; [exact Hneg|reflexivity].
  - intros Hpos Hhi. rewrite clamp_inside.
    + unfold scale.
      assert (lt (Fin q) (Fin 0) = false) as -> by (apply lt_Fin_false; exact Hpos).
      cbn [mul]. apply ToInt16_small.
      assert (0 <= truncate (q * 32767) <= 32767); [|lia].
      apply truncate_bounds; [lia| |].
      * change (inject_Z 0) with (0 * 32767)%Q.
        apply Qmult_le_compat_r; [exact Hpos|discriminate].
      * change (inject_Z 32767) with (1 * 32767)%Q.
        apply Qmult_le_compat_r; [apply Qlt_le_weak; exact Hhi|discriminate].
    + eapply Qlt_le_trans; [|exact Hpos]. reflexivity.
    + exact Hhi.
  - intros H. rewrite clamp_high by exact H. reflexivity.
Qed.

Lemma pcm16_range (x : number) : -32768 <= pcm16 x < 32768.
Proof.
  destruct x as [q| | |]; [|vm_compute; split; congruence..].
  destruct (pcm16_finite q) as (H1 & H2 & H3 & H4).
  destruct (Qlt_le_dec (-1) q) as [Hlo|Hlo]; [|rewrite H1 by exact Hlo; lia].
  destruct (Qlt_le_dec q 1) as [Hhi|Hhi]; [|rewrite H4 by exact Hhi; lia].
  destruct (Qlt_le_dec q 0) as [Hneg|Hpos].
  - rewrite H2 by assumption.
    assert (-32768 <= truncate (q * 32768) <= 0); [|lia].
    apply truncate_bounds; [lia| |].
    + change (inject_Z (-32768)) with ((-1) * 32768)%Q.
      apply Qmult_le_compat_r; [apply Qlt_le_weak; exact Hlo|discriminate].
    + change (inject_Z 0) with (0 * 32768)%Q.
      apply Qmult_le_compat_r; [apply Qlt_le_weak; exact Hneg|discriminate].
  - rewrite H3 by assumption.
    assert (0 <= truncate (q * 32767) <= 32767); [|lia].
    apply truncate_bounds; [lia| |].
    + change (inject_Z 0) with (0 * 32767)%Q.
      apply Qmult_le_compat_r; [exact Hpos|discriminate].
    + change (inject_Z 32767) with (1 * 32767)%Q.
      apply Qmult_le_compat_r; [apply Qlt_le_weak; exact Hhi|discriminate].
Qed.

(** ** Decode, encode, decode *)

Lemma requantize_range (k : Z) :
  -32768 <= k < 32768 -> -32768 <= requantize k < 32768.
Proof. unfold requantize. destruct (Z.ltb_spec 0 k); lia. Qed.

Lemma pcm16_decoded (k : Z) :
  -32768 <= k < 32768 -> pcm16 (Fin (k # 32768)) = requantize k.
Proof.
  intros Hk. destruct (pcm16_finite (k # 32768)) as (H1 & H2 & H3 & _).
  unfold requantize.
  destruct (Z.eq_dec k (-32768)) as [->|Hmin]; [reflexivity|].
  destruct (Z.lt_ge_cases k 0) as [Hneg|Hpos].
  - destruct (Z.ltb_spec 0 k); [lia|].
    rewrite H2 by (unfold Qlt; cbn; lia).
    unfold truncate. cbn [Qnum Qden Qmult].
    rewrite Pos.mul_1_r. apply Z.quot_mul. lia.
  - rewrite H3 by (unfold Qlt, Qle; cbn; lia).
    unfold truncate. cbn [Qnum Qden Qmult]. rewrite Pos.mul_1_r.
    rewrite Z.quot_div_nonneg by lia.
    destruct (Z.ltb_spec 0 k) as [Hk0|Hk0].
    + symmetry. apply (Z.div_unique_pos _ _ _ (32768 - k)); lia.
    + assert (k = 0) as -> by lia. reflexivity.
Qed.

Lemma flat_map_nth {A B} (f : A -> list B) (d : A) (m : list A) :
  flat_map (fun j => f (nth j m d)) (seq 0 (length m)) = flat_map f m.
Proof.
  induction m as [|x m IH] using rev_ind; [reflexivity|].
  rewrite length_app, Nat.add_1_r, seq_S, !flat_map_app.
  cbn [flat_map Nat.add length]. f_equal.
  - rewrite <- IH. apply flat_map_ext_seq. intros i Hi.
    rewrite app_nth1 by exact Hi. reflexivity.
  - rewrite app_nth2, Nat.sub_diag by lia. reflexivity.
Qed.

(** Frame-major, channel-minor enumeration of [n * ch] elements is the
    list order. *)
Lemma flat_map_interleaved {A B} (f : A -> list B) (d : A) (ch n : nat)
    (l : list A) :
  length l = (n * ch)%nat ->
  flat_map (fun i => flat_map (fun j => f (nth (i * ch + j) l d)) (seq 0 ch))
    (seq 0 n)
  = flat_map f l.
Proof.
  revert l. induction n as [|n IH]; intros l Hl.
  - destruct l; [reflexivity|discriminate].
  - rewrite seq_S, flat_map_app. cbn [flat_map Nat.add]. rewrite app_nil_r.
    assert (Hsplit : l = take (n * ch) l ++ drop (n * ch) l)
      by (symmetry; apply take_drop).
    assert (Htake : length (take (n * ch) l) = (n * ch)%nat)
      by (rewrite length_take; lia).
    transitivity (flat_map f (take (n * ch) l) ++ flat_map f (drop (n * ch) l));
      [|rewrite <- flat_map_app, <- Hsplit; reflexivity].
    f_equal.
    + rewrite <- (IH (take (n * ch) l)) by exact Htake.
      apply flat_map_ext_seq. intros i Hi.
      apply flat_map_ext_seq. intros j Hj. f_equal.
      replace (nth (i * ch + j) l d)
        with (nth (i * ch + j) (take (n * ch) l ++ drop (n * ch) l) d)
        by (rewrite <- Hsplit; reflexivity).
      apply app_nth1. rewrite Htake. nia.
    + rewrite <- (flat_map_nth f d (drop (n * ch) l)).
      rewrite length_drop, Hl.
      replace (S n * ch - n * ch)%nat with ch by lia.
      apply flat_map_ext_seq. intros j Hj. f_equal.
      replace (nth (n * ch + j) l d)
        with (nth (n * ch + j) (take (n * ch) l ++ drop (n * ch) l) d)
        by (rewrite <- Hsplit; reflexivity).
      rewrite app_nth2 by (rewrite Htake; lia).
      f_equal. rewrite Htake. lia.
Qed.

Lemma decoded_channels_length ks ch n : length (decoded_channels ks ch n) = ch.
Proof. unfold decoded_channels. rewrite length_map, length_seq. reflexivity. Qed.

Lemma decoded_channels_shape ks ch n :
  Forall (fun c => length c = n) (decoded_channels ks ch n).
Proof.
  unfold decoded_channels. induction (seq 0 ch) as [|c l IH]; cbn [map].
  - constructor.
  - constructor; [|exact IH]. rewrite length_map, length_seq. reflexivity.
Qed.

Lemma decoded_channels_sample ks ch n c i :
  (c < ch)%nat -> (i < n)%nat ->
  sample_at (decoded_channels ks ch n) c i = decoded_sample ks ch c i.
Proof.
  intros Hc Hi. unfold sample_at, decoded_channels.
  rewrite list_lookup_fmap, lookup_seq_lt by exact Hc. cbn.
  rewrite list_lookup_fmap, lookup_seq_lt by exact Hi. reflexivity.
Qed.

(** The payload the encoders write for a freshly decoded buffer. *)
Lemma payload_decoded (ks : list Z) (ch n : nat) :
  length ks = (n * ch)%nat ->
  Forall (fun v => -32768 <= v < 32768) ks ->
  payload (decoded_channels ks ch n) n ch = flat_map le16 (map requantize ks).
Proof.
  intros Hlen Hrange. unfold payload, frame_bytes.
  assert (Hmap : flat_map le16 (map requantize ks)
                 = flat_map (fun k => le16 (requantize k)) ks).
  { clear. induction ks as [|k ks IH]; [reflexivity|].
    cbn [map flat_map]. rewrite IH. reflexivity. }
  rewrite Hmap.
  rewrite <- (flat_map_interleaved (fun k => le16 (requantize k)) 0 ch n ks Hlen).
  apply flat_map_ext_seq. intros i Hi.
  apply flat_map_ext_seq. intros j Hj.
  rewrite decoded_channels_sample by assumption.
  unfold decoded_sample. rewrite pcm16_decoded; [reflexivity|].
  apply Forall_nth; [exact Hrange|nia].
Qed.

Lemma int16_elements_nth (bs : list byte) (j : nat) :
  (2 * j + 1 < length bs)%nat ->
  nth j (int16_elements bs) 0
  = int16_le (nth (2 * j) bs x00) (nth (2 * j + 1) bs x00).
Proof.
  revert j. induction bs as [|x|lo hi rest IH] using list_pair_ind; intros j Hj.
  - cbn in Hj. lia.
  - cbn in Hj. lia.
  - destruct j as [|j]; [reflexivity|].
    cbn [int16_elements nth].
    replace (2 * S j)%nat with (S (S (2 * j))) by lia.
    cbn [nth Nat.add]. apply IH. cbn [length] in Hj. lia.
Qed.

Lemma within_lsb_requantize (k : Z) :
  within_lsb (Fin (k # 32768)) (Fin (requantize k # 32768)).
Proof.
  unfold within_lsb, requantize. apply Qabs_Qle_condition.
  destruct (Z.ltb_spec 0 k); unfold Qle, Qminus, Qplus, Qopp; cbn; lia.
Qed.

(** The first decode followed by the encoder and the second decode, on an
    input of [n >= 1] whole frames. *)
Lemma decode_encode_decode (data : list byte) (ctx : AudioContext) (rate : Z)
    (ch n : nat) :
  (0 < ch)%nat -> 0 < rate -> supports ctx ch rate = true ->
  (0 < n)%nat -> Z.of_nat n < 4294967296 ->
  length data = (2 * (n * ch))%nat ->
  let ks := int16_elements data in
  let buf := mkAudioBuffer rate n (decoded_channels ks ch n) in
  let buf' := mkAudioBuffer rate n (decoded_channels (map requantize ks) ch n) in
  decodeAudioData data ctx rate ch = Ok buf /\
  audioBufferToWav buf
  = Ok (mkBlob (wav_header (Z.of_nat ch) rate (Z.of_nat (n * ch * 2))
                ++ flat_map le16 (map requantize ks)) "audio/wav") /\
  decodeAudioData (flat_map le16 (map requantize ks)) ctx rate ch = Ok buf'.
Proof.
  intros Hch Hrate Hsup Hn Hbig Hlen ks buf buf'.
  assert (Hks : length ks = (n * ch)%nat).
  { subst ks. rewrite int16_elements_length, Hlen. apply Nat.div2_double. }
  assert (Hrange : Forall (fun v => -32768 <= v < 32768) ks)
    by apply int16_elements_range.
  split; [apply decodeAudioData_ok; assumption|]. split.
  - rewrite audioBufferToWav_bytes by apply decoded_channels_shape.
    unfold numberOfChannels. cbn [channels frames sampleRate buf].
    rewrite decoded_channels_length, payload_decoded by assumption.
    reflexivity.
  - rewrite (decodeAudioData_ok _ ctx rate ch n); try assumption.
    + subst buf'. rewrite int16_elements_le16; [reflexivity|].
      apply Forall_map. eapply Forall_impl; [exact Hrange|].
      intros k Hk. apply requantize_range. exact Hk.
    + rewrite (flat_map_length_const _ 2) by reflexivity.
      rewrite length_map, Hks. lia.
Qed.

(** * Codec claims *)

Lemma decode_empty (ctx : AudioContext) (rate : Z) (ch : nat) :
  (0 < ch)%nat -> decodeAudioData [] ctx rate ch = Throw NotSupportedError.
Proof.
  intros Hch. unfold decodeAudioData, Int16Array. cbn [length Nat.even bind int16_elements].
  change 0%nat with (0 * ch)%nat at 1. rewrite frameCount_exact by exact Hch.
  unfold createBuffer, ToUint32. rewrite truncate_exact by lia.
  cbn [Z.to_nat Z.modulo Z.div_eucl Nat.eqb]. rewrite orb_true_r. reflexivity.
Qed.

(** C1, as stated, fails: the round trip is not idempotent after the
    first quantisation.  The one-sample input of the positive peak decodes
    to 32767/32768; one trip through the encoder and the decoder gives
    32766/32768, and a trip from there gives 32765/32768, which differs
    from the result of the first trip and is two steps away from the first
    decode. *)
Lemma roundtrip_not_idempotent :
  decodeAudioData [xff; x7f]%byte baseline_context 24000 1 = Ok peak_decoded /\
  audioBufferToWav peak_decoded
  = Ok (mkBlob (wav_header 1 24000 2 ++ [xfe; x7f]%byte) "audio/wav") /\
  decodeAudioData [xfe; x7f]%byte baseline_context 24000 1 = Ok peak_once /\
  audioBufferToWav peak_once
  = Ok (mkBlob (wav_header 1 24000 2 ++ [xfd; x7f]%byte) "audio/wav") /\
  decodeAudioData [xfd; x7f]%byte baseline_context 24000 1 = Ok peak_twice /\
  peak_twice <> peak_once /\
  ~ within_lsb (sample peak_decoded 0 0) (sample peak_twice 0 0).
Proof.
  repeat split; try (vm_compute; reflexivity).
  - discriminate.
  - vm_compute. intros H. apply H. reflexivity.
Qed.

(** C1, amended.  For every 16-bit PCM byte sequence whose length is a
    multiple of [2 * channelCount] (and whose frame count fits the
    platform's unsigned long), at a channel count and a rate that the
    context supports, decoding it with [decodeAudioData], encoding the
    buffer with [audioBufferToWav] and decoding the container's payload
    (the bytes after the 44-byte header) again succeeds.  The sample of
    the first decode at frame [i] of channel [c] is the 16-bit code [k] of
    the input bytes at flat index [i * channelCount + c] over 32768; the
    sample of the second decode is [k] over 32768 again when [k] is not
    positive and [k - 1] over 32768 when it is; so every sample is
    reproduced within one least-significant bit of 16-bit quantisation,
    that is within 1/32768.  The empty sequence, which holds no sample, is
    the one input of such a length that the decoder does not accept:
    [createBuffer] rejects a zero length. *)
Theorem roundtrip_within_one_lsb
    (data : list byte) (ctx : AudioContext) (rate : Z) (ch : nat) :
  (0 < ch)%nat -> 0 < rate -> supports ctx ch rate = true ->
  Nat.divide (2 * ch) (length data) ->
  Z.of_nat (length data) < 4294967296 * Z.of_nat (2 * ch) ->
  (data = [] /\ decodeAudioData data ctx rate ch = Throw NotSupportedError) \/
  (exists buf wav buf',
     decodeAudioData data ctx rate ch = Ok buf /\
     audioBufferToWav buf = Ok wav /\
     decodeAudioData (drop 44 (blob_bytes wav)) ctx rate ch = Ok buf' /\
     numberOfChannels buf = ch /\ numberOfChannels buf' = ch /\
     (frames buf * (2 * ch))%nat = length data /\
     frames buf' = frames buf /\
     forall c i, (c < ch)%nat -> (i < frames buf)%nat ->
       let k := int16_le (nth (2 * (i * ch + c)) data x00)
                         (nth (2 * (i * ch + c) + 1) data x00) in
       sample buf c i = Fin (k # 32768) /\
       sample buf' c i = Fin ((if 0 <? k then k - 1 else k) # 32768) /\
       within_lsb (sample buf c i) (sample buf' c i)).
Proof.
  intros Hch Hrate Hsup [n Hn] Hbig.
  destruct n as [|n].
  - left. destruct data; [|discriminate]. split; [reflexivity|].
    apply decode_empty. exact Hch.
  - right.
    assert (Hlen : length data = (2 * (S n * ch))%nat) by lia.
    assert (Hfit : Z.of_nat (S n) < 4294967296) by nia.
    destruct (decode_encode_decode data ctx rate ch (S n) Hch Hrate Hsup
                ltac:(lia) Hfit Hlen)
      as (Hd1 & Henc & Hd2).
    eexists _, _, _. split; [exact Hd1|]. split; [exact Henc|].
    cbn [blob_bytes].
    change 44%nat
      with (length (wav_header (Z.of_nat ch) rate (Z.of_nat (S n * ch * 2)))).
    rewrite drop_app_length. split; [exact Hd2|].
    unfold numberOfChannels, sample. cbn [channels frames].
    rewrite !decoded_channels_length.
    split; [reflexivity|]. split; [reflexivity|]. split; [lia|].
    split; [reflexivity|].
    intros c i Hc Hi. cbv zeta.
    set (k := int16_le _ _).
    assert (Hk : nth (i * ch + c) (int16_elements data) 0 = k)
      by (subst k; apply int16_elements_nth; nia).
    assert (Hk' : nth (i * ch + c) (map requantize (int16_elements data)) 0
                  = requantize k).
    { rewrite <- Hk. change 0 with (requantize 0) at 1. apply map_nth. }
    rewrite !decoded_channels_sample by assumption.
    unfold decoded_sample. rewrite Hk, Hk'.
    split; [reflexivity|]. split; [reflexivity|].
    apply within_lsb_requantize.
Qed.

Lemma roundtrip_within_one_lsb_witness :
  ((0 < 2)%nat /\ 0 < 24000 /\ supports baseline_context 2 24000 = true /\
   Nat.divide (2 * 2) (length two_stereo_frames) /\
   Z.of_nat (length two_stereo_frames) < 4294967296 * Z.of_nat (2 * 2)) /\
  ((two_stereo_frames = [] /\
    decodeAudioData two_stereo_frames baseline_context 24000 2
    = Throw NotSupportedError) \/
   (exists buf wav buf',
      decodeAudioData two_stereo_frames baseline_context 24000 2 = Ok buf /\
      audioBufferToWav buf = Ok wav /\
      decodeAudioData (drop 44 (blob_bytes wav)) baseline_context 24000 2
      = Ok buf' /\
      numberOfChannels buf = 2%nat /\ numberOfChannels buf' = 2%nat /\
      (frames buf * (2 * 2))%nat = length two_stereo_frames /\
      frames buf' = frames buf /\
      forall c i, (c < 2)%nat -> (i < frames buf)%nat ->
        let k := int16_le (nth (2 * (i * 2 + c)) two_stereo_frames x00)
                          (nth (2 * (i * 2 + c) + 1) two_stereo_frames x00) in
        sample buf c i = Fin (k # 32768) /\
        sample buf' c i = Fin ((if 0 <? k then k - 1 else k) # 32768) /\
        within_lsb (sample buf c i) (sample buf' c i))).
Proof.
  assert (H1 : (0 < 2)%nat) by lia.
  assert (H2 : 0 < 24000) by lia.
  assert (Hs : supports baseline_context 2 24000 = true) by reflexivity.
  assert (H3 : Nat.divide (2 * 2) (length two_stereo_frames)) by (exists 2%nat; reflexivity).
  assert (H4 : Z.of_nat (length two_stereo_frames) < 4294967296 * Z.of_nat (2 * 2))
    by (vm_compute; reflexivity).
  split; [repeat split; assumption|].
  exact (roundtrip_within_one_lsb two_stereo_frames baseline_context 24000 2
           H1 H2 Hs H3 H4).
Defined.

(** C3, as stated, fails: three whole samples for two channels (six bytes,
    not a multiple of [2 * 2]) are decoded into a one-frame buffer; the
    trailing sample is dropped without an error. *)
Lemma decode_partial_frame_accepted :
  ~ Nat.divide (2 * 2) (length three_samples) /\
  decodeAudioData three_samples baseline_context 24000 2
  = Ok (mkAudioBuffer 24000 1 [[Fin (1 # 32768)]; [Fin (2 # 32768)]]).
Proof.
  split.
  - intros [z Hz]. cbn in Hz. lia.
  - vm_compute. reflexivity.
Qed.

(** C3, amended.  For every input byte sequence of odd length (a partial
    trailing sample) the decoder fails: the [Int16Array] view cannot be
    built and a RangeError is thrown; no AudioBuffer is produced. *)
Theorem decode_odd_length_fails
    (data : list byte) (ctx : AudioContext) (rate : Z) (ch : nat) :
  Nat.odd (length data) = true ->
  decodeAudioData data ctx rate ch = Throw RangeError.
Proof.
  intros Hodd. unfold decodeAudioData, Int16Array.
  rewrite <- Nat.negb_odd, Hodd. reflexivity.
Qed.

Lemma decode_odd_length_fails_witness :
  Nat.odd (length [x00; x00; xff]%byte) = true /\
  decodeAudioData [x00; x00; xff]%byte baseline_context 24000 1 = Throw RangeError.
Proof.
  split; [reflexivity|].
  apply (decode_odd_length_fails [x00; x00; xff]%byte baseline_context 24000 1).
  reflexivity.
Defined.

Lemma pcm16_quantize (q : Q) : pcm16 (Fin q) = quantize q.
Proof.
  destruct (pcm16_finite q) as (H1 & H2 & H3 & H4). unfold quantize.
  destruct (Qle_bool q (-1)) eqn:Elo.
  - apply Qle_bool_iff in Elo. rewrite H1 by exact Elo. reflexivity.
  - assert (Hlo : (-1 < q)%Q).
    { apply Qnot_le_lt. intros H. apply Qle_bool_iff in H. congruence. }
    destruct (Qle_bool 1 q) eqn:Ehi.
    + apply Qle_bool_iff in Ehi. rewrite H4 by exact Ehi. reflexivity.
    + assert (Hhi : (q < 1)%Q).
      { apply Qnot_le_lt. intros H. apply Qle_bool_iff in H. congruence. }
      destruct (Qltb q 0) eqn:Eneg.
      * apply H2; [exact Hlo|]. apply lt_Fin_true. exact Eneg.
      * apply H3; [|exact Hhi]. apply lt_Fin_false. exact Eneg.
Qed.

(** C4.  For every well-formed AudioBuffer [audioBufferToWav] returns a
    blob of exactly [44 + frameCount * channelCount * 2] bytes.  Its first
    44 bytes are the canonical header: "RIFF", the total size
    [36 + data length], "WAVE", the "fmt " sub-chunk of size 16 with PCM
    tag 1, the channel count, the sample rate, the byte rate
    [sampleRate * channelCount * 2], the block align [channelCount * 2]
    and 16 bits per sample, then "data" and the data length, every number
    little-endian in its 32- or 16-bit field (so read back modulo the
    width of the field).  The payload follows, frame
    by frame and channel by channel within a frame, two little-endian
    bytes per sample; a finite sample is clamped to [-1, 1], scaled by
    32768 if negative and by 32767 otherwise, and truncated, which always
    fits 16 bits. *)
Theorem wav_layout (b : AudioBuffer) :
  well_formed b ->
  exists out,
    audioBufferToWav b = Ok (mkBlob out "audio/wav") /\
    length out = (44 + frames b * numberOfChannels b * 2)%nat /\
    take 44 out
    = wav_header (Z.of_nat (numberOfChannels b)) (sampleRate b)
        (Z.of_nat (frames b * numberOfChannels b * 2)) /\
    header_fields out
    = [(36 + Z.of_nat (frames b * numberOfChannels b * 2)) mod 4294967296;
       16; 1; Z.of_nat (numberOfChannels b) mod 65536;
       sampleRate b mod 4294967296;
       (sampleRate b * Z.of_nat (numberOfChannels b) * 2) mod 4294967296;
       (Z.of_nat (numberOfChannels b) * 2) mod 65536; 16;
       Z.of_nat (frames b * numberOfChannels b * 2) mod 4294967296] /\
    drop 44 out
    = flat_map
        (fun i =>
           flat_map (fun c => le16 (pcm16 (sample b c i)))
             (seq 0 (numberOfChannels b)))
        (seq 0 (frames b)) /\
    (forall x, -32768 <= pcm16 x < 32768) /\
    (forall q, pcm16 (Fin q) = quantize q).
Proof.
  intros (_ & _ & _ & Hshape).
  eexists. split; [apply audioBufferToWav_bytes; exact Hshape|].
  set (hdr := wav_header _ _ _).
  assert (Hh : length hdr = 44%nat) by reflexivity.
  split; [|split; [|split; [|split; [|split]]]].
  - rewrite length_app, Hh, payload_length. lia.
  - rewrite <- Hh. apply take_app_length.
  - apply wav_header_fields.
  - rewrite <- Hh. apply drop_app_length.
  - apply pcm16_range.
  - apply pcm16_quantize.
Qed.

Lemma wav_layout_witness :
  well_formed stereo_pair /\
  exists out,
    audioBufferToWav stereo_pair = Ok (mkBlob out "audio/wav") /\
    length out = (44 + frames stereo_pair * numberOfChannels stereo_pair * 2)%nat /\
    take 44 out
    = wav_header (Z.of_nat (numberOfChannels stereo_pair)) (sampleRate stereo_pair)
        (Z.of_nat (frames stereo_pair * numberOfChannels stereo_pair * 2)) /\
    header_fields out
    = [(36 + Z.of_nat (frames stereo_pair * numberOfChannels stereo_pair * 2))
       mod 4294967296;
       16; 1; Z.of_nat (numberOfChannels stereo_pair) mod 65536;
       sampleRate stereo_pair mod 4294967296;
       (sampleRate stereo_pair * Z.of_nat (numberOfChannels stereo_pair) * 2)
       mod 4294967296;
       (Z.of_nat (numberOfChannels stereo_pair) * 2) mod 65536; 16;
       Z.of_nat (frames stereo_pair * numberOfChannels stereo_pair * 2)
       mod 4294967296] /\
    drop 44 out
    = flat_map
        (fun i =>
           flat_map (fun c => le16 (pcm16 (sample stereo_pair c i)))
             (seq 0 (numberOfChannels stereo_pair)))
        (seq 0 (frames stereo_pair)) /\
    (forall x, -32768 <= pcm16 x < 32768) /\
    (forall q, pcm16 (Fin q) = quantize q).
Proof.
  assert (Hwf : well_formed stereo_pair).
  { unfold well_formed, stereo_pair. cbn. repeat split; try lia. repeat constructor. }
  split; [exact Hwf|]. exact (wav_layout stereo_pair Hwf).
Defined.

(** C5.  On every valid PCM input (a whole number [n >= 1] of frames for
    the channel count, at a channel count and a rate that the context
    supports) the decoder returns a buffer of [n] frames whose
    sample at frame [i] of channel [c] is the little-endian signed 16-bit
    element at flat index [i * channelCount + c] divided by 32768.  The
    one-channel input [0x00, 0x00, 0xFF, 0x7F] decodes to the two samples
    0 and 32767/32768 = 0.999969..., so the positive peak stays below 1. *)
Theorem decode_normalizes
    (data : list byte) (ctx : AudioContext) (rate : Z) (ch n : nat) :
  (0 < ch)%nat -> 0 < rate -> supports ctx ch rate = true ->
  (0 < n)%nat -> Z.of_nat n < 4294967296 ->
  length data = (2 * (n * ch))%nat ->
  (exists buf,
     decodeAudioData data ctx rate ch = Ok buf /\
     frames buf = n /\ numberOfChannels buf = ch /\ sampleRate buf = rate /\
     forall c i, (c < ch)%nat -> (i < n)%nat ->
       sample buf c i
       = Fin (int16_le (nth (2 * (i * ch + c)) data x00)
                       (nth (2 * (i * ch + c) + 1) data x00) # 32768)) /\
  decodeAudioData [x00; x00; xff; x7f]%byte baseline_context 24000 1
  = Ok (mkAudioBuffer 24000 2 [[Fin (0 # 32768); Fin (32767 # 32768)]]) /\
  (0 # 32768 == 0)%Q /\
  (999969 # 1000000 < 32767 # 32768)%Q /\ (32767 # 32768 < 99997 # 100000)%Q /\
  (32767 # 32768 < 1)%Q.
Proof.
  intros Hch Hrate Hsup Hn Hbig Hlen. split.
  - eexists. split; [apply decodeAudioData_ok; eassumption|].
    unfold numberOfChannels, sample. cbn [channels frames sampleRate].
    rewrite decoded_channels_length. repeat split.
    intros c i Hc Hi. rewrite decoded_channels_sample by assumption.
    unfold decoded_sample. rewrite int16_elements_nth; [reflexivity|]. nia.
  - split; [vm_compute; reflexivity|]. repeat split.
Qed.

Lemma decode_normalizes_witness :
  ((0 < 1)%nat /\ 0 < 24000 /\ supports baseline_context 1 24000 = true /\
   (0 < 2)%nat /\ Z.of_nat 2 < 4294967296 /\
   length known_vector = (2 * (2 * 1))%nat) /\
  exists buf,
    decodeAudioData known_vector baseline_context 24000 1 = Ok buf /\
    frames buf = 2%nat /\ numberOfChannels buf = 1%nat /\
    sampleRate buf = 24000 /\
    forall c i, (c < 1)%nat -> (i < 2)%nat ->
      sample buf c i
      = Fin (int16_le (nth (2 * (i * 1 + c)) known_vector x00)
                      (nth (2 * (i * 1 + c) + 1) known_vector x00) # 32768).
Proof.
  assert (H1 : (0 < 1)%nat) by lia.
  assert (H2 : 0 < 24000) by lia.
  assert (H3 : (0 < 2)%nat) by lia.
  assert (H4 : Z.of_nat 2 < 4294967296) by (vm_compute; reflexivity).
  assert (H5 : length known_vector = (2 * (2 * 1))%nat) by reflexivity.
  assert (Hs : supports baseline_context 1 24000 = true) by reflexivity.
  split; [repeat split; assumption|].
  exact (proj1 (decode_normalizes known_vector baseline_context 24000 1 2
                  H1 H2 Hs H3 H4 H5)).
Defined.

(** C9.  On every well-formed AudioBuffer the encoder behind the ".mp3"
    download ([audioBufferToMp3]) and the WAV encoder ([audioBufferToWav])
    produce the same byte sequence, the RIFF/WAVE container; the blobs
    differ in their media-type label only. *)
Theorem mp3_bytes_are_wav_bytes (b : AudioBuffer) :
  well_formed b ->
  exists bytes,
    audioBufferToMp3 b = Ok (mkBlob bytes "audio/mpeg") /\
    audioBufferToWav b = Ok (mkBlob bytes "audio/wav") /\
    take 4 bytes = ["R"; "I"; "F"; "F"]%byte /\
    take 4 (drop 8 bytes) = ["W"; "A"; "V"; "E"]%byte.
Proof.
  intros (_ & _ & _ & Hshape).
  eexists. split; [apply audioBufferToMp3_bytes|].
  split; [apply audioBufferToWav_bytes; exact Hshape|].
  split; reflexivity.
Qed.

Lemma mp3_bytes_are_wav_bytes_witness :
  well_formed mono_triple /\
  exists bytes,
    audioBufferToMp3 mono_triple = Ok (mkBlob bytes "audio/mpeg") /\
    audioBufferToWav mono_triple = Ok (mkBlob bytes "audio/wav") /\
    take 4 bytes = ["R"; "I"; "F"; "F"]%byte /\
    take 4 (drop 8 bytes) = ["W"; "A"; "V"; "E"]%byte.
Proof.
  assert (Hwf : well_formed mono_triple).
  { unfold well_formed, mono_triple. cbn. repeat split; try lia. repeat constructor. }
  split; [exact Hwf|]. exact (mp3_bytes_are_wav_bytes mono_triple Hwf).
Defined.

(** * Transport claims *)

(** Binary64 arithmetic on values whose bit patterns are well known: 0.1 is
    0x3FB999999999999A and 1/3 is 0x3FD5555555555555; 2^53 + 1 lies half
    way between two neighbours and goes to the even one; half of the
    least subnormal goes to zero and 2^1024 to infinity; 0.1 + 0.2 is
    0.30000000000000004 (0x3FD3333333333334); the non-finite cases follow
    IEEE 754. *)
Example binary64_known_values :
  Binary64.round (1 # 10) = SpecFloat.S754_finite false 7205759403792794 (-56) /\
  Binary64.round (1 # 3) = SpecFloat.S754_finite false 6004799503160661 (-54) /\
  Binary64.round (-3 # 4) = SpecFloat.S754_finite true 6755399441055744 (-53) /\
  Binary64.round (inject_Z (2 ^ 53 + 1))
  = SpecFloat.S754_finite false 4503599627370496 1 /\
  Binary64.round (1 # 2 ^ 1075) = SpecFloat.S754_zero false /\
  Binary64.round (3 # 2 ^ 1075) = SpecFloat.S754_finite false 2 (-1074) /\
  Binary64.round (inject_Z (2 ^ 1024)) = SpecFloat.S754_infinity false /\
  Binary64.to_float (Binary64.add (Fin (1 # 10)) (Fin (2 # 10)))
  = SpecFloat.S754_finite false 5404319552844596 (-54) /\
  Binary64.add (Fin (1 # 10)) (Fin (2 # 10))
  = Fin (1351079888211149 # 4503599627370496) /\
  Binary64.mul (Fin (3 # 2)) (Fin (1 # 2)) = Fin (3 # 4) /\
  Binary64.div (Fin 1) (Fin 0) = PInf /\
  Binary64.div (Fin 0) (Fin 0) = NaN /\
  Binary64.sub PInf PInf = NaN /\
  Binary64.mul (Fin 0) NInf = NaN.
Proof. repeat split; vm_compute; reflexivity. Qed.


Lemma ge_Fin_false (a b : Q) : ge (Fin a) (Fin b) = false <-> (a < b)%Q.
Proof.
  unfold ge. rewrite negb_false_iff. apply lt_Fin_true.
Qed.

(** Run the record projections and setters, leaving comparisons and
    rational arithmetic as they stand. *)
Ltac step_state :=
  cbn -[ge lt buffer_duration Qplus Qminus Qmult Qopp].

(** [play] in a state that holds a buffer, a context and a gain stage, at
    a finite rate and a non-negative offset. *)
Lemma play_starts (s : State) (b : AudioBuffer) (o r : Q) (now : number) :
  audioBuffer s = Some b -> audioContextRef s = true ->
  is_Some (gainNodeRef s) ->
  startOffsetRef s = Fin o -> playbackRate s = Fin r ->
  (0 <= o)%Q \/ (buffer_duration b <= o)%Q ->
  let offset := if ge (Fin o) (Fin (buffer_duration b)) then Fin 0 else Fin o in
  play now s
  = mkState (Some b) true (currentTime s) (duration s) (volume s)
      (lastVolume s) (Fin r) true
      (Some (mkSourceNode b (Fin r) [] offset (Some (mkEndedHandler b (Fin r)))))
      (gainNodeRef s) (previewAudioSourceRef s)
      (Some (mkFrameCallback (isPlaying s) (Fin r)))
      now (Fin o).
Proof.
  intros Hb Hc [g Hg] Ho Hr Hpos. cbv zeta.
  destruct s. cbn in Hb, Hc, Hg, Ho, Hr. subst.
  unfold play, play_closure, stopPlayback.
  cbn -[ge lt buffer_duration].
  destruct (ge (Fin o) (Fin (buffer_duration b))) eqn:E;
    cbn -[ge lt buffer_duration]; [reflexivity|].
  apply ge_Fin_false in E.
  destruct Hpos as [Hpos|Hpos]; [|exfalso; eapply Qlt_not_le; eassumption].
  apply lt_Fin_false in Hpos. rewrite Hpos. reflexivity.
Qed.



(** C6 on the code.  The seek slider of the loaded tenth-of-a-second
    player is dragged to its end, which puts [startOffsetSeconds] at the
    duration 0.1.  [play] at clock reading 0 begins the segment at offset 0
    (the wraparound of C7) and leaves [startOffsetSeconds] at 0.1.  The
    [pause] at clock reading 0.02, at rate 1, stores 0.1 + 0.02 * 1 = 0.12;
    C6 requires the offset of the segment plus the elapsed time,
    0 + 0.02 * 1 = 0.02.  The next [play] finds 0.12 past the duration and
    starts at 0 again instead of resuming at 0.02. *)
Lemma pause_after_wrapped_play :
  startOffsetRef seeked_to_end = Fin (1 # 10) /\
  (buffer_duration tenth_second == 1 # 10)%Q /\
  src_offset <$> audioSourceRef (step seeked_to_end (TogglePlayPause (Fin 0)))
  = Some (Fin 0) /\
  startOffsetRef
    (run seeked_to_end [TogglePlayPause (Fin 0); TogglePlayPause (Fin (1 # 50))])
  = Fin ((1 # 10) + ((1 # 50) - 0) * 1) /\
  ~ ((1 # 10) + ((1 # 50) - 0) * 1 == 0 + (1 # 50) * 1)%Q /\
  src_offset
    <$> audioSourceRef
          (run seeked_to_end
             [TogglePlayPause (Fin 0); TogglePlayPause (Fin (1 # 50));
              TogglePlayPause (Fin 1)])
  = Some (Fin 0) /\
  ~ (0 == 0 + (1 # 50) * 1)%Q.
Proof.
  repeat split; try reflexivity; vm_compute; discriminate.
Qed.

(** Segments begun inside the buffer.  Let [play] begin a segment at clock
    reading [t0] in a state whose [startOffsetSeconds] is [o] and whose
    playback rate is [r].  A [pause] at clock reading [t0 + delta] sets
    [startOffsetSeconds] to [o + delta * r], which differs from [o + delta]
    as soon as [r] is not 1 and [delta] is not 0, stops the source and
    clears [isPlaying]; the next [play] starts its source at that very
    offset when it lies inside the buffer. *)
Lemma pause_adds_rate_scaled_elapsed
    (s : State) (b : AudioBuffer) (o t0 delta r : Q) :
  audioBuffer s = Some b -> audioContextRef s = true ->
  is_Some (gainNodeRef s) ->
  startOffsetRef s = Fin o -> playbackRate s = Fin r -> (0 <= o)%Q ->
  let playing := play (Fin t0) s in
  let paused := pause (Fin (t0 + delta)) playing in
  isPlaying playing = true /\
  isPlaying paused = false /\ audioSourceRef paused = None /\
  exists q,
    startOffsetRef paused = Fin q /\ (q == o + delta * r)%Q /\
    (~ (r == 1)%Q -> ~ (delta == 0)%Q -> ~ (q == o + delta)%Q) /\
    forall t2, (0 <= q)%Q -> (q < buffer_duration b)%Q ->
      src_offset <$> audioSourceRef (play (Fin t2) paused) = Some (Fin q).
Proof.
  intros Hb Hc Hg Ho Hr Hpos playing paused.
  assert (Hplay := play_starts s b o r (Fin t0) Hb Hc Hg Ho Hr (or_introl Hpos)).
  cbv zeta in Hplay. subst paused playing. rewrite Hplay.
  unfold pause, stopPlayback. cbn -[ge lt buffer_duration play Qplus Qminus Qmult].
  split; [reflexivity|]. split; [reflexivity|]. split; [reflexivity|].
  eexists. split; [reflexivity|].
  assert (Heq : (o + (t0 + delta - t0) * r == o + delta * r)%Q) by ring.
  split; [exact Heq|]. split.
  - intros Hr1 Hd0 Hbad. rewrite Heq in Hbad.
    assert (Hz : (delta * (r - 1) == 0)%Q).
    { transitivity ((o + delta * r) - (o + delta))%Q; [ring|].
      rewrite Hbad. ring. }
    apply Qmult_integral in Hz as [Hz|Hz]; [exact (Hd0 Hz)|].
    apply Hr1. transitivity ((r - 1) + 1)%Q; [ring|].
    rewrite Hz. reflexivity.
  - intros t2 Hq0 Hqd. unfold play, play_closure, stopPlayback.
    destruct Hg as [g Hg]. step_state. rewrite Hg. step_state.
    apply ge_Fin_false in Hqd. rewrite Hqd.
    apply lt_Fin_false in Hq0. step_state.
    rewrite Hq0. reflexivity.
Qed.

Example pause_adds_rate_scaled_elapsed_at_rate_3_2 :
  (audioBuffer loaded_fast = Some tenth_second /\
   audioContextRef loaded_fast = true /\
   is_Some (gainNodeRef loaded_fast) /\
   startOffsetRef loaded_fast = Fin 0 /\
   playbackRate loaded_fast = Fin (3 # 2) /\
   (0 <= 0)%Q) /\
  isPlaying (play (Fin 3) loaded_fast) = true /\
  isPlaying (pause (Fin (3 + (1 # 50))) (play (Fin 3) loaded_fast)) = false /\
  audioSourceRef (pause (Fin (3 + (1 # 50))) (play (Fin 3) loaded_fast)) = None /\
  exists q,
    startOffsetRef (pause (Fin (3 + (1 # 50))) (play (Fin 3) loaded_fast)) = Fin q /\
    (q == 0 + (1 # 50) * (3 # 2))%Q /\
    (~ ((3 # 2) == 1)%Q -> ~ ((1 # 50) == 0)%Q -> ~ (q == 0 + (1 # 50))%Q) /\
    forall t2, (0 <= q)%Q -> (q < buffer_duration tenth_second)%Q ->
      src_offset
        <$> audioSourceRef
              (play (Fin t2)
                 (pause (Fin (3 + (1 # 50))) (play (Fin 3) loaded_fast)))
      = Some (Fin q).
Proof.
  assert (H1 : audioBuffer loaded_fast = Some tenth_second) by reflexivity.
  assert (H2 : audioContextRef loaded_fast = true) by reflexivity.
  assert (H3 : is_Some (gainNodeRef loaded_fast)) by (eexists; reflexivity).
  assert (H4 : startOffsetRef loaded_fast = Fin 0) by reflexivity.
  assert (H5 : playbackRate loaded_fast = Fin (3 # 2)) by reflexivity.
  assert (H6 : (0 <= 0)%Q) by (vm_compute; discriminate).
  split; [repeat split; assumption|].
  exact (pause_adds_rate_scaled_elapsed loaded_fast tenth_second 0 3 (1 # 50)
           (3 # 2) H1 H2 H3 H4 H5 H6).
Qed.

(** The threshold of the [ended] handler for the tenth-of-a-second buffer:
    the binary64 values of 0.1 and 0.01 and their binary64 difference,
    0.09000000000000001, which lies above 0.09. *)
Example ended_threshold_tenth_second :
  duration64 tenth_second = Fin (3602879701896397 # 36028797018963968) /\
  Binary64.literal (1 # 100) = Fin (5764607523034235 # 576460752303423488) /\
  ended_threshold tenth_second = Fin (6485183463413515 # 72057594037927936) /\
  (9 # 100 < 6485183463413515 # 72057594037927936)%Q /\
  Binary64.literal (9 # 100) = Fin (3242591731706757 # 36028797018963968) /\
  (3242591731706757 # 36028797018963968
   < 6485183463413515 # 72057594037927936)%Q.
Proof. repeat split; vm_compute; reflexivity. Qed.

(** C8, as stated, fails.  A segment of the tenth-of-a-second buffer is
    begun at clock reading 0 and its [ended] event is delivered at clock
    reading 0.15.  The recomputed offset 0.15 is not within 0.01 of the
    duration 0.1, yet the handler does not retain it: it resets
    [startOffsetSeconds] to 0 and shows the full duration. *)
Lemma ended_delivered_late_resets :
  (startOffsetRef playing_from_start = Fin 0 /\
   playbackStartTimeRef playing_from_start = Fin 0 /\
   playbackRate playing_from_start = Fin 1 /\
   ended_offset (Fin 0) (Fin 0) (Fin (3 # 20)) (Fin 1)
   = Fin (5404319552844595 # 36028797018963968) /\
   ~ (Qabs ((5404319552844595 # 36028797018963968)
            - buffer_duration tenth_second)
      <= 1 # 100)%Q) /\
  startOffsetRef (step playing_from_start (Ended (Fin (3 # 20)))) = Fin 0 /\
  currentTime (step playing_from_start (Ended (Fin (3 # 20))))
  = duration64 tenth_second.
Proof.
  repeat split; try (vm_compute; reflexivity).
  vm_compute. intros H. apply H. reflexivity.
Qed.

(** C8, amended.  When the bound source signals the completion of a segment
    played at one rate, the handler recomputes the offset as
    [startOffsetSeconds + (now - segment start) * rate].  If that offset is
    at least the buffer duration minus 0.01 s (up to 0.01 s short of the
    end, or anywhere past it), [startOffsetSeconds] is reset to 0 and the
    displayed position is set to the full duration; otherwise the computed
    offset is retained and the displayed position is left alone.  In both
    cases [isPlaying] becomes false.  The sums, the product and the
    comparison are those of binary64 arithmetic. *)
Theorem ended_resets_from_threshold
    (s : State) (src : SourceNode) (h : EndedHandler) (now : number) :
  audioContextRef s = true ->
  audioSourceRef s = Some src -> src_onended src = Some h ->
  h_playbackRate h = playbackRate s ->
  let newOffset :=
    ended_offset (startOffsetRef s) (playbackStartTimeRef s) now
      (playbackRate s) in
  let at_end := ge newOffset (ended_threshold (h_audioBuffer h)) in
  let s' := step s (Ended now) in
  isPlaying s' = false /\
  startOffsetRef s' = (if at_end then Fin 0 else newOffset) /\
  currentTime s'
  = (if at_end then duration64 (h_audioBuffer h) else currentTime s).
Proof.
  intros Hc Hsrc Hh Hr newOffset at_end s'.
  subst s'. cbn [step]. rewrite Hsrc, Hh. unfold onended.
  rewrite Hc, Hr.
  fold (ended_offset (startOffsetRef s) (playbackStartTimeRef s) now
          (playbackRate s)).
  fold (ended_threshold (h_audioBuffer h)).
  fold newOffset. fold at_end.
  destruct at_end; repeat split.
Qed.

Lemma ended_resets_from_threshold_witness :
  (audioContextRef playing_from_start = true /\
   audioSourceRef playing_from_start
   = Some (mkSourceNode tenth_second (Fin 1) [] (Fin 0)
             (Some (mkEndedHandler tenth_second (Fin 1)))) /\
   playbackRate playing_from_start = Fin 1) /\
  (ge (ended_offset (Fin 0) (Fin 0) (Fin (19 # 200)) (Fin 1))
      (ended_threshold tenth_second) = true /\
   isPlaying (step playing_from_start (Ended (Fin (19 # 200)))) = false /\
   startOffsetRef (step playing_from_start (Ended (Fin (19 # 200)))) = Fin 0 /\
   currentTime (step playing_from_start (Ended (Fin (19 # 200))))
   = duration64 tenth_second) /\
  (ge (ended_offset (Fin 0) (Fin 0) (Fin (9 # 100)) (Fin 1))
      (ended_threshold tenth_second) = false /\
   isPlaying (step playing_from_start (Ended (Fin (9 # 100)))) = false /\
   startOffsetRef (step playing_from_start (Ended (Fin (9 # 100))))
   = Binary64.literal (9 # 100) /\
   currentTime (step playing_from_start (Ended (Fin (9 # 100))))
   = currentTime playing_from_start).
Proof.
  assert (H1 : audioContextRef playing_from_start = true) by reflexivity.
  assert (H2 : audioSourceRef playing_from_start
               = Some (mkSourceNode tenth_second (Fin 1) [] (Fin 0)
                         (Some (mkEndedHandler tenth_second (Fin 1)))))
    by reflexivity.
  assert (H3 : playbackRate playing_from_start = Fin 1) by reflexivity.
  assert (E1 : ge (ended_offset (Fin 0) (Fin 0) (Fin (19 # 200)) (Fin 1))
                 (ended_threshold tenth_second) = true)
    by (vm_compute; reflexivity).
  assert (E2 : ge (ended_offset (Fin 0) (Fin 0) (Fin (9 # 100)) (Fin 1))
                 (ended_threshold tenth_second) = false)
    by (vm_compute; reflexivity).
  assert (E3 : ended_offset (Fin 0) (Fin 0) (Fin (9 # 100)) (Fin 1)
               = Binary64.literal (9 # 100))
    by (vm_compute; reflexivity).
  split; [repeat split; assumption|].
  pose proof (ended_resets_from_threshold playing_from_start _
                (mkEndedHandler tenth_second (Fin 1)) (Fin (19 # 200))
                H1 H2 eq_refl eq_refl) as (A1 & A2 & A3).
  pose proof (ended_resets_from_threshold playing_from_start _
                (mkEndedHandler tenth_second (Fin 1)) (Fin (9 # 100))
                H1 H2 eq_refl eq_refl) as (B1 & B2 & B3).
  change (startOffsetRef playing_from_start) with (Fin 0) in A2, A3, B2, B3.
  change (playbackStartTimeRef playing_from_start) with (Fin 0) in A2, A3, B2, B3.
  change (playbackRate playing_from_start) with (Fin 1) in A2, A3, B2, B3.
  cbn [h_audioBuffer] in A2, A3, B2, B3.
  rewrite E1 in A2, A3. rewrite E2 in B2, B3. rewrite E3 in B2.
  split; [split; [exact E1|]|split; [exact E2|]]; repeat split; assumption.
Defined.

(** What [pause] stores after one speed change in the segment: the whole
    wall-clock length of the segment times the latest rate. *)
Lemma pause_after_speed_change
    (s : State) (b : AudioBuffer) (o t0 t1 t2 r1 r2 : Q) :
  audioBuffer s = Some b -> audioContextRef s = true ->
  is_Some (gainNodeRef s) ->
  startOffsetRef s = Fin o -> playbackRate s = Fin r1 -> (0 <= o)%Q ->
  startOffsetRef
    (pause (Fin t2) (handleSpeedChange (Fin r2) (Fin t1) (play (Fin t0) s)))
  = Fin (o + (t2 - t0) * r2).
Proof.
  intros Hb Hc Hg Ho Hr Hpos.
  assert (Hplay := play_starts s b o r1 (Fin t0) Hb Hc Hg Ho Hr (or_introl Hpos)).
  cbv zeta in Hplay. rewrite Hplay. reflexivity.
Qed.

(** C2 on the code.  The tenth-of-a-second buffer is played from offset 0
    at rate 1 from clock reading 0; at 0.01 the rate is set to 2; at 0.03
    the player is paused.  The source has been told to change rate at 0.01,
    so 0.01 * 1 + 0.02 * 2 = 0.05 s of audio were played, which is the
    offset C2 requires; [pause] stores 0.03 * 2 = 0.06. *)
Lemma speed_change_rescales_elapsed_time :
  (src_rate_schedule
     <$> audioSourceRef (run initial (take 3 speed_change_trace))
   = Some [(Fin 2, Fin (1 # 100))]) /\
  startOffsetRef (run initial speed_change_trace)
  = Fin (0 + ((3 # 100) - 0) * 2) /\
  (0 + ((3 # 100) - 0) * 2 == 6 # 100)%Q /\
  (accumulated 0 [((1 # 100) - 0, 1); ((3 # 100) - (1 # 100), 2)] == 5 # 100)%Q /\
  ~ (0 + ((3 # 100) - 0) * 2
     == accumulated 0 [((1 # 100) - 0, 1); ((3 # 100) - (1 # 100), 2)])%Q.
Proof.
  repeat split; try reflexivity. vm_compute. discriminate.
Qed.

(** ** The stored pre-mute volume *)

Lemma stopPlayback_volumes w s :
  volume (stopPlayback w s) = volume s /\
  lastVolume (stopPlayback w s) = lastVolume s.
Proof. destruct w; split; reflexivity. Qed.

Lemma play_closure_lastVolume buf rate cb now s :
  lastVolume (play_closure buf rate cb now s) = lastVolume s.
Proof.
  unfold play_closure. repeat case_match; reflexivity.
Qed.

Lemma volume_effect_volumes before s :
  volume (volume_effect before s) = volume s /\
  lastVolume (volume_effect before s) = lastVolume s.
Proof.
  unfold volume_effect. repeat case_match; split; reflexivity.
Qed.

Lemma step_lastVolume (s : State) (e : event) :
  audible (lastVolume s) -> audible (lastVolume (step s e)).
Proof.
  intros Hpos. destruct e; cbn [step].
  - unfold handleTogglePlayPause, pause, play.
    case_match; [case_match; exact Hpos|].
    rewrite play_closure_lastVolume. exact Hpos.
  - unfold handleToggleMute.
    rewrite (proj2 (volume_effect_volumes _ _)).
    destruct (gt (volume s) (Fin 0)) eqn:E; [exact E|exact Hpos].
  - unfold handleVolumeChange.
    rewrite (proj2 (volume_effect_volumes _ _)). cbn -[gt].
    destruct (gt newVolume (Fin 0)) eqn:E; [exact E|exact Hpos].
  - unfold handleSpeedChange. repeat case_match; exact Hpos.
  - unfold handleSeek. case_match; [|exact Hpos].
    rewrite play_closure_lastVolume. exact Hpos.
  - repeat case_match; try exact Hpos.
    unfold onended. repeat case_match; exact Hpos.
  - case_match; [|exact Hpos].
    unfold updateProgress. case_match; exact Hpos.
  - exact Hpos.
  - unfold handleGenerateAudio. rewrite play_closure_lastVolume.
    unfold setupAudioContext. cbn. case_match; exact Hpos.
  - unfold handlePreviewVoice, setupAudioContext. cbn.
    repeat case_match; exact Hpos.
Qed.

(** C10.  In every state the player can reach, the stored pre-mute volume
    [lastVolume] is strictly positive: it starts at 1, [handleToggleMute]
    overwrites it only with a positive volume, [handleVolumeChange] keeps
    the old value when the new volume is not positive, and no other handler
    writes it.  Hence a mute toggle pressed while the volume is not
    positive (0 in particular) leaves the player with a strictly positive
    volume, the stored one. *)
Theorem lastVolume_stays_positive (s : State) :
  reachable s ->
  audible (lastVolume s) /\
  (gt (volume s) (Fin 0) = false ->
   volume (handleToggleMute s) = lastVolume s /\
   audible (volume (handleToggleMute s))).
Proof.
  intros Hreach.
  assert (Hpos : audible (lastVolume s)).
  { induction Hreach as [|s e _ IH]; [reflexivity|].
    apply step_lastVolume. exact IH. }
  split; [exact Hpos|]. intros Hmuted.
  unfold handleToggleMute. rewrite (proj1 (volume_effect_volumes _ _)).
  rewrite Hmuted. cbn -[gt]. unfold audible in *. rewrite Hpos.
  split; [reflexivity|exact Hpos].
Qed.

Lemma lastVolume_stays_positive_witness :
  reachable dragged_to_zero /\
  audible (lastVolume dragged_to_zero) /\
  (gt (volume dragged_to_zero) (Fin 0) = false ->
   volume (handleToggleMute dragged_to_zero) = lastVolume dragged_to_zero /\
   audible (volume (handleToggleMute dragged_to_zero))).
Proof.
  assert (H : reachable dragged_to_zero).
  { unfold dragged_to_zero, loaded.
    apply reachable_step, reachable_step, reachable_step, reachable_initial. }
  split; [exact H|]. exact (lastVolume_stays_positive dragged_to_zero H).
Defined.

Example unmute_restores_dragged_volume :
  volume dragged_to_zero = Fin 0 /\
  volume (step dragged_to_zero ToggleMute) = Fin (2 # 5) /\
  gainNodeRef (step dragged_to_zero ToggleMute) = Some (mkGainNode (Fin (2 # 5))).
Proof. repeat split. Qed.

(** * Further properties of the decoder *)

Lemma truncate_quotient (a b : Z) :
  0 <= a -> 0 < b -> truncate (inject_Z a / inject_Z b) = a / b.
Proof.
  intros Ha Hb. unfold truncate.
  destruct (quotient_parts a b Hb) as [-> ->].
  apply Z.quot_div_nonneg; lia.
Qed.

Lemma ceiling_quotient (a b : Z) :
  0 <= a -> 0 < b -> a / b <= ceiling (inject_Z a / inject_Z b).
Proof.
  intros Ha Hb. unfold ceiling.
  destruct (quotient_parts a b Hb) as [-> ->].
  pose proof (Z.div_mod a b ltac:(lia)) as Ha'.
  pose proof (Z.mod_pos_bound a b Hb) as Hm.
  pose proof (Z.div_mod (- a) b ltac:(lia)) as Hn.
  pose proof (Z.mod_pos_bound (- a) b Hb) as Hmn.
  nia.
Qed.

Lemma frameCount_quotient (m ch : nat) :
  (0 < ch)%nat ->
  div (of_nat m) (of_nat ch)
  = Fin (inject_Z (Z.of_nat m) / inject_Z (Z.of_nat ch)).
Proof.
  intros Hch. unfold div, of_nat, of_Z.
  rewrite sign_positive by lia. reflexivity.
Qed.

Lemma fill_channel_whole ks ch c n r :
  (n <= r)%nat -> (c < ch)%nat -> (n * ch <= length ks)%nat ->
  fill_channel ks ch c r (replicate n (Fin 0))
  = map (decoded_sample ks ch c) (seq 0 n).
Proof.
  intros Hr Hc Hks. apply list_eq. intros i.
  destruct (decide (i < n)%nat) as [Hi|Hi].
  - rewrite fill_channel_lookup by (rewrite length_replicate; lia).
    destruct (Nat.ltb_spec i r); [|lia].
    rewrite list_lookup_fmap, lookup_seq_lt by lia. cbn.
    rewrite typed_get_nth by nia.
    rewrite div_32768. reflexivity.
  - rewrite !lookup_ge_None_2; [reflexivity| |].
    + rewrite length_map, length_seq. lia.
    + rewrite fill_channel_length, length_replicate. lia.
Qed.

Lemma decode_loop_whole ks rate ch n r (c : nat) :
  (c <= ch)%nat -> (n <= r)%nat -> (n * ch <= length ks)%nat ->
  for_range c
    (fun channel b =>
       let* channelData := getChannelData b channel in
       Ok (mkAudioBuffer (sampleRate b) (frames b)
             (<[ channel := fill_channel ks ch channel r channelData ]>
                (channels b))))
    (mkAudioBuffer rate n (replicate ch (replicate n (Fin 0))))
  = Ok (mkAudioBuffer rate n
          (map (fun c => map (decoded_sample ks ch c) (seq 0 n)) (seq 0 c)
           ++ replicate (ch - c) (replicate n (Fin 0)))).
Proof.
  intros Hc Hr Hks. induction c as [|c IH].
  - rewrite for_range_0, Nat.sub_0_r. reflexivity.
  - rewrite for_range_S, IH by lia. cbn [bind].
    destruct (ch - c)%nat as [|m] eqn:Em; [lia|].
    assert (ch - S c = m)%nat as -> by lia.
    set (done := map _ (seq 0 c)).
    assert (Hlen : length done = c)
      by (subst done; rewrite length_map, length_seq; reflexivity).
    unfold getChannelData. cbn [channels sampleRate frames replicate].
    rewrite lookup_app_r by lia. rewrite Hlen, Nat.sub_diag.
    cbn [lookup list_lookup bind].
    rewrite insert_app_r_alt by lia. rewrite Hlen, Nat.sub_diag.
    cbn [insert list_insert].
    rewrite fill_channel_whole by (assumption || lia).
    subst done. rewrite seq_S, map_app. cbn [map Nat.add].
    rewrite <- app_assoc. reflexivity.
Qed.

Lemma even_div2 (n : nat) : Nat.even n = true -> n = (2 * Nat.div2 n)%nat.
Proof.
  intros H. pose proof (Nat.div2_odd n) as Hd.
  rewrite <- Nat.negb_even, H in Hd. cbn in Hd. lia.
Qed.

(** The decoder in closed form, for inputs below 8 GiB. *)
Lemma decodeAudioData_closed_form
    (data : list byte) (ctx : AudioContext) (rate : Z) (ch : nat) :
  Z.of_nat (length data) < 8589934592 ->
  decodeAudioData data ctx rate ch
  = if Nat.odd (length data) then Throw RangeError
    else if (ch =? 0)%nat || (rate <=? 0) || (sample_count data <? ch)%nat
            || negb (supports ctx ch rate)
         then Throw NotSupportedError
         else Ok (mkAudioBuffer rate (whole_frames data ch)
                    (decoded_channels (int16_elements data) ch
                       (whole_frames data ch))).
Proof.
  intros Hbig. unfold decodeAudioData, Int16Array.
  rewrite <- Nat.negb_odd.
  destruct (Nat.odd (length data)) eqn:Hodd; [reflexivity|]. cbn [negb bind].
  assert (Heven : Nat.even (length data) = true)
    by (rewrite <- Nat.negb_odd, Hodd; reflexivity).
  pose proof (even_div2 _ Heven) as Hlen.
  rewrite int16_elements_length. fold (sample_count data).
  destruct (Nat.eqb_spec ch 0) as [->|Hch].
  { unfold createBuffer. reflexivity. }
  cbn [orb].
  rewrite frameCount_quotient by lia.
  unfold createBuffer, ToUint32, rounds_below.
  rewrite truncate_quotient by lia.
  pose proof (ceiling_quotient (Z.of_nat (sample_count data)) (Z.of_nat ch)
                ltac:(lia) ltac:(lia)) as Hceil.
  set (r := ceiling _) in *.
  assert (Hq : Z.of_nat (sample_count data) / Z.of_nat ch
               = Z.of_nat (whole_frames data ch)).
  { unfold whole_frames. rewrite Nat2Z.inj_div. reflexivity. }
  rewrite Hq in *.
  assert (Hfr : (whole_frames data ch * ch <= sample_count data)%nat).
  { unfold whole_frames. rewrite Nat.mul_comm. apply Nat.Div0.mul_div_le. }
  assert (Hsmall : Z.of_nat (whole_frames data ch) < 4294967296).
  { unfold sample_count in *. nia. }
  rewrite Z.mod_small by lia. rewrite Nat2Z.id.
  destruct (Nat.eqb_spec ch 0); [lia|]. cbn [orb].
  destruct (Nat.ltb_spec (sample_count data) ch) as [Hfew|Hmany].
  - assert (whole_frames data ch = 0%nat) as ->
      by (unfold whole_frames; apply Nat.div_small; exact Hfew).
    cbn [Nat.eqb orb]. rewrite orb_true_r. reflexivity.
  - assert (Hpos : (0 < whole_frames data ch)%nat).
    { unfold whole_frames. apply Nat.div_str_pos. lia. }
    destruct (Nat.eqb_spec (whole_frames data ch) 0); [lia|].
    rewrite orb_false_r. cbn [orb].
    destruct (Z.leb_spec rate 0); [reflexivity|]. cbn [orb].
    destruct (supports ctx ch rate); [|reflexivity]. cbn [negb bind].
    rewrite decode_loop_whole.
    + rewrite Nat.sub_diag. cbn [replicate]. rewrite app_nil_r. reflexivity.
    + lia.
    + lia.
    + rewrite int16_elements_length. exact Hfr.
Qed.

(** X1.  The decoder in closed form on every input below 8 GiB.  An odd
    byte length throws a RangeError.  Otherwise a zero channel count, a
    non-positive rate, fewer samples than channels (no whole frame, the
    empty input included), or a channel count or rate that the context
    does not support throws a NotSupportedError.  In every other case
    the result is the buffer of the whole frames: [samples / channels]
    frames, the sample of channel [c] at frame [i] being the int16 element
    [i * channels + c] over 32768. *)
Theorem decodeAudioData_cases
    (data : list byte) (ctx : AudioContext) (rate : Z) (ch : nat) :
  Z.of_nat (length data) < 8589934592 ->
  decodeAudioData data ctx rate ch
  = if Nat.odd (length data) then Throw RangeError
    else if (ch =? 0)%nat || (rate <=? 0) || (sample_count data <? ch)%nat
            || negb (supports ctx ch rate)
         then Throw NotSupportedError
         else Ok (mkAudioBuffer rate (whole_frames data ch)
                    (decoded_channels (int16_elements data) ch
                       (whole_frames data ch))).
Proof.
  exact (decodeAudioData_closed_form data ctx rate ch).
Qed.

Lemma decodeAudioData_cases_witness :
  Z.of_nat (length short_tone) < 8589934592 /\
  decodeAudioData short_tone baseline_context 24000 2
  = if Nat.odd (length short_tone) then Throw RangeError
    else if (2 =? 0)%nat || (24000 <=? 0) || (sample_count short_tone <? 2)%nat
            || negb (supports baseline_context 2 24000)
         then Throw NotSupportedError
         else Ok (mkAudioBuffer 24000 (whole_frames short_tone 2)
                    (decoded_channels (int16_elements short_tone) 2
                       (whole_frames short_tone 2))).
Proof.
  assert (H : Z.of_nat (length short_tone) < 8589934592)
    by (vm_compute; reflexivity).
  split; [exact H|].
  exact (decodeAudioData_cases short_tone baseline_context 24000 2 H).
Defined.

Lemma int16_elements_app (a b : list byte) :
  Nat.even (length a) = true ->
  int16_elements (a ++ b) = int16_elements a ++ int16_elements b.
Proof.
  induction a as [|x|lo hi rest IH] using list_pair_ind; intros Ha.
  - reflexivity.
  - discriminate.
  - cbn [app int16_elements]. f_equal. apply IH. exact Ha.
Qed.

Lemma decoded_channels_ext ks ks' ch n :
  (forall j, (j < n * ch)%nat -> nth j ks 0 = nth j ks' 0) ->
  decoded_channels ks ch n = decoded_channels ks' ch n.
Proof.
  intros H. unfold decoded_channels.
  apply list_eq. intros c.
  rewrite !list_lookup_fmap.
  destruct (seq 0 ch !! c) as [c'|] eqn:Ec; [|reflexivity]. cbn.
  apply lookup_seq in Ec as [-> Hc]. f_equal.
  apply list_eq. intros i. rewrite !list_lookup_fmap.
  destruct (seq 0 n !! i) as [i'|] eqn:Ei; [|reflexivity]. cbn.
  apply lookup_seq in Ei as [-> Hi]. f_equal.
  unfold decoded_sample. rewrite H by nia. reflexivity.
Qed.

(** X2.  Bytes after the last whole frame do not reach the buffer: an
    input of [n >= 1] whole frames followed by a whole number of samples
    that do not fill a frame decodes to the same buffer as the [n] frames
    alone.  Nothing reports the dropped samples. *)
Theorem decode_ignores_partial_frame
    (data extra : list byte) (ctx : AudioContext) (rate : Z) (ch n : nat) :
  (0 < n)%nat -> length data = (2 * (n * ch))%nat ->
  Nat.even (length extra) = true -> (sample_count extra < ch)%nat ->
  Z.of_nat (length (data ++ extra)) < 8589934592 ->
  decodeAudioData (data ++ extra) ctx rate ch = decodeAudioData data ctx rate ch.
Proof.
  intros Hn Hlen Heven Hfew Hbig.
  assert (Hbig' : Z.of_nat (length data) < 8589934592)
    by (rewrite length_app in Hbig; lia).
  rewrite !decodeAudioData_closed_form by assumption.
  assert (Hd : Nat.even (length data) = true)
    by (rewrite Hlen; apply even_length_double).
  assert (Hodd1 : Nat.odd (length (data ++ extra)) = false).
  { rewrite <- Nat.negb_even, length_app, Nat.even_add, Hd, Heven. reflexivity. }
  assert (Hodd2 : Nat.odd (length data) = false)
    by (rewrite <- Nat.negb_even, Hd; reflexivity).
  rewrite Hodd1, Hodd2.
  assert (Hs : sample_count data = (n * ch)%nat)
    by (unfold sample_count; rewrite Hlen; apply Nat.div2_double).
  assert (Hs' : sample_count (data ++ extra) = (n * ch + sample_count extra)%nat).
  { unfold sample_count. rewrite length_app, Hlen.
    rewrite (even_div2 _ Heven) at 1.
    replace (2 * (n * ch) + 2 * Nat.div2 (length extra))%nat
      with (2 * (n * ch + Nat.div2 (length extra)))%nat by lia.
    apply Nat.div2_double. }
  assert (Hch : (0 < ch)%nat) by lia.
  assert (Hw : whole_frames (data ++ extra) ch = n).
  { unfold whole_frames. rewrite Hs'.
    rewrite Nat.add_comm, Nat.div_add by lia.
    rewrite Nat.div_small by exact Hfew. reflexivity. }
  assert (Hw' : whole_frames data ch = n).
  { unfold whole_frames. rewrite Hs. apply Nat.div_mul. lia. }
  rewrite Hw, Hw', Hs, Hs'.
  assert (Hlt1 : (n * ch + sample_count extra <? ch)%nat = false)
    by (apply Nat.ltb_ge; nia).
  assert (Hlt2 : (n * ch <? ch)%nat = false) by (apply Nat.ltb_ge; nia).
  rewrite Hlt1, Hlt2.
  destruct ((ch =? 0)%nat || (rate <=? 0) || false
            || negb (supports ctx ch rate)); [reflexivity|].
  do 2 f_equal. apply decoded_channels_ext. intros j Hj.
  rewrite int16_elements_app by exact Hd.
  apply app_nth1. rewrite int16_elements_length. fold (sample_count data). lia.
Qed.

Lemma decode_ignores_partial_frame_witness :
  ((0 < 2)%nat /\ length (take 8 short_tone) = (2 * (2 * 2))%nat /\
   Nat.even (length (drop 8 short_tone)) = true /\
   (sample_count (drop 8 short_tone) < 2)%nat /\
   Z.of_nat (length (take 8 short_tone ++ drop 8 short_tone)) < 8589934592) /\
  decodeAudioData (take 8 short_tone ++ drop 8 short_tone) baseline_context 24000 2
  = decodeAudioData (take 8 short_tone) baseline_context 24000 2.
Proof.
  assert (H1 : (0 < 2)%nat) by lia.
  assert (H2 : length (take 8 short_tone) = (2 * (2 * 2))%nat) by reflexivity.
  assert (H3 : Nat.even (length (drop 8 short_tone)) = true) by reflexivity.
  assert (H4 : (sample_count (drop 8 short_tone) < 2)%nat) by (vm_compute; lia).
  assert (H5 : Z.of_nat (length (take 8 short_tone ++ drop 8 short_tone))
               < 8589934592) by (vm_compute; reflexivity).
  split; [repeat split; assumption|].
  exact (decode_ignores_partial_frame (take 8 short_tone) (drop 8 short_tone)
           baseline_context 24000 2 2 H1 H2 H3 H4 H5).
Defined.

(** X3.  Whatever the decoder returns is a well-formed buffer of the
    requested rate and channel count, and each of its samples is an int16
    code over 32768, hence finite and in [-1, 1). *)
Theorem decoded_buffer_well_formed
    (data : list byte) (ctx : AudioContext) (rate : Z) (ch : nat)
    (buf : AudioBuffer) :
  Z.of_nat (length data) < 8589934592 ->
  decodeAudioData data ctx rate ch = Ok buf ->
  well_formed buf /\ sampleRate buf = rate /\ numberOfChannels buf = ch /\
  frames buf = whole_frames data ch /\
  forall c i, (c < ch)%nat -> (i < frames buf)%nat ->
    exists k, -32768 <= k < 32768 /\ sample buf c i = Fin (k # 32768) /\
              (-1 <= k # 32768)%Q /\ (k # 32768 < 1)%Q.
Proof.
  intros Hbig Hdec. rewrite decodeAudioData_closed_form in Hdec by exact Hbig.
  destruct (Nat.odd (length data)); [discriminate|].
  destruct (Nat.eqb_spec ch 0) as [|Hch]; [discriminate|].
  destruct (Z.leb_spec rate 0) as [|Hrate]; [discriminate|].
  destruct (Nat.ltb_spec (sample_count data) ch) as [|Hmany]; [discriminate|].
  destruct (supports ctx ch rate); [|discriminate].
  cbn [orb negb] in Hdec. injection Hdec as <-.
  assert (Hpos : (0 < whole_frames data ch)%nat).
  { unfold whole_frames. apply Nat.div_str_pos. lia. }
  unfold well_formed, numberOfChannels, sample. cbn [channels frames sampleRate].
  rewrite decoded_channels_length.
  repeat split; try lia; try reflexivity.
  - apply decoded_channels_shape.
  - intros c i Hc Hi. rewrite decoded_channels_sample by assumption.
    unfold decoded_sample.
    set (j := (i * ch + c)%nat).
    assert (Hj : (j < length (int16_elements data))%nat).
    { rewrite int16_elements_length. fold (sample_count data).
      assert ((whole_frames data ch * ch <= sample_count data)%nat).
      { unfold whole_frames. rewrite Nat.mul_comm. apply Nat.Div0.mul_div_le. }
      subst j. nia. }
    pose proof (Forall_nth (fun v => -32768 <= v < 32768) 0
                  (int16_elements data)) as [Hall _].
    specialize (Hall (int16_elements_range data) j Hj). cbn beta in Hall.
    exists (nth j (int16_elements data) 0).
    split; [exact Hall|]. split; [reflexivity|].
    unfold Qle, Qlt. cbn [Qnum Qden]. lia.
Qed.

Lemma decoded_buffer_well_formed_witness :
  (Z.of_nat (length short_tone) < 8589934592 /\
   decodeAudioData short_tone baseline_context 24000 2
   = Ok (mkAudioBuffer 24000 2
           [[Fin (16384 # 32768); Fin (32767 # 32768)];
            [Fin (-16384 # 32768); Fin (-32768 # 32768)]])) /\
  well_formed
    (mkAudioBuffer 24000 2
       [[Fin (16384 # 32768); Fin (32767 # 32768)];
        [Fin (-16384 # 32768); Fin (-32768 # 32768)]]).
Proof.
  assert (H : Z.of_nat (length short_tone) < 8589934592)
    by (vm_compute; reflexivity).
  assert (Hd : decodeAudioData short_tone baseline_context 24000 2
               = Ok (mkAudioBuffer 24000 2
                       [[Fin (16384 # 32768); Fin (32767 # 32768)];
                        [Fin (-16384 # 32768); Fin (-32768 # 32768)]]))
    by (vm_compute; reflexivity).
  split; [split; assumption|].
  exact (proj1 (decoded_buffer_well_formed short_tone baseline_context 24000 2
                  _ H Hd)).
Defined.

(** * Further properties of the sample quantiser *)

Lemma truncate_mono (a b : Q) : (a <= b)%Q -> truncate a <= truncate b.
Proof.
  destruct a as [n1 d1], b as [n2 d2]. unfold Qle, truncate. cbn [Qnum Qden].
  intros H.
  rewrite <- (Z.quot_mul_cancel_r n1 (Zpos d1) (Zpos d2)) by lia.
  rewrite <- (Z.quot_mul_cancel_r n2 (Zpos d2) (Zpos d1)) by lia.
  rewrite (Z.mul_comm (Zpos d2) (Zpos d1)).
  apply Z.quot_le_mono; lia.
Qed.

Lemma pcm16_finite_mono (p q : Q) :
  (p <= q)%Q -> pcm16 (Fin p) <= pcm16 (Fin q).
Proof.
  intros Hpq.
  pose proof (pcm16_range (Fin p)) as Rp.
  pose proof (pcm16_range (Fin q)) as Rq.
  destruct (pcm16_finite p) as (P1 & P2 & P3 & P4).
  destruct (pcm16_finite q) as (Q1 & Q2 & Q3 & Q4).
  destruct (Qlt_le_dec (-1) p) as [Hp1|Hp1]; [|rewrite P1 by exact Hp1; lia].
  destruct (Qlt_le_dec q 1) as [Hq1|Hq1]; [|rewrite Q4 by exact Hq1; lia].
  assert (Hq0 : (-1 < q)%Q) by (eapply Qlt_le_trans; eassumption).
  assert (Hp0 : (p < 1)%Q) by (eapply Qle_lt_trans; eassumption).
  destruct (Qlt_le_dec p 0) as [Hpn|Hpp], (Qlt_le_dec q 0) as [Hqn|Hqp].
  - rewrite P2, Q2 by assumption. apply truncate_mono.
    apply Qmult_le_compat_r; [exact Hpq|discriminate].
  - rewrite P2, Q3 by assumption.
    assert (truncate (p * 32768) <= 0).
    { apply (truncate_bounds _ (-32768) 0); [lia| |].
      - change (inject_Z (-32768)) with ((-1) * 32768)%Q.
        apply Qmult_le_compat_r; [apply Qlt_le_weak; exact Hp1|discriminate].
      - change (inject_Z 0) with (0 * 32768)%Q.
        apply Qmult_le_compat_r; [apply Qlt_le_weak; exact Hpn|discriminate]. }
    assert (0 <= truncate (q * 32767)).
    { apply (truncate_bounds _ 0 32767); [lia| |].
      - change (inject_Z 0) with (0 * 32767)%Q.
        apply Qmult_le_compat_r; [exact Hqp|discriminate].
      - change (inject_Z 32767) with (1 * 32767)%Q.
        apply Qmult_le_compat_r; [apply Qlt_le_weak; exact Hq1|discriminate]. }
    lia.
  - exfalso. apply (Qlt_not_le q 0 Hqn). eapply Qle_trans; eassumption.
  - rewrite P3, Q3 by assumption. apply truncate_mono.
    apply Qmult_le_compat_r; [exact Hpq|discriminate].
Qed.

(** X4.  The quantiser the encoders apply to every sample preserves order
    over all numbers but NaN, the infinities included, and stays inside
    the int16 range: a sample that is too loud saturates, it never wraps
    around to the opposite sign.  NaN is written as silence. *)
Theorem pcm16_monotone (x y : number) :
  num_le x y ->
  -32768 <= pcm16 x <= pcm16 y /\ pcm16 y <= 32767 /\ pcm16 NaN = 0.
Proof.
  intros Hle.
  pose proof (pcm16_range x) as Rx. pose proof (pcm16_range y) as Ry.
  split; [split; [lia|]|split; [lia|reflexivity]].
  destruct x as [p| | |], y as [q| | |]; cbn in Hle; try contradiction.
  - apply pcm16_finite_mono. exact Hle.
  - change (pcm16 PInf) with 32767. lia.
  - change (pcm16 NInf) with (-32768). lia.
  - change (pcm16 NInf) with (-32768). lia.
  - change (pcm16 NInf) with (-32768). lia.
  - lia.
Qed.

Lemma pcm16_monotone_witness :
  num_le (Fin (3 # 2)) PInf /\
  (-32768 <= pcm16 (Fin (3 # 2)) <= pcm16 PInf /\ pcm16 PInf <= 32767 /\
   pcm16 NaN = 0).
Proof.
  assert (H : num_le (Fin (3 # 2)) PInf) by exact I.
  split; [exact H|]. exact (pcm16_monotone (Fin (3 # 2)) PInf H).
Defined.

Lemma truncate_floor (x : Q) :
  (0 <= x)%Q ->
  (inject_Z (truncate x) <= x)%Q /\ (x < inject_Z (truncate x) + 1)%Q.
Proof.
  destruct x as [n d]. unfold Qle, Qlt, truncate, inject_Z, Qplus.
  cbn [Qnum Qden]. intros Hn. rewrite Z.mul_1_r in Hn.
  rewrite Z.quot_div_nonneg by lia.
  pose proof (Z.div_mod n (Zpos d) ltac:(lia)) as Hdm.
  pose proof (Z.mod_pos_bound n (Zpos d) ltac:(lia)) as Hm.
  rewrite ?Z.mul_1_r, ?Pos.mul_1_l, ?Pos.mul_1_r. split; nia.
Qed.

Lemma truncate_ceiling (x : Q) :
  (x <= 0)%Q ->
  (x <= inject_Z (truncate x))%Q /\ (inject_Z (truncate x) - 1 < x)%Q.
Proof.
  destruct x as [n d]. unfold Qle, Qlt, truncate, inject_Z, Qminus, Qplus, Qopp.
  cbn [Qnum Qden]. intros Hn. rewrite Z.mul_1_r in Hn.
  pose proof (Z.mul_quot_ge n (Zpos d) ltac:(lia) ltac:(lia)) as Hq.
  pose proof (Z.mul_pred_quot_lt n (Zpos d) ltac:(lia) ltac:(lia)) as Hp.
  rewrite ?Z.mul_1_r, ?Pos.mul_1_l, ?Pos.mul_1_r. split; nia.
Qed.

(** X5.  Encoding a sample of [-1, 1] and decoding the code again never
    raises its magnitude or flips its sign, and loses less than two steps
    of 1/32768 on the non-negative side and less than one on the negative
    side. *)
Theorem quantisation_error (q : Q) :
  (-1 <= q)%Q -> (q <= 1)%Q ->
  let v := dequantize (pcm16 (Fin q)) in
  ((0 <= q)%Q -> (0 <= v)%Q /\ (v <= q)%Q /\ (q - v < 2 # 32768)%Q) /\
  ((q <= 0)%Q -> (q <= v)%Q /\ (v <= 0)%Q /\ (v - q < 1 # 32768)%Q).
Proof.
  intros Hlo Hhi v. subst v. unfold dequantize.
  destruct (pcm16_finite q) as (H1 & H2 & H3 & H4).
  split.
  - intros Hpos.
    destruct (Qlt_le_dec q 1) as [Hlt|Hge].
    + rewrite H3 by assumption.
      assert (Hx : (0 <= q * 32767)%Q).
      { change 0%Q with (0 * 32767)%Q.
        apply Qmult_le_compat_r; [exact Hpos|discriminate]. }
      destruct (truncate_floor _ Hx) as [Hf1 Hf2].
      set (t := truncate (q * 32767)) in *.
      destruct q as [n d].
      unfold Qle, Qlt, Qminus, Qplus, Qopp, Qmult, inject_Z in *.
      cbn [Qnum Qden] in *.
      rewrite ?Z.mul_1_r, ?Pos.mul_1_r, ?Pos.mul_1_l in *.
      rewrite ?Pos2Z.inj_mul. repeat split; nia.
    + rewrite H4 by exact Hge.
      destruct q as [n d].
      unfold Qle, Qlt, Qminus, Qplus, Qopp in *. cbn [Qnum Qden] in *.
      rewrite ?Z.mul_1_r, ?Pos.mul_1_r, ?Pos.mul_1_l in *.
      rewrite ?Pos2Z.inj_mul. repeat split; nia.
  - intros Hneg.
    destruct (Qlt_le_dec (-1) q) as [Hgt|Hle].
    + destruct (Qlt_le_dec q 0) as [Hlt|Hzero].
      * rewrite H2 by assumption.
        assert (Hx : (q * 32768 <= 0)%Q).
        { change 0%Q with (0 * 32768)%Q.
          apply Qmult_le_compat_r; [exact Hneg|discriminate]. }
        destruct (truncate_ceiling _ Hx) as [Hc1 Hc2].
        set (t := truncate (q * 32768)) in *.
        destruct q as [n d].
        unfold Qle, Qlt, Qminus, Qplus, Qopp, Qmult, inject_Z in *.
        cbn [Qnum Qden] in *.
        rewrite ?Z.mul_1_r, ?Pos.mul_1_r, ?Pos.mul_1_l in *.
        rewrite ?Pos2Z.inj_mul in *. repeat split; nia.
      * rewrite H3 by (assumption || (eapply Qle_lt_trans; [exact Hneg|reflexivity])).
        assert (Hq0 : (q == 0)%Q) by (apply Qle_antisym; assumption).
        assert (Ht : truncate (q * 32767) = 0).
        { destruct q as [n d]. unfold Qeq in Hq0. cbn [Qnum Qden] in Hq0.
          assert (n = 0) as -> by lia. reflexivity. }
        rewrite Ht. destruct q as [n d].
        unfold Qeq, Qle, Qlt, Qminus, Qplus, Qopp in *. cbn [Qnum Qden] in *.
        rewrite ?Z.mul_1_r, ?Pos.mul_1_r, ?Pos.mul_1_l in *.
        repeat split; nia.
    + rewrite H1 by exact Hle.
      destruct q as [n d].
      unfold Qle, Qlt, Qminus, Qplus, Qopp in *. cbn [Qnum Qden] in *.
      rewrite ?Z.mul_1_r, ?Pos.mul_1_r, ?Pos.mul_1_l in *.
      rewrite ?Pos2Z.inj_mul. repeat split; nia.
Qed.

Lemma quantisation_error_witness :
  ((-1 <= 1 # 3)%Q /\ (1 # 3 <= 1)%Q) /\
  ((0 <= 1 # 3)%Q ->
   (0 <= dequantize (pcm16 (Fin (1 # 3))))%Q /\
   (dequantize (pcm16 (Fin (1 # 3))) <= 1 # 3)%Q /\
   ((1 # 3) - dequantize (pcm16 (Fin (1 # 3))) < 2 # 32768)%Q).
Proof.
  assert (H1 : (-1 <= 1 # 3)%Q) by (vm_compute; discriminate).
  assert (H2 : (1 # 3 <= 1)%Q) by (vm_compute; discriminate).
  split; [split; assumption|].
  exact (proj1 (quantisation_error (1 # 3) H1 H2)).
Defined.

(** * The Mp3Encoder class *)

Lemma for_each_0 {S} (body : nat -> S -> outcome S) (st : S) :
  for_each 0 body st = Returns st.
Proof. reflexivity. Qed.

Lemma for_each_S {S} (n : nat) (body : nat -> S -> outcome S) (st : S) :
  for_each (Datatypes.S n) body st
  = match for_each n body st with
    | Returns s => body n s
    | Throws t => Throws t
    end.
Proof.
  unfold for_each. rewrite seq_S, fold_left_app. reflexivity.
Qed.

Lemma convert_frame (buffer : list (list number)) (i n : nat)
    (pre post : list Z) :
  (n <= length buffer)%nat ->
  for_each n (Mp3Encoder.convert_sample buffer i)
    (pre ++ replicate n 0 ++ post, length pre)
  = Returns (pre ++ map (fun j => pcm16 (sample_at buffer j i)) (seq 0 n) ++ post,
             (length pre + n)%nat).
Proof.
  revert post. induction n as [|n IH]; intros post Hn.
  - rewrite for_each_0. cbn. rewrite Nat.add_0_r. reflexivity.
  - rewrite for_each_S.
    replace (replicate (S n) 0 ++ post) with (replicate n 0 ++ 0 :: post)
      by (rewrite <- Nat.add_1_r, replicate_add, <- app_assoc; reflexivity).
    rewrite IH by lia. unfold Mp3Encoder.convert_sample.
    destruct (buffer !! n) as [c|] eqn:E;
      [|apply lookup_ge_None in E; lia].
    rewrite seq_S, map_app. cbn [map Nat.add].
    assert (Hs : sample_at buffer n i
                 = match c !! i with Some x => x | None => NaN end)
      by (unfold sample_at; rewrite E; reflexivity).
    rewrite Hs. unfold pcm16 at 3.
    f_equal. f_equal; [|lia].
    rewrite (app_assoc pre).
    rewrite insert_app_r_alt by (rewrite length_app, length_map, length_seq; lia).
    rewrite length_app, length_map, length_seq.
    replace (length pre + n - (length pre + n))%nat with 0%nat by lia.
    cbn [insert list_insert]. rewrite <- !app_assoc. reflexivity.
Qed.

Lemma interleaved_codes_length chans n ch :
  length (interleaved_codes chans n ch) = (n * ch)%nat.
Proof.
  unfold interleaved_codes.
  rewrite (flat_map_length_const _ ch)
    by (intros; rewrite length_map, length_seq; reflexivity).
  rewrite length_seq. reflexivity.
Qed.

Lemma convert_frames (buffer : list (list number)) (ch n : nat)
    (pre post : list Z) :
  (ch <= length buffer)%nat ->
  for_each n (fun i st => for_each ch (Mp3Encoder.convert_sample buffer i) st)
    (pre ++ replicate (n * ch) 0 ++ post, length pre)
  = Returns (pre ++ interleaved_codes buffer n ch ++ post,
             (length pre + n * ch)%nat).
Proof.
  intros Hch. revert post. induction n as [|n IH]; intros post.
  - rewrite for_each_0. cbn. rewrite Nat.add_0_r. reflexivity.
  - replace (S n * ch)%nat with (n * ch + ch)%nat by lia.
    rewrite for_each_S, replicate_add, <- app_assoc, IH.
    replace (length pre + n * ch)%nat
      with (length (pre ++ interleaved_codes buffer n ch))
      by (rewrite length_app, interleaved_codes_length; reflexivity).
    rewrite (app_assoc pre), convert_frame by exact Hch.
    unfold interleaved_codes at 3. rewrite seq_S, flat_map_app.
    cbn [flat_map Nat.add]. rewrite app_nil_r.
    fold (interleaved_codes buffer n ch).
    rewrite <- !app_assoc, !length_app, interleaved_codes_length.
    do 2 f_equal. lia.
Qed.

Lemma payload_codes (chans : list (list number)) (n ch : nat) :
  payload chans n ch = flat_map le16 (interleaved_codes chans n ch).
Proof.
  unfold payload, interleaved_codes, frame_bytes.
  induction (seq 0 n) as [|i l IH]; [reflexivity|].
  cbn [flat_map]. rewrite flat_map_app, IH. f_equal.
  clear IH. induction (seq 0 ch) as [|j l' IH']; [reflexivity|].
  cbn [flat_map map]. rewrite IH'. reflexivity.
Qed.

Lemma interleaved_codes_range chans n ch :
  Forall (fun v => -32768 <= v < 32768) (interleaved_codes chans n ch).
Proof.
  unfold interleaved_codes.
  induction (seq 0 n) as [|i l IH]; [constructor|].
  cbn [flat_map]. apply Forall_app. split; [|exact IH].
  clear IH. induction (seq 0 ch) as [|j l' IH']; [constructor|].
  cbn [map]. constructor; [apply pcm16_range|exact IH'].
Qed.

(** X6.  On the channels of a buffer, [Mp3Encoder.convert] returns the
    very 16-bit codes that [audioBufferToWav] and [audioBufferToMp3] store
    in the payload of the container, in the same order; it throws a
    TypeError when there is no first channel. *)
Theorem convert_agrees_with_payload
    (this : Mp3Encoder.t) (buffer : list (list number)) (first : list number) :
  buffer !! 0%nat = Some first ->
  Mp3Encoder.channels this = length buffer ->
  Mp3Encoder.convert this buffer
  = Returns (int16_elements (payload buffer (length first) (length buffer))) /\
  Mp3Encoder.convert this [] = Throws TypeError.
Proof.
  intros Hfirst Hch. split; [|reflexivity].
  unfold Mp3Encoder.convert. rewrite Hfirst, Hch.
  pose proof (convert_frames buffer (length buffer) (length first) [] []
                (Nat.le_refl _)) as H.
  cbn [app length] in H. rewrite app_nil_r in H. rewrite H.
  rewrite app_nil_r, payload_codes, int16_elements_le16; [reflexivity|].
  apply interleaved_codes_range.
Qed.

Lemma convert_agrees_with_payload_witness :
  (channels stereo_pair !! 0%nat = Some [Fin (1 # 2); Fin (-3 # 4)] /\
   Mp3Encoder.channels (Mp3Encoder.create 2 24000 128)
   = length (channels stereo_pair)) /\
  Mp3Encoder.convert (Mp3Encoder.create 2 24000 128) (channels stereo_pair)
  = Returns (int16_elements
               (payload (channels stereo_pair)
                  (length [Fin (1 # 2); Fin (-3 # 4)])
                  (length (channels stereo_pair)))).
Proof.
  assert (H1 : channels stereo_pair !! 0%nat = Some [Fin (1 # 2); Fin (-3 # 4)])
    by reflexivity.
  assert (H2 : Mp3Encoder.channels (Mp3Encoder.create 2 24000 128)
               = length (channels stereo_pair)) by reflexivity.
  split; [split; assumption|].
  exact (proj1 (convert_agrees_with_payload (Mp3Encoder.create 2 24000 128)
                  (channels stereo_pair) _ H1 H2)).
Defined.

(** * Repeated export *)

Lemma requantize_decayed (m : nat) (k : Z) :
  requantize (decayed m k) = decayed (S m) k.
Proof.
  unfold requantize, decayed. rewrite Nat2Z.inj_succ.
  destruct (Z.ltb_spec 0 k).
  - destruct (Z.ltb_spec 0 (Z.max 0 (k - Z.of_nat m))); lia.
  - destruct (Z.ltb_spec 0 k); lia.
Qed.

Lemma decayed_range (m : nat) (k : Z) :
  -32768 <= k < 32768 -> -32768 <= decayed m k < 32768.
Proof. unfold decayed. destruct (Z.ltb_spec 0 k); lia. Qed.

Lemma reexport_whole (data : list byte) (ctx : AudioContext) (rate : Z)
    (ch n : nat) :
  (0 < ch)%nat -> 0 < rate -> supports ctx ch rate = true ->
  (0 < n)%nat -> Z.of_nat n < 4294967296 ->
  length data = (2 * (n * ch))%nat ->
  reexport ctx rate ch data
  = Ok (flat_map le16 (map requantize (int16_elements data))).
Proof.
  intros Hch Hrate Hsup Hn Hbig Hlen. unfold reexport.
  destruct (decode_encode_decode data ctx rate ch n Hch Hrate Hsup Hn Hbig Hlen)
    as (-> & Henc & _).
  cbn [bind]. cbv zeta in Henc. rewrite Henc. cbn [bind blob_bytes].
  change 44%nat
    with (length (wav_header (Z.of_nat ch) rate (Z.of_nat (n * ch * 2)))).
  rewrite drop_app_length. reflexivity.
Qed.

(** X7.  Decoding a payload of whole frames, at a channel count and a
    rate that the context supports, and exporting it again, [m] times
    over, succeeds, keeps the length, leaves every code that is not
    positive untouched and lowers every positive code by one per export
    until it is 0. *)
Theorem reexport_decays
    (m : nat) (data : list byte) (ctx : AudioContext) (rate : Z) (ch n : nat) :
  (0 < ch)%nat -> 0 < rate -> supports ctx ch rate = true ->
  (0 < n)%nat -> Z.of_nat n < 4294967296 ->
  length data = (2 * (n * ch))%nat ->
  exists out,
    reexport_times m ctx rate ch data = Ok out /\
    length out = length data /\
    int16_elements out = map (decayed m) (int16_elements data).
Proof.
  intros Hch Hrate Hsup Hn Hbig.
  assert (Hgen : forall m data ks,
            length data = (2 * (n * ch))%nat ->
            int16_elements data = ks ->
            exists out,
              reexport_times m ctx rate ch data = Ok out /\
              length out = length data /\
              int16_elements out = map (fun k => Nat.iter m requantize k) ks).
  { clear m data. induction m as [|m IH]; intros data ks Hlen Hks.
    - exists data. cbn [reexport_times Nat.iter]. rewrite map_id.
      split; [reflexivity|]. split; [reflexivity|exact Hks].
    - cbn [reexport_times].
      rewrite (reexport_whole data ctx rate ch n) by assumption. cbn [bind].
      assert (Hr : Forall (fun v => -32768 <= v < 32768)
                     (map requantize (int16_elements data))).
      { apply Forall_map. eapply Forall_impl; [apply int16_elements_range|].
        intros k Hk. apply requantize_range. exact Hk. }
      assert (Hl : length (flat_map le16 (map requantize (int16_elements data)))
                   = length data).
      { rewrite (flat_map_length_const _ 2) by reflexivity.
        rewrite length_map, int16_elements_length, Hlen, Nat.div2_double. lia. }
      destruct (IH (flat_map le16 (map requantize (int16_elements data)))
                  (map requantize ks)) as (out & Hout & Hlo & Hko).
      + rewrite Hl. exact Hlen.
      + rewrite int16_elements_le16 by exact Hr. rewrite Hks. reflexivity.
      + exists out. split; [exact Hout|]. split; [congruence|].
        rewrite Hko, map_map. apply map_ext. intros k.
        symmetry. apply Nat.iter_succ_r. }
  intros Hlen.
  destruct (Hgen m data (int16_elements data) Hlen eq_refl) as (out & H1 & H2 & H3).
  exists out. split; [exact H1|]. split; [exact H2|].
  rewrite H3. apply map_ext. intros k.
  clear. induction m as [|m IHm].
  - change (Nat.iter 0 requantize k) with k.
    unfold decayed. destruct (Z.ltb_spec 0 k); lia.
  - change (Nat.iter (S m) requantize k)
      with (requantize (Nat.iter m requantize k)).
    rewrite IHm. apply requantize_decayed.
Qed.

Lemma reexport_decays_witness :
  ((0 < 2)%nat /\ 0 < 24000 /\ supports baseline_context 2 24000 = true /\
   (0 < 2)%nat /\ Z.of_nat 2 < 4294967296 /\
   length two_stereo_frames = (2 * (2 * 2))%nat) /\
  exists out,
    reexport_times 3 baseline_context 24000 2 two_stereo_frames = Ok out /\
    length out = length two_stereo_frames /\
    int16_elements out = map (decayed 3) (int16_elements two_stereo_frames).
Proof.
  assert (H1 : (0 < 2)%nat) by lia.
  assert (H2 : 0 < 24000) by lia.
  assert (H3 : Z.of_nat 2 < 4294967296) by (vm_compute; reflexivity).
  assert (H4 : length two_stereo_frames = (2 * (2 * 2))%nat) by reflexivity.
  assert (Hs : supports baseline_context 2 24000 = true) by reflexivity.
  split; [repeat split; assumption|].
  exact (reexport_decays 3 two_stereo_frames baseline_context 24000 2 2
           H1 H2 Hs H1 H3 H4).
Defined.

(** * Further properties of the transport *)

(** Case analysis on the fields of a state that the observations read. *)
Ltac split_state s :=
  destruct s as [? ? ? ? ? ? ? ? [[? ? ? ? [?|]]|] [?|] [?|] [?|] ? ?].

Ltac settle :=
  cbn in *; simplify_eq;
  repeat match goal with x : bool |- _ => destruct x end;
  cbn in *; simplify_eq; try reflexivity.

Lemma play_closure_ok buf rate cb now s :
  transport_ok s = true -> transport_ok (play_closure buf rate cb now s) = true.
Proof.
  intros H. unfold play_closure.
  destruct buf as [b|]; [|exact H].
  destruct (audioContextRef s && bool_decide (is_Some (gainNodeRef s))) eqn:E;
    [|exact H].
  apply andb_true_iff in E as [Hc Hg]. apply bool_decide_eq_true in Hg.
  destruct Hg as [g Hg].
  match goal with |- context [if ?c then _ else _] => destruct c end;
    split_state s; settle.
Qed.

Lemma stopPlayback_ok w s :
  transport_ok s = true -> transport_ok (stopPlayback w s) = true.
Proof. intros H. destruct w; split_state s; settle. Qed.

Lemma setupAudioContext_ok s :
  transport_ok s = true -> transport_ok (setupAudioContext s) = true.
Proof. intros H. unfold setupAudioContext. split_state s; settle. Qed.

Lemma volume_effect_ok before s :
  transport_ok s = true -> transport_ok (volume_effect before s) = true.
Proof.
  intros H. unfold volume_effect.
  destruct (same before (volume s)); [exact H|].
  destruct (gainNodeRef s) eqn:Eg; [|exact H].
  destruct (audioContextRef s && is_finite (volume s)); [|exact H].
  split_state s; settle.
Qed.

Lemma step_ok (s : State) (e : event) :
  transport_ok s = true -> transport_ok (step s e) = true.
Proof.
  intros H. destruct e; cbn [step].
  - unfold handleTogglePlayPause, pause, play.
    destruct (isPlaying s) eqn:Ep.
    + destruct (audioContextRef s && bool_decide (is_Some (audioSourceRef s)));
        [|exact H].
      apply stopPlayback_ok. split_state s; settle.
    + apply play_closure_ok. exact H.
  - unfold handleToggleMute. apply volume_effect_ok.
    destruct (gt (volume s) (Fin 0)); split_state s; settle.
  - unfold handleVolumeChange. apply volume_effect_ok. split_state s; settle.
  - unfold handleSpeedChange.
    cbn [audioSourceRef set_playbackRate audioContextRef].
    destruct (audioSourceRef s) as [src|] eqn:Es.
    + destruct (audioContextRef s && is_finite newRate);
        split_state s; settle.
    + split_state s; settle.
  - unfold handleSeek. destruct (isPlaying s) eqn:Ep.
    + apply play_closure_ok. split_state s; settle.
    + split_state s; settle.
  - destruct (audioSourceRef s) as [src|] eqn:Es; [|exact H].
    destruct (src_onended src) as [h|] eqn:Eh; [|exact H].
    unfold onended. destruct (audioContextRef s) eqn:Ec; [|exact H].
    match goal with |- context [if ?c then _ else _] => destruct c end;
      split_state s; settle.
  - destruct (animationFrame s) as [cb|] eqn:Ef; [|exact H].
    unfold updateProgress.
    destruct (fc_isPlaying cb && audioContextRef s) eqn:E;
      split_state s; settle.
  - unfold input_changed.
    pose proof (stopPlayback_ok Both s H) as H'.
    revert H'. generalize (stopPlayback Both s). intros s' H'.
    split_state s'; settle.
  - unfold handleGenerateAudio. apply play_closure_ok.
    assert (H1 : transport_ok (set_audioBuffer None (stopPlayback Both s)) = true).
    { pose proof (stopPlayback_ok Both s H) as H'.
      revert H'. generalize (stopPlayback Both s). intros s' H'.
      split_state s'; settle. }
    apply setupAudioContext_ok in H1.
    revert H1. generalize (setupAudioContext (set_audioBuffer None (stopPlayback Both s))).
    intros s' H1. split_state s'; settle.
  - unfold handlePreviewVoice.
    pose proof (setupAudioContext_ok _ (stopPlayback_ok Both s H)) as H'.
    revert H'. generalize (setupAudioContext (stopPlayback Both s)).
    intros s' H'.
    destruct (gainNodeRef s') eqn:Eg; [|exact H'].
    destruct (audioContextRef s') eqn:Ec; [|exact H'].
    split_state s'; settle.
Qed.

(** X8.  In every state the player can reach: while [isPlaying] holds, a
    main source is bound and its [onended] handler is attached; an
    animation frame is pending only while [isPlaying] holds, so no polling
    survives a pause, a stop or the end of playback; the gain stage exists
    exactly when the audio context does; and a source, main or preview,
    is bound only once the context exists. *)
Theorem transport_invariant (s : State) :
  reachable s ->
  (isPlaying s = true ->
   exists src h, audioSourceRef s = Some src /\ src_onended src = Some h) /\
  (forall cb, animationFrame s = Some cb -> isPlaying s = true) /\
  (is_Some (gainNodeRef s) <-> audioContextRef s = true) /\
  (is_Some (audioSourceRef s) \/ is_Some (previewAudioSourceRef s) ->
   audioContextRef s = true).
Proof.
  intros Hreach.
  assert (H : transport_ok s = true).
  { induction Hreach as [|s e _ IH]; [reflexivity|]. apply step_ok. exact IH. }
  clear Hreach. split_state s; settle;
    repeat split; intros; simplify_eq;
    try (eexists _, _; split; reflexivity);
    try (eexists; reflexivity);
    repeat match goal with
           | H : is_Some None |- _ => destruct H as [? ?]; discriminate
           | H : _ \/ _ |- _ => destruct H
           end.
Qed.

Lemma transport_invariant_witness :
  reachable playing_midway /\
  (isPlaying playing_midway = true ->
   exists src h,
     audioSourceRef playing_midway = Some src /\ src_onended src = Some h).
Proof.
  assert (H : reachable playing_midway).
  { unfold playing_midway, paused_midway, loaded_fast, loaded, run. cbn [fold_left].
    repeat apply reachable_step. apply reachable_initial. }
  split; [exact H|]. exact (proj1 (transport_invariant playing_midway H)).
Defined.

(** X9.  What [stopPlayback] takes down stays silent: the frame request it
    cancelled does nothing when its time comes, and the [ended] event of a
    main source it stopped reaches no handler.  Hence a second [pause]
    does not add the elapsed time again, and an [ended] event that arrives
    after a [pause] cannot reset the position. *)
Theorem stopped_playback_is_silent (s : State) (w : target) (now t : number) :
  step (stopPlayback w s) (Frame t) = stopPlayback w s /\
  step (stopPlayback Main s) (Ended t) = stopPlayback Main s /\
  step (stopPlayback Both s) (Ended t) = stopPlayback Both s /\
  step (pause now s) (Ended t) = pause now s /\
  pause t (pause now s) = pause now s.
Proof.
  split; [destruct w; reflexivity|].
  split; [reflexivity|]. split; [reflexivity|].
  unfold pause.
  destruct (audioContextRef s) eqn:Ec; cbn [andb].
  - destruct (audioSourceRef s) as [src|] eqn:Es.
    + rewrite bool_decide_eq_true_2 by (eexists; reflexivity).
      split; [reflexivity|]. cbn -[add mul sub].
      rewrite andb_false_r. reflexivity.
    + rewrite bool_decide_eq_false_2 by (intros [? ?]; discriminate).
      cbn [step]. rewrite Ec, Es. cbn [andb].
      rewrite bool_decide_eq_false_2 by (intros [? ?]; discriminate).
      split; reflexivity.
  - cbn [step]. rewrite Ec. cbn [andb].
    split; [|reflexivity].
    destruct (audioSourceRef s) as [src|]; [|reflexivity].
    destruct (src_onended src) as [h|]; [|reflexivity].
    unfold onended. rewrite Ec. reflexivity.
Qed.

Lemma handleSeek_playing (s : State) (t now : number) :
  isPlaying s = true ->
  handleSeek t now s = play now (set_startOffsetRef t (set_currentTime t s)).
Proof.
  intros H. unfold handleSeek, play. rewrite H.
  cbn [audioBuffer playbackRate isPlaying set_startOffsetRef set_currentTime].
  rewrite H. reflexivity.
Qed.



Lemma frames_idle (s : State) (ts : list number) :
  animationFrame s = None -> run s (map Frame ts) = s.
Proof.
  intros H. induction ts as [|t ts IH]; [reflexivity|].
  change (run (step s (Frame t)) (map Frame ts) = s).
  assert (Hs : step s (Frame t) = s) by (cbn [step]; rewrite H; reflexivity).
  rewrite Hs. exact IH.
Qed.

(** X11.  Playback begun with the play button does not move the displayed
    position.  The frame callback that [play] schedules belongs to the
    render in which the player was not playing: when its frame comes it
    finds [isPlaying] false, changes nothing and requests no further
    frame.  After any number of frames the displayed position is the one
    from before the click, while the player is playing. *)
Theorem progress_stalls_after_play
    (s : State) (b : AudioBuffer) (o r : Q) (now : number) (ts : list number) :
  isPlaying s = false ->
  audioBuffer s = Some b -> audioContextRef s = true ->
  is_Some (gainNodeRef s) ->
  startOffsetRef s = Fin o -> playbackRate s = Fin r -> (0 <= o)%Q ->
  let after := run (handleTogglePlayPause now s) (map Frame ts) in
  isPlaying after = true /\ currentTime after = currentTime s /\
  (ts <> [] -> animationFrame after = None).
Proof.
  intros Hp Hb Hc Hg Ho Hr Hpos after. subst after.
  unfold handleTogglePlayPause. rewrite Hp.
  rewrite (play_starts s b o r now Hb Hc Hg Ho Hr (or_introl Hpos)).
  rewrite Hp. destruct ts as [|t ts].
  - repeat split. intros H. contradiction.
  - match goal with
    | |- context [run ?s0 (map Frame (t :: ts))] =>
        change (run s0 (map Frame (t :: ts)))
          with (run (step s0 (Frame t)) (map Frame ts));
        assert (Hs : step s0 (Frame t) = set_animationFrame None s0)
          by reflexivity
    end.
    rewrite Hs, frames_idle by reflexivity.
    repeat split.
Qed.

Lemma progress_stalls_after_play_witness :
  (isPlaying paused_midway = false /\
   audioBuffer paused_midway = Some tenth_second /\
   audioContextRef paused_midway = true /\
   is_Some (gainNodeRef paused_midway) /\
   startOffsetRef paused_midway = Fin (0 + ((1 # 50) - 0) * (3 # 2)) /\
   playbackRate paused_midway = Fin (3 # 2) /\
   (0 <= 0 + ((1 # 50) - 0) * (3 # 2))%Q) /\
  isPlaying
    (run (handleTogglePlayPause (Fin 1) paused_midway)
       (map Frame [Fin (101 # 100); Fin (102 # 100)])) = true /\
  currentTime
    (run (handleTogglePlayPause (Fin 1) paused_midway)
       (map Frame [Fin (101 # 100); Fin (102 # 100)]))
  = currentTime paused_midway.
Proof.
  assert (H1 : isPlaying paused_midway = false) by reflexivity.
  assert (H2 : audioBuffer paused_midway = Some tenth_second) by reflexivity.
  assert (H3 : audioContextRef paused_midway = true) by reflexivity.
  assert (H4 : is_Some (gainNodeRef paused_midway)) by (eexists; reflexivity).
  assert (H5 : startOffsetRef paused_midway = Fin (0 + ((1 # 50) - 0) * (3 # 2)))
    by reflexivity.
  assert (H6 : playbackRate paused_midway = Fin (3 # 2)) by reflexivity.
  assert (H7 : (0 <= 0 + ((1 # 50) - 0) * (3 # 2))%Q) by (vm_compute; discriminate).
  split; [repeat split; assumption|].
  pose proof (progress_stalls_after_play paused_midway tenth_second _ (3 # 2)
                (Fin 1) [Fin (101 # 100); Fin (102 # 100)]
                H1 H2 H3 H4 H5 H6 H7) as (Ha & Hb & _).
  split; [exact Ha|exact Hb].
Defined.

(** X12.  After a seek during playback the displayed position does follow
    the audio: each frame shows [target + (frame time - seek time) * rate]
    and requests the next frame. *)
Theorem progress_follows_after_seek
    (s : State) (b : AudioBuffer) (target now t r : Q) :
  isPlaying s = true -> audioBuffer s = Some b ->
  audioContextRef s = true -> is_Some (gainNodeRef s) ->
  playbackRate s = Fin r ->
  (0 <= target)%Q -> (target < buffer_duration b)%Q ->
  let shown := step (handleSeek (Fin target) (Fin now) s) (Frame (Fin t)) in
  currentTime shown = Fin (target + (t - now) * r) /\
  isPlaying shown = true /\
  animationFrame shown = Some (mkFrameCallback true (Fin r)).
Proof.
  intros Hp Hb Hc Hg Hr Hpos Hlt shown. subst shown.
  rewrite handleSeek_playing by exact Hp.
  rewrite (play_starts _ b target r (Fin now)); try assumption;
    try reflexivity; [|left; exact Hpos].
  cbn [isPlaying set_startOffsetRef set_currentTime]. rewrite Hp.
  repeat split.
Qed.

Lemma progress_follows_after_seek_witness :
  (isPlaying playing_midway = true /\
   audioBuffer playing_midway = Some tenth_second /\
   audioContextRef playing_midway = true /\
   is_Some (gainNodeRef playing_midway) /\
   playbackRate playing_midway = Fin (3 # 2) /\
   (0 <= 1 # 100)%Q /\ (1 # 100 < buffer_duration tenth_second)%Q) /\
  currentTime
    (step (handleSeek (Fin (1 # 100)) (Fin 2) playing_midway)
       (Frame (Fin (201 # 100))))
  = Fin ((1 # 100) + ((201 # 100) - 2) * (3 # 2)).
Proof.
  assert (H1 : isPlaying playing_midway = true) by reflexivity.
  assert (H2 : audioBuffer playing_midway = Some tenth_second) by reflexivity.
  assert (H3 : audioContextRef playing_midway = true) by reflexivity.
  assert (H4 : is_Some (gainNodeRef playing_midway)) by (eexists; reflexivity).
  assert (H5 : playbackRate playing_midway = Fin (3 # 2)) by reflexivity.
  assert (H6 : (0 <= 1 # 100)%Q) by (vm_compute; discriminate).
  assert (H7 : (1 # 100 < buffer_duration tenth_second)%Q)
    by (vm_compute; reflexivity).
  split; [repeat split; assumption|].
  exact (proj1 (progress_follows_after_seek playing_midway tenth_second
                  (1 # 100) 2 (201 # 100) (3 # 2) H1 H2 H3 H4 H5 H6 H7)).
Defined.



Lemma same_Fin_0_false (v : Q) :
  (0 < v)%Q -> same (Fin v) (Fin 0) = false /\ same (Fin 0) (Fin v) = false.
Proof.
  intros Hv. unfold same. split.
  - destruct (Qeq_bool v 0) eqn:E; [|reflexivity].
    apply Qeq_bool_iff in E. rewrite E in Hv.
    exfalso. exact (Qlt_irrefl _ Hv).
  - destruct (Qeq_bool 0 v) eqn:E; [|reflexivity].
    apply Qeq_bool_iff in E. rewrite <- E in Hv.
    exfalso. exact (Qlt_irrefl _ Hv).
Qed.

(** X14.  Muting an audible player and unmuting it is a round trip.  The
    first click shows volume 0, remembers the volume and silences the gain
    stage; the second click puts volume and gain back.  Apart from
    [lastVolume], which now holds the volume, the player is as before. *)
Theorem mute_unmute_restores (s : State) (v : Q) (g : GainNode) :
  volume s = Fin v -> (0 < v)%Q ->
  audioContextRef s = true -> gainNodeRef s = Some g ->
  let muted := handleToggleMute s in
  volume muted = Fin 0 /\ lastVolume muted = Fin v /\
  gainNodeRef muted = Some (mkGainNode (Fin 0)) /\
  handleToggleMute muted
  = set_gainNodeRef (Some (mkGainNode (Fin v))) (set_lastVolume (Fin v) s).
Proof.
  intros Hv Hpos Hc Hg muted. subst muted.
  destruct (same_Fin_0_false v Hpos) as [S1 S2].
  assert (G : gt (Fin v) (Fin 0) = true) by (apply lt_Fin_true; exact Hpos).
  destruct s. cbn in Hv, Hc, Hg. subst.
  unfold handleToggleMute, volume_effect.
  cbn -[gt same]. rewrite G. cbn -[gt same]. rewrite S1.
  cbn -[gt same]. change (gt (Fin 0) (Fin 0)) with false.
  cbn -[gt same]. rewrite G. cbn -[gt same]. rewrite S2.
  repeat split.
Qed.

Lemma mute_unmute_restores_witness :
  (volume loaded = Fin 1 /\ (0 < 1)%Q /\ audioContextRef loaded = true /\
   gainNodeRef loaded = Some (mkGainNode (Fin 1))) /\
  volume (handleToggleMute loaded) = Fin 0 /\
  gainNodeRef (handleToggleMute loaded) = Some (mkGainNode (Fin 0)) /\
  handleToggleMute (handleToggleMute loaded)
  = set_gainNodeRef (Some (mkGainNode (Fin 1))) (set_lastVolume (Fin 1) loaded).
Proof.
  assert (H1 : volume loaded = Fin 1) by reflexivity.
  assert (H2 : (0 < 1)%Q) by reflexivity.
  assert (H3 : audioContextRef loaded = true) by reflexivity.
  assert (H4 : gainNodeRef loaded = Some (mkGainNode (Fin 1))) by reflexivity.
  split; [repeat split; assumption|].
  pose proof (mute_unmute_restores loaded 1 _ H1 H2 H3 H4) as (Ha & _ & Hb & Hc).
  repeat split; assumption.
Defined.

(** X15.  The [ended] handler computes with the rate of the render that
    started the source.  After a speed change during playback the offset it
    stores is [o + (t2 - t0) * r1], formed in binary64 arithmetic (or 0
    from the end threshold on), with [r1] the rate at [play]: the new rate
    [r2] does not enter.  The handler leaves the player stopped, with no
    frame pending. *)
Theorem ended_uses_rate_of_play
    (s : State) (b : AudioBuffer) (o t0 t1 t2 r1 r2 : Q) :
  audioBuffer s = Some b -> audioContextRef s = true ->
  is_Some (gainNodeRef s) ->
  startOffsetRef s = Fin o -> playbackRate s = Fin r1 -> (0 <= o)%Q ->
  let after :=
    step (handleSpeedChange (Fin r2) (Fin t1) (play (Fin t0) s))
      (Ended (Fin t2)) in
  let newOffset := ended_offset (Fin o) (Fin t0) (Fin t2) (Fin r1) in
  startOffsetRef after
  = (if ge newOffset (ended_threshold b) then Fin 0 else newOffset) /\
  playbackRate after = Fin r2 /\
  isPlaying after = false /\ animationFrame after = None.
Proof.
  intros Hb Hc Hg Ho Hr Hpos after newOffset. subst after.
  assert (Hplay := play_starts s b o r1 (Fin t0) Hb Hc Hg Ho Hr (or_introl Hpos)).
  cbv zeta in Hplay. rewrite Hplay.
  unfold handleSpeedChange. step_state. unfold onended. step_state.
  fold (ended_offset (Fin o) (Fin t0) (Fin t2) (Fin r1)).
  fold (ended_threshold b). fold newOffset.
  destruct (ge newOffset (ended_threshold b)); repeat split.
Qed.

Lemma ended_uses_rate_of_play_witness :
  (audioBuffer loaded = Some tenth_second /\ audioContextRef loaded = true /\
   is_Some (gainNodeRef loaded) /\ startOffsetRef loaded = Fin 0 /\
   playbackRate loaded = Fin 1 /\ (0 <= 0)%Q) /\
  startOffsetRef
    (step (handleSpeedChange (Fin 2) (Fin (1 # 100)) (play (Fin 0) loaded))
       (Ended (Fin (11 # 200))))
  = Binary64.literal (11 # 200) /\
  ge (ended_offset (Fin 0) (Fin 0) (Fin (11 # 200)) (Fin 2))
     (ended_threshold tenth_second) = true.
Proof.
  assert (H1 : audioBuffer loaded = Some tenth_second) by reflexivity.
  assert (H2 : audioContextRef loaded = true) by reflexivity.
  assert (H3 : is_Some (gainNodeRef loaded)) by (eexists; reflexivity).
  assert (H4 : startOffsetRef loaded = Fin 0) by reflexivity.
  assert (H5 : playbackRate loaded = Fin 1) by reflexivity.
  assert (H6 : (0 <= 0)%Q) by (vm_compute; discriminate).
  assert (E1 : ge (ended_offset (Fin 0) (Fin 0) (Fin (11 # 200)) (Fin 1))
                 (ended_threshold tenth_second) = false)
    by (vm_compute; reflexivity).
  assert (E2 : ended_offset (Fin 0) (Fin 0) (Fin (11 # 200)) (Fin 1)
               = Binary64.literal (11 # 200))
    by (vm_compute; reflexivity).
  assert (E3 : ge (ended_offset (Fin 0) (Fin 0) (Fin (11 # 200)) (Fin 2))
                 (ended_threshold tenth_second) = true)
    by (vm_compute; reflexivity).
  split; [repeat split; assumption|].
  pose proof (proj1 (ended_uses_rate_of_play loaded tenth_second 0 0 (1 # 100)
                       (11 # 200) 1 2 H1 H2 H3 H4 H5 H6)) as A.
  rewrite E1, E2 in A. split; [exact A|exact E3].
Defined.

Lemma step_without_buffer (s : State) (e : event) :
  is_generated e = false ->
  audioBuffer s = None -> isPlaying s = false -> audioSourceRef s = None ->
  audioBuffer (step s e) = None /\ isPlaying (step s e) = false /\
  audioSourceRef (step s e) = None.
Proof.
  intros He Hb Hp Hs. destruct s. cbn in Hb, Hp, Hs. subst.
  destruct e; try discriminate He; cbn -[gt same ge lt];
    unfold handleToggleMute, handleVolumeChange, volume_effect,
      handlePreviewVoice, setupAudioContext, updateProgress;
    cbn -[gt same ge lt]; repeat case_match; repeat split.
Qed.

(** X16.  Nothing plays without a buffer.  After the text or the voice
    changed, whatever the user does short of a finished generation (play,
    seek, speed, volume, mute, a voice preview, late frame and ended
    events), the player holds no buffer, is not playing and has no main
    source. *)
Theorem nothing_plays_without_buffer (s : State) (es : list event) :
  forallb (fun e => negb (is_generated e)) es = true ->
  let after := run (input_changed s) es in
  audioBuffer after = None /\ isPlaying after = false /\
  audioSourceRef after = None.
Proof.
  intros Hes after. subst after.
  assert (H0 : audioBuffer (input_changed s) = None /\
               isPlaying (input_changed s) = false /\
               audioSourceRef (input_changed s) = None)
    by (repeat split).
  revert Hes H0. generalize (input_changed s). clear s.
  induction es as [|e es IH]; intros s Hes H0; [exact H0|].
  cbn [forallb] in Hes. apply andb_true_iff in Hes as [He Hes].
  apply negb_true_iff in He. destruct H0 as (Hb & Hp & Hs).
  change (run s (e :: es)) with (run (step s e) es).
  apply IH; [exact Hes|].
  apply step_without_buffer; assumption.
Qed.

Lemma nothing_plays_without_buffer_witness :
  forallb (fun e => negb (is_generated e)) idle_clicks = true /\
  isPlaying (run (input_changed playing_from_start) idle_clicks) = false /\
  audioSourceRef (run (input_changed playing_from_start) idle_clicks) = None.
Proof.
  assert (H : forallb (fun e => negb (is_generated e)) idle_clicks = true)
    by reflexivity.
  split; [exact H|].
  exact (proj2 (nothing_plays_without_buffer playing_from_start idle_clicks H)).
Defined.

(** ** The speech request *)

Lemma append_prefix (a b : string) : String.prefix a (String.append a b) = true.
Proof.
  induction a as [|c a IH]; cbn.
  - destruct b; reflexivity.
  - destruct (Ascii.ascii_dec c c) as [_|N]; [exact IH|contradiction].
Qed.

(** X17.  What [generateSpeech] can come to once the client is built.  A
    returned string is never empty and is the [data] of the first part of
    the first candidate of the response.  Every failure, the function's own
    "no audio" error included, is an [Error] whose message starts with
    "Failed to generate speech: ". *)
Theorem generateSpeech_outcomes (call : Gemini.completion Gemini.Response) :
  match Gemini.generateSpeech (Gemini.Normal tt) call with
  | Gemini.Normal b =>
      b <> EmptyString /\
      exists response,
        call = Gemini.Normal response /\ Gemini.base64Audio response = Some b
  | Gemini.Abrupt e =>
      exists message,
        e = Gemini.ErrorObject message /\
        String.prefix Gemini.failed_prefix message = true
  end.
Proof.
  unfold Gemini.generateSpeech.
  destruct call as [response|e].
  - destruct (Gemini.base64Audio response) as [[|c b]|] eqn:E.
    + eexists. split; [reflexivity|apply append_prefix].
    + split; [discriminate|]. exists response. split; [reflexivity|exact E].
    + eexists. split; [reflexivity|apply append_prefix].
  - eexists. split; [reflexivity|apply append_prefix].
Qed.

(** X18.  Only the first part of the first candidate is looked at.  When
    it carries no inline data the request fails with the "no audio"
    message, whatever the later parts and candidates hold. *)
Theorem audio_only_from_first_part
    (response : Gemini.Response) (c : Gemini.Candidate) (cs : list Gemini.Candidate)
    (ct : Gemini.Content) (p : Gemini.Part) (ps : list Gemini.Part) :
  Gemini.candidates response = Some (c :: cs) ->
  Gemini.content c = Some ct ->
  Gemini.parts ct = Some (p :: ps) ->
  Gemini.inlineData p = None ->
  Gemini.generateSpeech (Gemini.Normal tt) (Gemini.Normal response)
  = Gemini.Abrupt
      (Gemini.ErrorObject (String.append Gemini.failed_prefix Gemini.no_audio)).
Proof.
  intros Hc Hct Hp Hi. unfold Gemini.generateSpeech, Gemini.base64Audio.
  rewrite Hc, Hct, Hp, Hi. reflexivity.
Qed.

Lemma audio_only_from_first_part_witness :
  Gemini.generateSpeech (Gemini.Normal tt) (Gemini.Normal Gemini.text_then_audio)
  = Gemini.Abrupt
      (Gemini.ErrorObject
         "Failed to generate speech: No audio data was returned from the API.").
Proof.
  exact (audio_only_from_first_part Gemini.text_then_audio _ _ _ _ _
           eq_refl eq_refl eq_refl eq_refl).
Defined.

(** ** The download name *)

Lemma name_unit_fixed (c : Z) :
  Download.name_unit c = true ->
  Download.lower_unit (Download.replace_unit c) = c.
Proof.
  unfold Download.name_unit, Download.lower_unit, Download.replace_unit,
    Download.kept, Download.in_range.
  destruct (Z.eqb_spec c 95) as [->|Hne]; [reflexivity|].
  destruct (Z.leb_spec 97 c), (Z.leb_spec c 122), (Z.leb_spec 65 c),
    (Z.leb_spec c 90), (Z.leb_spec 48 c), (Z.leb_spec c 57),
    (Z.leb_spec 1536 c), (Z.leb_spec c 1791);
    cbn; intros Hname; try reflexivity; try discriminate Hname; try lia;
    repeat match goal with
           | |- context [?a <=? ?b] => destruct (Z.leb_spec a b)
           end; cbn; try reflexivity; lia.
Qed.

Lemma safe_unit_name (c : Z) :
  Download.name_unit (Download.lower_unit (Download.replace_unit c)) = true.
Proof.
  unfold Download.name_unit, Download.lower_unit, Download.replace_unit,
    Download.kept, Download.in_range.
  destruct (Z.leb_spec 97 c), (Z.leb_spec c 122), (Z.leb_spec 65 c),
    (Z.leb_spec c 90), (Z.leb_spec 48 c), (Z.leb_spec c 57),
    (Z.leb_spec 1536 c), (Z.leb_spec c 1791);
    cbn; try reflexivity; try lia;
    repeat match goal with
           | |- context [?a <=? ?b] => destruct (Z.leb_spec a b)
           | |- context [?a =? ?b] => destruct (Z.eqb_spec a b)
           end; cbn in *; try reflexivity; lia.
Qed.

(** X19.  The text part of a download name is safe and stable: it has
    between 1 and 25 code units, each a lowercase ASCII letter, a digit,
    an underscore or a code unit of the Arabic block, and computing it
    again from itself gives the same name. *)
Theorem safeText_is_a_safe_name (text : list Z) :
  (1 <= length (Download.safeText text) <= 25)%nat /\
  forallb Download.name_unit (Download.safeText text) = true /\
  Download.safeText (Download.safeText text) = Download.safeText text.
Proof.
  set (s := map Download.lower_unit (map Download.replace_unit (take 25 text))).
  assert (Hlen : (length s <= 25)%nat).
  { subst s. rewrite !length_map, length_take. lia. }
  assert (Hall : forallb Download.name_unit s = true).
  { subst s. clear Hlen. induction (take 25 text) as [|c l IH]; [reflexivity|].
    cbn [map forallb]. rewrite safe_unit_name. exact IH. }
  assert (Hfix : forall l, forallb Download.name_unit l = true ->
                   map Download.lower_unit (map Download.replace_unit l) = l).
  { induction l as [|c l IH]; [reflexivity|].
    cbn [map forallb]. intros H. apply andb_true_iff in H as [Hc Hl].
    rewrite name_unit_fixed by exact Hc. rewrite IH by exact Hl. reflexivity. }
  unfold Download.safeText. fold s.
  destruct s as [|c s'] eqn:Es.
  - split; [cbn; lia|]. split; reflexivity.
  - split; [cbn [length] in *; lia|]. split; [exact Hall|].
    rewrite take_ge by exact Hlen. rewrite Hfix by exact Hall. reflexivity.
Qed.

(** ** From the payload to the transport *)




(** ** Voice preview *)

Lemma step_keeps_preview (s : State) (e : event) :
  stops_preview e = false ->
  previewAudioSourceRef (step s e) = previewAudioSourceRef s.
Proof.
  intros He. destruct s.
  destruct e; try discriminate He; cbn -[gt same ge lt];
    unfold handleTogglePlayPause, play, pause, handleToggleMute,
      handleVolumeChange, volume_effect, handleSpeedChange, handleSeek,
      onended, updateProgress;
    cbn -[gt same ge lt]; unfold play_closure, stopPlayback;
    cbn -[gt same ge lt]; repeat case_match; reflexivity.
Qed.

(** X21.  A voice preview is out of reach of the transport.  Play, pause,
    seek, speed and volume changes, frames and ended events leave the
    preview source where it is, so a preview keeps sounding over the main
    playback; only a new preview, a generation or a change of the input
    stops it. *)
Theorem preview_outlives_transport (s : State) (es : list event) :
  forallb (fun e => negb (stops_preview e)) es = true ->
  previewAudioSourceRef (run s es) = previewAudioSourceRef s.
Proof.
  revert s. induction es as [|e es IH]; intros s Hes; [reflexivity|].
  cbn [forallb] in Hes. apply andb_true_iff in Hes as [He Hes].
  apply negb_true_iff in He.
  change (run s (e :: es)) with (run (step s e) es).
  rewrite IH by exact Hes. apply step_keeps_preview. exact He.
Qed.

Lemma preview_outlives_transport_witness :
  forallb (fun e => negb (stops_preview e)) transport_clicks = true /\
  previewAudioSourceRef (run previewing transport_clicks)
  = Some (mkSourceNode tenth_second (Fin 1) [] (Fin 0) None).
Proof.
  assert (H : forallb (fun e => negb (stops_preview e)) transport_clicks = true)
    by reflexivity.
  split; [exact H|].
  rewrite (preview_outlives_transport previewing transport_clicks H).
  reflexivity.
Defined.

(** ** Volume and gain *)

Lemma same_refl (a : number) : same a a = true.
Proof. destruct a; cbn; try reflexivity. apply Qeq_bool_iff. reflexivity. Qed.

Lemma same_sym (a b : number) : same a b = same b a.
Proof.
  destruct a as [x| | |], b as [y| | |]; cbn; try reflexivity.
  destruct (Qeq_bool x y) eqn:E1, (Qeq_bool y x) eqn:E2; try reflexivity.
  - apply Qeq_bool_iff in E1. symmetry in E1. apply Qeq_bool_iff in E1. congruence.
  - apply Qeq_bool_iff in E2. symmetry in E2. apply Qeq_bool_iff in E2. congruence.
Qed.

Lemma same_trans (a b c : number) :
  same a b = true -> same b c = true -> same a c = true.
Proof.
  destruct a as [x| | |], b as [y| | |], c as [z| | |]; cbn;
    try discriminate; try reflexivity.
  intros H1 H2. apply Qeq_bool_iff in H1, H2. apply Qeq_bool_iff.
  rewrite H1. exact H2.
Qed.

Lemma audible_not_zero (a : number) :
  gt a (Fin 0) = true -> same a (Fin 0) = true -> False.
Proof.
  destruct a as [x| | |]; cbn; try discriminate.
  intros H1 H2. apply lt_Fin_true in H1. apply Qeq_bool_iff in H2.
  rewrite H2 in H1. exact (Qlt_irrefl _ H1).
Qed.

Ltac volume_goal :=
  repeat match goal with
         | H : _ && _ = true |- _ => apply andb_true_iff in H as [? ?]
         end;
  repeat (apply andb_true_iff; split);
  try reflexivity; try assumption; try apply same_refl;
  try (exfalso; eapply audible_not_zero; eassumption);
  try (eapply same_trans; eassumption);
  try (rewrite same_sym; assumption).

Lemma volume_ok_step (s : State) (e : event) :
  volume_ok s = true -> offered s e = true -> volume_ok (step s e) = true.
Proof.
  intros Hok Hoff.
  destruct s as [buf pl ct du vol lv pr ctx src gn pv af ps so].
  unfold volume_ok, has_buffer, gain_present in Hok. cbn -[same] in Hok.
  destruct vol as [v| | |]; try discriminate Hok.
  destruct lv as [l| | |]; try discriminate Hok.
  cbn -[same] in Hok.
  unfold offered, has_buffer in Hoff. cbn in Hoff.
  destruct buf as [b|], ctx, gn as [g|]; try discriminate Hok;
    cbn -[same] in Hok;
    destruct e; try discriminate Hoff;
    unfold volume_ok, has_buffer, gain_present;
    cbn -[gt same ge lt is_finite];
    unfold handleTogglePlayPause, play, pause, handleToggleMute,
      handleVolumeChange, volume_effect, handleSpeedChange, handleSeek,
      onended, updateProgress, input_changed, handleGenerateAudio,
      handlePreviewVoice, setupAudioContext;
    cbn -[gt same ge lt is_finite];
    unfold play_closure, stopPlayback, setupAudioContext;
    cbn -[gt same ge lt is_finite];
    repeat case_match; cbn -[gt same ge lt is_finite] in *; simplify_eq;
    volume_goal.
Qed.

Lemma volume_ok_run (es : list event) (s : State) :
  volume_ok s = true -> all_offered s es = true -> volume_ok (run s es) = true.
Proof.
  revert s. induction es as [|e es IH]; intros s Hok Hoff; [exact Hok|].
  cbn [all_offered] in Hoff. apply andb_true_iff in Hoff as [He Hes].
  change (run s (e :: es)) with (run (step s e) es).
  apply IH; [|exact Hes]. apply volume_ok_step; assumption.
Qed.

(** X22.  The gain stage carries the volume shown.  Along any session in
    which the play button and the sliders are used only while they are
    rendered, that is while a buffer is loaded, the volume is finite, a
    loaded buffer comes with a gain stage, and the gain of the stage equals
    the [volume] state, through mute, unmute, slider moves, generations and
    previews. *)
Theorem gain_follows_volume (es : list event) :
  all_offered initial es = true ->
  let s := run initial es in
  is_finite (volume s) = true /\
  (has_buffer s = true -> is_Some (gainNodeRef s)) /\
  forall g, gainNodeRef s = Some g -> same (gain g) (volume s) = true.
Proof.
  intros Hoff s.
  assert (Hok : volume_ok s = true)
    by (apply volume_ok_run; [reflexivity|exact Hoff]).
  clearbody s. unfold volume_ok, gain_present in Hok.
  apply andb_true_iff in Hok as [Hok Hgain].
  apply andb_true_iff in Hok as [Hok Hbuf].
  apply andb_true_iff in Hok as [Hvol _].
  split; [exact Hvol|]. split.
  - intros Hb. rewrite Hb in Hbuf. cbn in Hbuf. rewrite Hbuf in Hgain.
    destruct (gainNodeRef s); [eexists; reflexivity|discriminate].
  - intros g Hg. rewrite Hg in Hgain.
    destruct (audioContextRef s); [exact Hgain|].
    rewrite andb_false_r in Hgain. discriminate.
Qed.

Lemma gain_follows_volume_witness :
  all_offered initial volume_session = true /\
  gainNodeRef (run initial volume_session) = Some (mkGainNode (Fin (3 # 10))) /\
  same (Fin (3 # 10)) (volume (run initial volume_session)) = true.
Proof.
  assert (H : all_offered initial volume_session = true) by reflexivity.
  assert (Hg : gainNodeRef (run initial volume_session)
               = Some (mkGainNode (Fin (3 # 10)))) by reflexivity.
  split; [exact H|]. split; [exact Hg|].
  exact (proj2 (proj2 (gain_follows_volume volume_session H)) _ Hg).
Defined.
